(** * Remedy: PSF-weighted spectral extraction ([extract.py])

    A shallow embedding of the [Extract] class of [extract.py] and the
    properties its specification states about it.

    Number model.  The arrays handled by the program are numpy [float64]
    arrays.  Two readings of the source expressions are used:

    - operations built from [+ - * / sqrt abs] and comparisons are embedded
      on the kernel's binary64 numbers ([PrimFloat]), which evaluate as the
      interpreter does, NaN included: modules [Np], [Spectrum], [Collapse],
      [Growth64] and the binary64 instance of the geometry kernel;
    - operations that need [pi], [arccos], [sin], [cos], [exp] or a power,
      and the statements that speak of exact sums, are embedded on the real
      numbers ([R]), the exact-arithmetic reading of the source: the real
      instance of the geometry kernel and modules [Rnp], [Growth], [Psf] and
      [Weights].  A property stated on this reading says so; the running
      program agrees with it up to rounding.

    What numpy leaves open is left open.  The order in which [np.sum] adds
    the entries of a column depends on the memory layout of its operand,
    and the order [np.argsort] gives to equal entries on its sorting
    algorithm: [get_spectrum] and [get_psf_curve_of_growth] take the
    reduction and the argsort as parameters, constrained only to be a sum of
    the entries ([Np.axis0_sum]) and a sorting permutation
    ([Rnp.is_argsort]).  The orders numpy is known to follow (row after
    row, pairwise along a contiguous axis) are instances.

    Collaborators that are not part of the repository (numpy's masked
    median, scipy's [griddata] and Delaunay triangulation, astropy's models
    and [convolve]) appear as section variables of the functions that call
    them.

    The first part of the file holds the embedding, one module per method;
    the second part holds the properties, one module per method again. *)

From Stdlib Require Import List Bool Arith ZArith Lia Sorted Permutation.
From Stdlib Require Import Floats.
From Stdlib Require Reals Lra.
From Stdlib Require Ascii String.
Import ListNotations.

Set Warnings "-inexact-float".

(* ================================================================== *)
(** * numpy arrays of binary64 numbers *)
(* ================================================================== *)

Module Np.

Open Scope float_scope.

(** A one-dimensional [float64] array. *)
Abbreviation vec := (list float).

(** A two-dimensional array: its shape [(nrow, ncol)] and its rows.  The
    shape is kept next to the rows, as numpy does, so that an array with
    no row still knows how many columns it has. *)
Record ndarray := mkarray {
  nrow : nat;
  ncol : nat;
  rows : list vec
}.

(** The rows agree with the declared shape. *)
Definition well_shaped (A : ndarray) : Prop :=
  length (rows A) = nrow A /\ Forall (fun r => length r = ncol A) (rows A).

Definition has_shape (a b : nat) (A : ndarray) : Prop :=
  nrow A = a /\ ncol A = b /\ well_shaped A.

(** [A[i, j]]. *)
Definition get (A : ndarray) (i j : nat) : float :=
  nth j (nth i (rows A) []) nan.

(** [A[:, j]]. *)
Definition column (A : ndarray) (j : nat) : vec :=
  map (fun r => nth j r nan) (rows A).

(** Element-wise combination of two sequences ([zip] then apply). *)
Fixpoint map2 {A B C : Type} (f : A -> B -> C) (l1 : list A) (l2 : list B)
  : list C :=
  match l1, l2 with
  | x :: l1', y :: l2' => f x y :: map2 f l1' l2'
  | _, _ => []
  end.

(** [a[sel]] for a boolean array [sel]: the entries of [a] at the positions
    where [sel] holds, in order. *)
Fixpoint compress {A : Type} (sel : list bool) (l : list A) : list A :=
  match sel, l with
  | s :: sel', x :: l' =>
      if s then x :: compress sel' l' else compress sel' l'
  | _, _ => []
  end.

(** [A * B] on arrays of one shape. *)
Definition mul2 (A B : ndarray) : ndarray :=
  mkarray (nrow A) (ncol A) (map2 (map2 mul) (rows A) (rows B)).

(** [A ** 2]: numpy squares element-wise. *)
Definition square2 (A : ndarray) : ndarray :=
  mkarray (nrow A) (ncol A) (map (map (fun x => x * x)) (rows A)).

(** The numbers [np.sum] can return for the entries [l].  numpy adds every
    entry once, with binary64 additions; the order and the grouping of the
    additions are not fixed by the program: they follow the memory layout
    of the array (one entry after the other across the rows, or pairwise
    over eight running sums along a contiguous axis), and the accumulation
    may start from the identity 0. *)
Inductive summation : vec -> float -> Prop :=
| summation_nil : summation [] 0
| summation_one (x : float) : summation [x] x
| summation_app (l1 l2 : vec) (s1 s2 : float) :
    summation l1 s1 -> summation l2 s2 -> summation (l1 ++ l2) (s1 + s2)
| summation_perm (l l' : vec) (s : float) :
    Permutation l l' -> summation l s -> summation l' s.

(** [S] is a reduction [np.sum(., axis=0)]: on an array of [b] columns it
    returns [b] numbers, the one of index [j] a sum of the entries of
    column [j]. *)
Definition axis0_sum (S : ndarray -> vec) : Prop :=
  forall A, well_shaped A ->
    length (S A) = ncol A /\
    forall j, j < ncol A -> summation (column A j) (nth j (S A) nan).

(** One such reduction: the rows are added one after the other to a row of
    zeros.  It is the order numpy follows on an array stored row by row
    whose rows hold more than one entry. *)
Definition sum_axis0_by_rows (A : ndarray) : vec :=
  fold_left (map2 add) (rows A) (repeat 0 (ncol A)).

(** The sum over the first axis in that order, written index by index:
    [((0 + f 0) + f 1) + ... + f (n-1)]. *)
Definition fsum (n : nat) (f : nat -> float) : float :=
  fold_left (fun s i => s + f i) (seq 0 n) 0.

(** numpy's pairwise summation of a contiguous run of numbers.  Fewer than
    eight entries are added in order from 0.  Up to 128 entries are added
    into eight running sums, entry [i] into sum [i mod 8], as long as full
    blocks of eight last; the eight sums are combined as
    [((r0 + r1) + (r2 + r3)) + ((r4 + r5) + (r6 + r7))] and the entries
    left over are added in order.  A longer run is cut at
    [n/2 - (n/2) mod 8] and the sums of its two parts are added. *)
Definition combine8 (r : vec) : float :=
  match r with
  | [r0; r1; r2; r3; r4; r5; r6; r7] =>
      ((r0 + r1) + (r2 + r3)) + ((r4 + r5) + (r6 + r7))
  | _ => nan
  end.

Fixpoint add_blocks (k : nat) (r l : vec) : vec * vec :=
  match k with
  | O => (r, l)
  | S k' => add_blocks k' (map2 add r (firstn 8 l)) (skipn 8 l)
  end.

Fixpoint pairwise_sum_rec (fuel : nat) (l : vec) : float :=
  let n := length l in
  if (n <? 8)%nat then fold_left add l 0
  else if (n <=? 128)%nat then
    let (r, rest) := add_blocks (n / 8 - 1)%nat (firstn 8 l) (skipn 8 l) in
    fold_left add rest (combine8 r)
  else
    match fuel with
    | O => nan
    | S fuel' =>
        let n2 := (n / 2 - (n / 2) mod 8)%nat in
        pairwise_sum_rec fuel' (firstn n2 l)
        + pairwise_sum_rec fuel' (skipn n2 l)
    end.

Definition pairwise_sum (l : vec) : float := pairwise_sum_rec (length l) l.

(** [np.sum] of a one-dimensional contiguous array: the pairwise sum added
    to the identity. *)
Definition sum (v : vec) : float := 0 + pairwise_sum v.

(** Another reduction [np.sum(., axis=0)]: every column is summed pairwise.
    It is the order numpy follows along an axis that is contiguous in
    memory: an array of a single column, or an array stored column by
    column. *)
Definition sum_axis0_contiguous (A : ndarray) : vec :=
  map (fun j => sum (column A j)) (seq 0 (ncol A)).

(** [np.cumsum] of a one-dimensional array: the running sums, in order. *)
Fixpoint cumsum_from (acc : float) (l : vec) : vec :=
  match l with
  | [] => []
  | x :: l' => (acc + x) :: cumsum_from (acc + x) l'
  end.

Definition cumsum (l : vec) : vec :=
  match l with
  | [] => []
  | x :: l' => x :: cumsum_from x l'
  end.

Definition vdiv (u v : vec) : vec := map2 div u v.
Definition vsqrt (u : vec) : vec := map sqrt u.

(** [v[sel] = x] for a boolean array [sel]. *)
Definition putmask (v : vec) (sel : list bool) (x : float) : vec :=
  map2 (fun vi (s : bool) => if s then x else vi) v sel.

(** Sorting, as [np.sort] orders NaN-free data. *)
Fixpoint insert_sorted (x : float) (l : vec) : vec :=
  match l with
  | [] => [x]
  | y :: l' => if x <=? y then x :: l else y :: insert_sorted x l'
  end.

Definition sort (v : vec) : vec := fold_right insert_sorted [] v.

(** [np.mean] of a one-dimensional array: the sum over the count. *)
Definition mean (v : vec) : float :=
  sum v / of_uint63 (Uint63.of_Z (Z.of_nat (length v))).

(** [np.median] of a one-dimensional array: NaN as soon as one entry is
    NaN; otherwise the mean of the middle entry (odd length) or of the two
    middle entries (even length) of the sorted data; the mean of an empty
    slice, NaN, on an empty array. *)
Definition median (v : vec) : float :=
  let n := length v in
  if existsb is_nan v then nan
  else
    let s := sort v in
    if Nat.odd n then mean (firstn 1 (skipn (n / 2) s))
    else mean (firstn 2 (skipn (n / 2 - 1) s)).

End Np.

(* ================================================================== *)
(** * [Extract.get_spectrum] *)
(* ================================================================== *)

Module Spectrum.

Import Np.
Open Scope float_scope.

(** [sel = w < np.median(w)*0.1]. *)
Definition low_weight (w : vec) : list bool :=
  let threshold := median w * 0.1 in
  map (fun wj => wj <? threshold) w.

Section Reductions.

(** numpy's [np.sum(., axis=0)] on the three arrays [get_spectrum] hands to
    it: [data * mask * weights], [error**2 * mask * weights] and
    [mask * weights**2].  The order in which numpy adds the entries of a
    column depends on how the array lies in memory, which the method does
    not decide; the properties below are stated for every reduction
    ([axis0_sum]). *)
Variable sum_flux : ndarray -> vec.
Variable sum_noise : ndarray -> vec.
Variable sum_weight : ndarray -> vec.

(** The total weight of each channel, [np.sum(mask * weights**2, axis=0)]. *)
Definition channel_weight (mask weights : ndarray) : vec :=
  sum_weight (mul2 mask (square2 weights)).

(** The value bound to [spectrum] by the first assignment. *)
Definition raw_spectrum (data mask weights : ndarray) : vec :=
  vdiv (sum_flux (mul2 (mul2 data mask) weights))
       (sum_weight (mul2 mask (square2 weights))).

(** The value bound to [spectrum_error] by the second assignment. *)
Definition raw_spectrum_error (error mask weights : ndarray) : vec :=
  vdiv (vsqrt (sum_noise (mul2 (mul2 (square2 error) mask) weights)))
       (sum_weight (mul2 mask (square2 weights))).

Definition get_spectrum (data error mask weights : ndarray) : vec * vec :=
  let spectrum := raw_spectrum data mask weights in
  let spectrum_error := raw_spectrum_error error mask weights in
  let w := channel_weight mask weights in
  let sel := low_weight w in
  (putmask spectrum sel nan, putmask spectrum_error sel nan).

End Reductions.

End Spectrum.

(* ================================================================== *)
(** * [Extract.intersection_area] *)
(* ================================================================== *)

Module Geometry.

Import Stdlib.Reals.Reals.

(** The arithmetic of the geometry kernel.  The function is written once,
    over this interface, and read at two number types: [R] (exact) and
    [float] (binary64). *)
Class Num (F : Type) := {
  num_zero : F;
  num_half : F;
  num_two : F;
  num_add : F -> F -> F;
  num_sub : F -> F -> F;
  num_mul : F -> F -> F;
  num_div : F -> F -> F;
  num_abs : F -> F;
  num_le : F -> F -> bool;
  num_lt : F -> F -> bool
}.

(** The transcendental functions of the kernel ([np.pi], [np.arccos],
    [np.sin]); binary64 has no instance of them here. *)
Class Trig (F : Type) := {
  trig_pi : F;
  trig_arccos : F -> F;
  trig_sin : F -> F
}.

Declare Scope num_scope.
Delimit Scope num_scope with num.
Infix "+" := num_add : num_scope.
Infix "-" := num_sub : num_scope.
Infix "*" := num_mul : num_scope.
Infix "/" := num_div : num_scope.

Section Kernel.
Context {F : Type} {numF : Num F}.
Local Open Scope num_scope.

(** [x**2]. *)
Definition sqr (x : F) : F := x * x.

(** Python's [min(a, b)]: [b] when [b < a], otherwise [a]. *)
Definition py_min (a b : F) : F := if num_lt b a then b else a.

(** The guard [d <= abs(R-r)]: one circle lies inside the other. *)
Definition enclosed (d R r : F) : bool := num_le d (num_abs (R - r)).

(** The guard [d >= r + R]: the circles do not overlap. *)
Definition disjoint (d R r : F) : bool := num_le (r + R) d.

(** The argument of the first [np.arccos]. *)
Definition cos_alpha (d R r : F) : F :=
  let r2 := sqr r in let R2 := sqr R in let d2 := sqr d in
  (d2 + r2 - R2) / (num_two * d * r).

(** The argument of the second [np.arccos]. *)
Definition cos_beta (d R r : F) : F :=
  let r2 := sqr r in let R2 := sqr R in let d2 := sqr d in
  (d2 + R2 - r2) / (num_two * d * R).

Context {trigF : Trig F}.

(** The value computed once both guards have failed. *)
Definition two_segments (d R r : F) : F :=
  let r2 := sqr r in let R2 := sqr R in
  let alpha := trig_arccos (cos_alpha d R r) in
  let beta := trig_arccos (cos_beta d R r) in
  r2 * alpha + R2 * beta -
  num_half * (r2 * trig_sin (num_two * alpha)
              + R2 * trig_sin (num_two * beta)).

Definition intersection_area (d R r : F) : F :=
  if enclosed d R r then trig_pi * sqr (py_min R r)
  else if disjoint d R r then num_zero
  else two_segments d R r.

End Kernel.

(** Exact arithmetic. *)
#[export] Instance R_num : Num R := {|
  num_zero := 0%R;
  num_half := (1 / 2)%R;
  num_two := 2%R;
  num_add := Rplus;
  num_sub := Rminus;
  num_mul := Rmult;
  num_div := Rdiv;
  num_abs := Rabs;
  num_le := fun x y => if Rle_dec x y then true else false;
  num_lt := fun x y => if Rlt_dec x y then true else false
|}.

#[export] Instance R_trig : Trig R := {|
  trig_pi := PI;
  trig_arccos := acos;
  trig_sin := sin
|}.

(** binary64 arithmetic, as the interpreter performs it. *)
#[export] Instance float_num : Num float := {|
  num_zero := 0%float;
  num_half := 0.5%float;
  num_two := 2%float;
  num_add := PrimFloat.add;
  num_sub := PrimFloat.sub;
  num_mul := PrimFloat.mul;
  num_div := PrimFloat.div;
  num_abs := PrimFloat.abs;
  num_le := PrimFloat.leb;
  num_lt := PrimFloat.ltb
|}.

End Geometry.

(* ================================================================== *)
(** * [Extract.make_collapsed_image] *)
(* ================================================================== *)

Module Collapse.

Import Np.
Import Stdlib.Strings.String.
Open Scope float_scope.

(** The three layers returned: the image and the two coordinate grids. *)
Record zarray := mkzarray {
  layer0 : list vec;
  layer1 : list vec;
  layer2 : list vec
}.

(** One entry of [(self.wave > wrange[0]) * (self.wave <= wrange[1])]. *)
Definition in_wrange (wrange : float * float) (w : float) : bool :=
  (fst wrange <? w) && (w <=? snd wrange).

(** [sel]: the boolean array over the wavelength grid. *)
Definition wave_selection (wave : vec) (wrange : float * float) : list bool :=
  map (in_wrange wrange) wave.

(** [I[sel]] with [I = np.arange(b)]. *)
Definition selected_indices (wave : vec) (wrange : float * float) (b : nat)
  : list nat :=
  compress (wave_selection wave wrange) (seq 0 b).

(** The section sizes of [np.array_split]: with [total = q*n + e], the first
    [e] sections hold [q + 1] entries and the others [q]. *)
Definition section_sizes (total n : nat) : list nat :=
  repeat (total / n + 1)%nat (total mod n) ++ repeat (total / n)%nat (n - total mod n).

Fixpoint split_by {A : Type} (sizes : list nat) (l : list A) : list (list A) :=
  match sizes with
  | [] => []
  | k :: ks => firstn k l :: split_by ks (skipn k l)
  end.

(** [np.array_split(l, n)] for [n > 0]. *)
Definition array_split {A : Type} (l : list A) (n : nat) : list (list A) :=
  split_by (section_sizes (List.length l) n) l.

(** [np.array_split(A, n, axis=1)] on the rows of a two-dimensional array:
    section [k] keeps section [k] of every row. *)
Definition array_split_axis1 (rs : list vec) (n : nat) : list (list vec) :=
  map (fun k => map (fun r => nth k (array_split r n) []) rs) (seq 0 n).

(** [np.mean(xi)] stored in an array of [dtype=int]: the mean of the
    integers is truncated; the mean of an empty section is NaN, which has no
    integer value.  (The sum of the indices is exact in binary64 and the
    truncation of the rounded quotient is the integer quotient for every
    index range a wavelength grid can have.) *)
Definition chunk_index (xi : list nat) : option nat :=
  match xi with
  | [] => None
  | _ :: _ => Some (list_sum xi / List.length xi)%nat
  end.

Fixpoint sequence_opt {A : Type} (l : list (option A)) : option (list A) :=
  match l with
  | [] => Some []
  | None :: _ => None
  | Some x :: l' =>
      match sequence_opt l' with
      | None => None
      | Some xs => Some (x :: xs)
      end
  end.

(** [ichunk], or [None] where the interpreter raises ([nchunks] not
    positive, or an empty section). *)
Definition chunk_indices (sel : list bool) (b nchunks : nat)
  : option (list nat) :=
  if (nchunks =? 0)%nat then None
  else sequence_opt (map chunk_index (array_split (compress sel (seq 0 b)) nchunks)).

(** [int(x)] on a binary64 number: truncation toward zero; NaN and the
    infinities have no integer value. *)
Definition int_of_float (x : float) : option Z :=
  match Prim2SF x with
  | S754_zero _ => Some 0%Z
  | S754_finite s m e =>
      let v := if (0 <=? e)%Z then (Z.pos m * 2 ^ e)%Z
               else (Z.pos m / 2 ^ (- e))%Z in
      Some (if s then (- v)%Z else v)
  | _ => None
  end.

Definition float_of_nat (n : nat) : float :=
  of_uint63 (Uint63.of_Z (Z.of_nat n)).

(** [np.linspace(start, stop, num)]: [num] samples, the last one [stop]. *)
Definition linspace (start stop : float) (num : nat) : vec :=
  match num with
  | O => []
  | 1%nat => [start]
  | _ =>
      let step := (stop - start) / float_of_nat (num - 1) in
      map (fun i => float_of_nat i * step + start) (seq 0 (num - 1)) ++ [stop]
  end.

(** [np.meshgrid(x, y)]. *)
Definition meshgrid (x y : vec) : list vec * list vec :=
  (map (fun _ => x) y, map (fun yi => map (fun _ => yi) x) y).

(** [np.pi]. *)
Definition np_pi : float := 0x1.921fb54442d18p+1.

(** The rows of [S] once [S[:, 0] = xloc - self.ADRx[i]] and
    [S[:, 1] = yloc - self.ADRy[i]] have run. *)
Definition shifted_positions (xloc yloc ADRx ADRy : vec) (i : nat)
  : list (float * float) :=
  map2 (fun x y => (x - nth i ADRx nan, y - nth i ADRy nan)) xloc yloc.

(** [np.median(image_list, axis=0)] for images of shape [(n, n)]. *)
Definition median_axis0 (images : list (list vec)) (n : nat) : list vec :=
  map (fun i =>
         map (fun j => median (map (fun img => nth j (nth i img []) nan) images))
             (seq 0 n))
      (seq 0 n).

Definition is_some {A : Type} (o : option A) : bool :=
  match o with Some _ => true | None => false end.

Fixpoint cat_somes {A : Type} (l : list (option A)) : list A :=
  match l with
  | [] => []
  | Some x :: l' => x :: cat_somes l'
  | None :: l' => cat_somes l'
  end.

(** The two messages handed to [self.log.warning]; [dquote] is the
    double-quote character they contain. *)
Definition dquote : string :=
  String (Stdlib.Strings.Ascii.ascii_of_nat 34) EmptyString.

Definition warning1 : string :=
  ("interp_kind must be " ++ dquote ++ "linear" ++ dquote ++ " or "
   ++ dquote ++ "cubic" ++ dquote)%string.

Definition warning2 : string :=
  ("Using " ++ dquote ++ "linear" ++ dquote ++ " for interp_kind")%string.

(** The two values of [interp_kind] the method accepts. *)
Definition linear : string := "linear".
Definition cubic : string := "cubic".

(** A method of [griddata] that [make_collapsed_image] does not accept. *)
Definition nearest : string := "nearest".

(** [interp_kind not in ['linear', 'cubic']]. *)
Definition invalid_kind (interp_kind : string) : bool :=
  negb (String.eqb interp_kind linear || String.eqb interp_kind cubic).

Section Collaborators.

(** [np.ma.median(np.ma.array(chunk, mask=m), axis=1)]: one value per
    fiber, [None] where the result is masked. *)
Variable ma_median_axis1 : list vec -> list (list bool) -> list (option float).

(** [image / np.ma.sum(image)] on a masked array. *)
Variable ma_normalise : list (option float) -> list (option float).

(** [scipy.interpolate.griddata(points, values, (xgrid, ygrid), method)];
    [None] where it raises. *)
Variable griddata :
  list (float * float) -> vec -> list vec -> list vec -> string ->
  option (list vec).

(** [astropy.convolution]: the kernel type, [Gaussian2DKernel] and
    [convolve]. *)
Variable kernel : Type.
Variable Gaussian2DKernel : float -> kernel.
Variable convolve : list vec -> kernel -> list vec.

(** One turn of the loop over the chunks, up to [image_list.append]. *)
Definition chunk_image (pos : list (float * float)) (chunk mchunk : list vec)
           (xgrid ygrid : list vec) (scale area : float)
           (G : option kernel) (interp_kind : string) : option (list vec) :=
  let marray_mask := map (map (fun m => m <? 1e-8)) mchunk in
  let image := ma_normalise (ma_median_axis1 chunk marray_mask) in
  let unmasked := map is_some image in
  match griddata (compress unmasked pos) (cat_somes image)
                 xgrid ygrid interp_kind with
  | None => None
  | Some g =>
      let grid_z := map (map (fun z => z * (scale * scale) / area)) g in
      Some (match G with
            | Some k => convolve grid_z k
            | None => grid_z
            end)
  end.

(** The loop over the chunks: [cnt] is the counter, the result is
    [image_list]. *)
Fixpoint collapse_chunks (chunks : list (list vec * list vec)) (cnt : nat)
         (ichunk : list nat) (xloc yloc ADRx ADRy : vec)
         (xgrid ygrid : list vec) (scale area : float)
         (G : option kernel) (interp_kind : string)
  : option (list (list vec)) :=
  match chunks with
  | [] => Some []
  | (chunk, mchunk) :: rest =>
      let pos := shifted_positions xloc yloc ADRx ADRy (nth cnt ichunk 0%nat) in
      match chunk_image pos chunk mchunk xgrid ygrid scale area G interp_kind with
      | None => None
      | Some grid_z =>
          match collapse_chunks rest (S cnt) ichunk xloc yloc ADRx ADRy
                                xgrid ygrid scale area G interp_kind with
          | None => None
          | Some image_list => Some (grid_z :: image_list)
          end
      end
  end.

(** [make_collapsed_image]: the warnings logged and the array returned
    ([None] where the interpreter raises).  [wave], [ADRx] and [ADRy] are
    the fields of [self] the method reads. *)
Definition make_collapsed_image (wave ADRx ADRy : vec)
           (xc yc : float) (xloc yloc : vec) (data mask : ndarray)
           (scale seeing_fac boxsize : float) (wrange : float * float)
           (nchunks : nat) (convolve_image : bool) (interp_kind : string)
  : list string * option zarray :=
  let b := ncol data in
  match int_of_float (boxsize / scale) with
  | None => ([], None)
  | Some N =>
      if (N <? 0)%Z then ([], None)
      else
        let (xl, xh) := (xc - boxsize / 2, xc + boxsize / 2) in
        let (yl, yh) := (yc - boxsize / 2, yc + boxsize / 2) in
        let (x, y) := (linspace xl xh (Z.to_nat N), linspace yl yh (Z.to_nat N)) in
        let (xgrid, ygrid) := meshgrid x y in
        let area := np_pi * (0.75 * 0.75) in
        let sel := wave_selection wave wrange in
        match chunk_indices sel b nchunks with
        | None => ([], None)
        | Some ichunk =>
            let G := if convolve_image
                     then Some (Gaussian2DKernel (seeing_fac / scale / 2.35))
                     else None in
            let (log, interp_kind) :=
              if invalid_kind interp_kind
              then ([warning1; warning2], linear)
              else ([], interp_kind) in
            let chunks :=
              combine (array_split_axis1 (map (compress sel) (rows data)) nchunks)
                      (array_split_axis1 (map (compress sel) (rows mask)) nchunks) in
            match collapse_chunks chunks 0 ichunk xloc yloc ADRx ADRy
                                  xgrid ygrid scale area G interp_kind with
            | None => (log, None)
            | Some image_list =>
                let image := median_axis0 image_list (Z.to_nat N) in
                let image := map (map (fun z => if is_nan z then 0 else z)) image in
                (log, Some (mkzarray image
                                     (map (map (fun v => v - xc)) xgrid)
                                     (map (map (fun v => v - yc)) ygrid)))
            end
        end
  end.

End Collaborators.

End Collapse.

(* ================================================================== *)
(** * numpy arrays in exact arithmetic *)
(* ================================================================== *)

Module Rnp.

Import Stdlib.Reals.Reals.
Import Np.
Open Scope R_scope.

(** A PSF image: [psf[0]] (intensity), [psf[1]] (x grid) and [psf[2]]
    (y grid), three arrays of one two-dimensional shape. *)
Record psf_image := mkpsf {
  intensity : list (list R);
  xgrid : list (list R);
  ygrid : list (list R)
}.

Definition Rleb (x y : R) : bool := if Rle_dec x y then true else false.

(** [np.sum] of a one-dimensional array. *)
Definition Rsum (l : list R) : R := fold_right Rplus 0 l.

(** [A.ravel()]: the rows one after the other. *)
Definition ravel {A : Type} (m : list (list A)) : list A := concat m.

(** [A.sum()] on a two-dimensional array. *)
Definition Rsum2 (m : list (list R)) : R := Rsum (ravel m).

(** [np.cumsum]. *)
Fixpoint cumsum_from (acc : R) (l : list R) : list R :=
  match l with
  | [] => []
  | x :: l' => (acc + x) :: cumsum_from (acc + x) l'
  end.

Definition cumsum (l : list R) : list R := cumsum_from 0 l.

(** [A.max()]; it raises on an empty array. *)
Definition amax (l : list R) : option R :=
  match l with
  | [] => None
  | x :: l' => Some (fold_left Rmax l' x)
  end.

(** [a[inds]] for an array of indices. *)
Definition take (a : list R) (inds : list nat) : list R :=
  map (fun i => nth i a 0) inds.

(** What [np.argsort(a)] returns: the indices of [a], each one once, in an
    order that puts the entries in ascending order.  numpy does not promise
    an order among equal entries (its default sort is not stable). *)
Definition is_argsort (a : list R) (inds : list nat) : Prop :=
  Permutation inds (seq 0 (length a)) /\ Sorted Rle (take a inds).

(** One argsort: insertion, which keeps equal entries in index order. *)
Fixpoint insert_index (key : nat -> R) (i : nat) (l : list nat) : list nat :=
  match l with
  | [] => [i]
  | j :: l' =>
      if Rle_dec (key i) (key j) then i :: l else j :: insert_index key i l'
  end.

Definition stable_argsort (a : list R) : list nat :=
  fold_right (insert_index (fun i => nth i a 0)) [] (seq 0 (length a)).

(** The least integer not below [x]. *)
Definition Rceil (x : R) : Z := (1 - up (- x))%Z.

(** [np.arange(start, stop, step)] in exact arithmetic:
    [ceil((stop - start)/step)] samples [start + i*step].  (numpy takes the
    quotient and its ceiling in binary64, where the count can come out one
    off; the properties stated of the grids built with it do not rest on
    the count beyond its first samples.) *)
Definition arange (start stop step : R) : list R :=
  map (fun i => start + INR i * step)
      (seq 0 (Z.to_nat (Rceil ((stop - start) / step)))).

(** [np.linspace(start, stop, num)]. *)
Definition linspace (start stop : R) (num : nat) : list R :=
  match num with
  | O => []
  | 1%nat => [start]
  | _ =>
      let step := (stop - start) / INR (num - 1) in
      map (fun i => INR i * step + start) (seq 0 (num - 1)) ++ [stop]
  end.

(** [np.meshgrid(x, y)]. *)
Definition meshgrid (x y : list R) : list (list R) * list (list R) :=
  (map (fun _ => x) y, map (fun yi => map (fun _ => yi) x) y).

End Rnp.

(* ================================================================== *)
(** * [Extract.get_psf_curve_of_growth] *)
(* ================================================================== *)

Module Growth.

Import Stdlib.Reals.Reals.
Import Np Rnp.
Open Scope R_scope.

(** [r = np.sqrt(psf[1]**2 + psf[2]**2).ravel()]. *)
Definition radii (psf : psf_image) : list R :=
  ravel (map2 (map2 (fun x y => sqrt (x * x + y * y))) (xgrid psf) (ygrid psf)).

(** [np.cumsum(v) / np.sum(v)]. *)
Definition growth_curve (v : list R) : list R :=
  map (fun c => c / Rsum v) (cumsum v).

Section Sorting.

(** numpy's [np.argsort]. *)
Variable np_argsort : list R -> list nat.

(** [r[inds]] with [inds = np.argsort(r)]. *)
Definition sorted_radii (psf : psf_image) : list R :=
  take (radii psf) (np_argsort (radii psf)).

(** [sel = r[inds] <= maxr]. *)
Definition within (psf : psf_image) (maxr : R) : list bool :=
  map (fun v => Rleb v maxr) (sorted_radii psf).

(** [psf[0].ravel()[inds][sel]]: the intensities inside the window, by
    increasing radius. *)
Definition window_intensity (psf : psf_image) (maxr : R) : list R :=
  compress (within psf maxr)
           (take (ravel (intensity psf)) (np_argsort (radii psf))).

(** The radii returned, [r[inds][sel]]. *)
Definition window_radii (psf : psf_image) (maxr : R) : list R :=
  compress (within psf maxr) (sorted_radii psf).

(** The radii and the curve of growth; [None] where [psf[1].max()] raises
    (an empty grid). *)
Definition get_psf_curve_of_growth (psf : psf_image)
  : option (list R * list R) :=
  match amax (ravel (xgrid psf)) with
  | None => None
  | Some maxr =>
      Some (window_radii psf maxr, growth_curve (window_intensity psf maxr))
  end.

End Sorting.

(** A grid of one row and two samples, at x = 0 and x = 1 on the line
    y = 0, with intensities 1 and 3. *)
Definition two_samples : psf_image :=
  mkpsf [[1; 3]] [[0; 1]] [[0; 0]].

End Growth.

(* ================================================================== *)
(** * [Extract.get_psf_curve_of_growth] on binary64 numbers *)
(* ================================================================== *)

Module Growth64.

Import Np Collapse.
Open Scope float_scope.

(** A PSF image is an array of three layers, as [make_collapsed_image] and
    the builders return it: [psf[0]] is [layer0] (the intensities),
    [psf[1]] is [layer1] (the x grid) and [psf[2]] is [layer2] (the y
    grid). *)
Abbreviation psf_array := zarray.

(** [np.maximum] as the reduction [A.max()] applies it: the running value
    is kept when it is NaN or not below the next entry. *)
Definition fmax (a b : float) : float :=
  if is_nan a || (b <=? a) then a else b.

(** [A.max()]; it raises on an empty array. *)
Definition amax (l : vec) : option float :=
  match l with
  | [] => None
  | x :: l' => Some (fold_left fmax l' x)
  end.

(** [a[inds]] for an array of indices. *)
Definition take (a : vec) (inds : list nat) : vec :=
  map (fun i => nth i a nan) inds.

(** [r = np.sqrt(psf[1]**2 + psf[2]**2).ravel()]. *)
Definition radii (psf : psf_array) : vec :=
  concat (map2 (map2 (fun x y => sqrt (x * x + y * y)))
               (layer1 psf) (layer2 psf)).

(** [np.cumsum(v) / np.sum(v)]: the running sums, accumulated in order,
    over the pairwise sum. *)
Definition growth_curve (v : vec) : vec :=
  map (fun c => c / sum v) (cumsum v).

(** An argsort of NaN-free data: insertion, which keeps equal entries in
    index order. *)
Fixpoint insert_index (key : nat -> float) (i : nat) (l : list nat)
  : list nat :=
  match l with
  | [] => [i]
  | j :: l' =>
      if key i <=? key j then i :: l else j :: insert_index key i l'
  end.

Definition stable_argsort (a : vec) : list nat :=
  fold_right (insert_index (fun i => nth i a nan)) [] (seq 0 (length a)).

Section Sorting.

(** numpy's [np.argsort]. *)
Variable np_argsort : vec -> list nat.

(** [r[inds]] with [inds = np.argsort(r)]. *)
Definition sorted_radii (psf : psf_array) : vec :=
  take (radii psf) (np_argsort (radii psf)).

(** [sel = r[inds] <= maxr]. *)
Definition within (psf : psf_array) (maxr : float) : list bool :=
  map (fun v => v <=? maxr) (sorted_radii psf).

(** [psf[0].ravel()[inds][sel]]. *)
Definition window_intensity (psf : psf_array) (maxr : float) : vec :=
  compress (within psf maxr)
           (take (concat (layer0 psf)) (np_argsort (radii psf))).

(** [r[inds][sel]]. *)
Definition window_radii (psf : psf_array) (maxr : float) : vec :=
  compress (within psf maxr) (sorted_radii psf).

(** The radii and the curve of growth; [None] where [psf[1].max()] raises
    (an empty grid). *)
Definition get_psf_curve_of_growth (psf : psf_array) : option (vec * vec) :=
  match amax (concat (layer1 psf)) with
  | None => None
  | Some maxr =>
      Some (window_radii psf maxr, growth_curve (window_intensity psf maxr))
  end.

End Sorting.

(** A flat image: intensity 0.1 at each of the five by five samples of the
    grid [x, y = -2, -1, 0, 1, 2]. *)
Definition flat_image : psf_array :=
  let x := [-2; -1; 0; 1; 2] in
  mkzarray (repeat (repeat 0.1 5) 5)
           (repeat x 5)
           (map (fun v => repeat v 5) x).

End Growth64.

(* ================================================================== *)
(** * The PSF builders: [tophat_psf], [gaussian_psf], [moffat_psf] *)
(* ================================================================== *)

Module Psf.

Import Stdlib.Reals.Reals.
Import Np Rnp Geometry.
Open Scope R_scope.

(** The sampling grid the three builders share:
    [x = y = np.arange(-boxsize/2, boxsize/2 + scale, scale)], then
    [np.meshgrid(x, y)]. *)
Definition psf_grid (boxsize scale : R) : list (list R) * list (list R) :=
  let xl := 0 - boxsize / 2 in
  let xh := 0 + boxsize / 2 + scale in
  let yl := 0 - boxsize / 2 in
  let yh := 0 + boxsize / 2 + scale in
  meshgrid (arange xl xh scale) (arange yl yh scale).

(** [zarray[0] /= zarray[0].sum()]. *)
Definition normalise (z : psf_image) : psf_image :=
  let s := Rsum2 (intensity z) in
  mkpsf (map (map (fun v => v / s)) (intensity z)) (xgrid z) (ygrid z).

(** astropy's [Gaussian2D.evaluate] with its default amplitude 1 and mean
    (0, 0). *)
Definition Gaussian2D_evaluate (x_stddev y_stddev theta x y : R) : R :=
  let cost2 := cos theta * cos theta in
  let sint2 := sin theta * sin theta in
  let sin2t := sin (2 * theta) in
  let xstd2 := x_stddev * x_stddev in
  let ystd2 := y_stddev * y_stddev in
  let xdiff := x - 0 in
  let ydiff := y - 0 in
  let a := 1 / 2 * (cost2 / xstd2 + sint2 / ystd2) in
  let b := 1 / 2 * (sin2t / xstd2 - sin2t / ystd2) in
  let c := 1 / 2 * (sint2 / xstd2 + cost2 / ystd2) in
  1 * exp (- (a * (xdiff * xdiff) + b * xdiff * ydiff + c * (ydiff * ydiff))).

(** astropy's [Moffat2D.evaluate] with its default amplitude 1 and centre
    (0, 0). *)
Definition Moffat2D_evaluate (gamma alpha x y : R) : R :=
  let rr_gg := ((x - 0) * (x - 0) + (y - 0) * (y - 0)) / (gamma * gamma) in
  1 * Rpower (1 + rr_gg) (- alpha).

Section Collaborators.

(** [scipy.interpolate.griddata(points, values, xi, method='linear')] at one
    point [xi]; [None] is the NaN it gives outside the convex hull of the
    points. *)
Variable griddata : list (R * R) -> list R -> R * R -> option R.

(** The model [M] of [gaussian_psf], a function of its standard deviations
    and angle, and the model [M] of [moffat_psf], a function of [gamma] and
    [alpha]. *)
Variable Gaussian2D : R -> R -> R -> R -> R -> R.
Variable Moffat2D : R -> R -> R -> R -> R.

(** [tophat_psf] up to its last assignment. *)
Definition tophat_raw (radius boxsize scale fibradius : R) : psf_image :=
  let (xg, yg) := psf_grid boxsize scale in
  let t := linspace 0 (PI * 2) 360 in
  let r := arange (radius - fibradius) (radius + fibradius * 7 / 6)
                  (1 / 6 * fibradius) in
  let xr := flat_map (fun ri => map (fun ti => cos ti * ri) t) r in
  let yr := flat_map (fun ri => map (fun ti => sin ti * ri) t) r in
  let zr :=
    flat_map
      (fun ri =>
         map (fun _ => intersection_area ri radius fibradius * 1
                       / (PI * (fibradius * fibradius))) t) r in
  let psf :=
    map2 (map2 (fun x y =>
                  match griddata (combine xr yr) zr (x, y) with
                  | Some v => v
                  | None => 0
                  end)) xg yg in
  mkpsf psf xg yg.

Definition tophat_psf (radius boxsize scale fibradius : R) : psf_image :=
  normalise (tophat_raw radius boxsize scale fibradius).

(** [gaussian_psf] up to its last assignment. *)
Definition gaussian_raw (xstd ystd theta boxsize scale : R) : psf_image :=
  let M := Gaussian2D xstd ystd theta in
  let (xg, yg) := psf_grid boxsize scale in
  mkpsf (map2 (map2 M) xg yg) xg yg.

Definition gaussian_psf (xstd ystd theta boxsize scale : R) : psf_image :=
  normalise (gaussian_raw xstd ystd theta boxsize scale).

(** [moffat_psf] up to its last assignment. *)
Definition moffat_raw (seeing boxsize scale alpha : R) : psf_image :=
  let gamma := 1 / 2 * seeing / sqrt (Rpower 2 (1 / alpha) - 1) in
  let M := Moffat2D gamma alpha in
  let (xg, yg) := psf_grid boxsize scale in
  mkpsf (map2 (map2 M) xg yg) xg yg.

Definition moffat_psf (seeing boxsize scale alpha : R) : psf_image :=
  normalise (moffat_raw seeing boxsize scale alpha).

End Collaborators.

End Psf.

(* ================================================================== *)
(** * [Extract.build_weights] *)
(* ================================================================== *)

Module Weights.

Import Stdlib.Reals.Reals.
Import Np Rnp.
Open Scope R_scope.

(** The barycentric coordinates of the point [p] in the triangle of
    vertices [a], [b], [c]. *)
Definition barycentric (a b c p : R * R) : R * R * R :=
  let det := (snd b - snd c) * (fst a - fst c)
             + (fst c - fst b) * (snd a - snd c) in
  let l1 := ((snd b - snd c) * (fst p - fst c)
             + (fst c - fst b) * (snd p - snd c)) / det in
  let l2 := ((snd c - snd a) * (fst p - fst c)
             + (fst a - fst c) * (snd p - snd c)) / det in
  (l1, l2, 1 - l1 - l2).

(** The coordinates of [p] in the simplex [s] of the points [T]. *)
Definition coordinates (T : list (R * R)) (p : R * R) (s : nat * nat * nat)
  : R * R * R :=
  let '(i, j, k) := s in
  barycentric (nth i T (0, 0)) (nth j T (0, 0)) (nth k T (0, 0)) p.

(** [p] lies in the simplex [s]: none of its coordinates is negative. *)
Definition inside (T : list (R * R)) (p : R * R) (s : nat * nat * nat) : bool :=
  let '(l1, l2, l3) := coordinates T p s in
  Rleb 0 l1 && Rleb 0 l2 && Rleb 0 l3.

Section Interpolator.

(** The Delaunay triangulation scipy computes for the points: the simplices
    as triples of point indices. *)
Variable delaunay : list (R * R) -> list (nat * nat * nat).

(** [LinearNDInterpolator(T, values, fill_value=fill_value)] evaluated at
    [p]: linear barycentric interpolation on the simplex that holds [p],
    [fill_value] where no simplex does. *)
Definition LinearNDInterpolator (T : list (R * R)) (values : list R)
           (fill_value : R) (p : R * R) : R :=
  match find (inside T p) (delaunay T) with
  | Some (i, j, k) =>
      let '(l1, l2, l3) := coordinates T p (i, j, k) in
      l1 * nth i values 0 + l2 * nth j values 0 + l3 * nth k values 0
  | None => fill_value
  end.

(** The points [T] of the interpolator: [psf[1].ravel()] and
    [psf[2].ravel()] side by side. *)
Definition sample_points (psf : psf_image) : list (R * R) :=
  combine (ravel (xgrid psf)) (ravel (ygrid psf)).

(** [scale = np.abs(psf[1][0, 1] - psf[1][0, 0])]. *)
Definition pixel_scale (psf : psf_image) : R :=
  Rabs (nth 1 (nth 0 (xgrid psf) []) 0 - nth 0 (nth 0 (xgrid psf) []) 0).

(** The position of fiber [(x, y)] at wavelength index [i]:
    [(ifux - self.ADRx[i] - xc, ifuy - self.ADRy[i] - yc)]. *)
Definition fiber_position (ADRx ADRy : list R) (xc yc x y : R) (i : nat)
  : R * R :=
  (x - nth i ADRx 0 - xc, y - nth i ADRy 0 - yc).

(** [build_weights]: one row per fiber, one column per wavelength of
    [self.wave]. *)
Definition build_weights (wave ADRx ADRy : list R) (xc yc : R)
           (ifux ifuy : list R) (psf : psf_image) : list (list R) :=
  let T := sample_points psf in
  let I := LinearNDInterpolator T (ravel (intensity psf)) 0 in
  let scale := pixel_scale psf in
  let area := 3 / 4 * (3 / 4) * PI in
  map2 (fun x y =>
          map (fun i =>
                 I (fiber_position ADRx ADRy xc yc x y i) * area
                 / (scale * scale))
              (seq 0 (length wave)))
       ifux ifuy.

End Interpolator.

End Weights.

(* ================================================================== *)
(** * Classes of binary64 numbers *)
(* ================================================================== *)

Module Binary64.

(** A binary64 number that is a zero of either sign, or NaN. *)
Definition zero_or_nan (x : float) : Prop :=
  match Prim2SF x with
  | S754_zero _ | S754_nan => True
  | _ => False
  end.

End Binary64.

(* ================================================================== *)
(** * The session: [Extract.get_wave] and sample data *)
(* ================================================================== *)

Module Session.

Import Np Collapse.
Open Scope float_scope.

(** [get_wave]: the implicit wavelength solution,
    [np.linspace(3470, 5540, 1036)]. *)
Definition get_wave : vec := linspace 3470 5540 1036.

(** The array a call on a two-fiber, five-wavelength cube returns for a box
    of side 0.5 sampled every 0.25, with collaborators that hand the grid
    back. *)
Definition small_image : zarray :=
  Eval vm_compute in
    match
      snd (make_collapsed_image
             (fun chunk _ => map (fun _ => Some 1) chunk) (fun l => l)
             (fun _ _ xg _ _ => Some xg) unit (fun _ => tt) (fun g _ => g)
             [3400; 3500; 3600; 3700; 5600]
             [0; 0; 0; 0; 0] [0; 0; 0; 0; 0]
             0 0 [0; 1] [0; 1]
             (mkarray 2 5 [[1; 2; 3; 4; 5]; [1; 2; 3; 4; 5]])
             (mkarray 2 5 [[1; 1; 1; 1; 1]; [1; 1; 1; 1; 1]])
             0.25 1.8 0.5 (3470, 5540) 2 false linear)
    with
    | Some z => z
    | None => mkzarray [] [] []
    end.

End Session.

(* ================================================================== *)
(** * The width of the Moffat profile *)
(* ================================================================== *)

Module PsfParts.

Import Stdlib.Reals.Reals.
Import Np Rnp Psf.
Open Scope R_scope.

(** The width [M.gamma.value] that [moffat_psf] derives from the seeing. *)
Definition moffat_gamma (seeing alpha : R) : R :=
  1 / 2 * seeing / sqrt (Rpower 2 (1 / alpha) - 1).

End PsfParts.

(* ================================================================== *)
(** * The extraction context: [__init__], [get_wave], [get_ADR],
      [set_dither_pattern] *)
(* ================================================================== *)

Module Context.

Import Stdlib.Reals.Reals.
Import Rnp.
Open Scope R_scope.

(** The fields of an [Extract] object ([self.log] aside). *)
Record extract := mkextract {
  wave : list R;
  ADRx : list R;
  ADRy : list R;
  dither_pattern : list (R * R)
}.

(** [get_wave] in exact arithmetic. *)
Definition get_wave : list R := linspace 3470 5540 1036.

(** [np.polyval(p, x)]: Horner's rule, highest degree first. *)
Definition polyval (p : list R) (x : R) : R :=
  fold_left (fun y pv => y * x + pv) p 0.

(** [np.deg2rad]. *)
Definition deg2rad (angle : R) : R := angle * (PI / 180).

(** The default of [set_dither_pattern]. *)
Definition default_dither_pattern : list (R * R) :=
  [(0, 0); (1.27, -0.73); (1.27, 0.73)].

Definition set_dither_pattern (self : extract)
           (pattern : option (list (R * R))) : extract :=
  match pattern with
  | None =>
      mkextract (wave self) (ADRx self) (ADRy self) default_dither_pattern
  | Some p => mkextract (wave self) (ADRx self) (ADRy self) p
  end.

Section Fit.

(** [np.polyfit(x, y, deg)]: the coefficients of the least-squares
    polynomial, highest degree first. *)
Variable polyfit : list R -> list R -> nat -> list R.

(** The refraction curve [np.polyval(np.polyfit(wADR, ADR, 3), self.wave)]
    of [get_ADR]. *)
Definition ADR_curve (w : list R) : list R :=
  let wADR := [3500; 4000; 4500; 5000; 5500] in
  let ADR := [-0.74; -0.4; -0.08; 0.08; 0.20] in
  map (polyval (polyfit wADR ADR 3)) w.

Definition get_ADR (self : extract) (angle : R) : extract :=
  let ADR := ADR_curve (wave self) in
  mkextract (wave self)
            (map (fun a => cos (deg2rad angle) * a) ADR)
            (map (fun a => sin (deg2rad angle) * a) ADR)
            (dither_pattern self).

(** [Extract(wave)]: the grid given or the default one, the refraction
    curve at angle 0, the default dither pattern. *)
Definition init (w : option (list R)) : extract :=
  let self :=
    mkextract (match w with Some l => l | None => get_wave end) [] [] [] in
  let self := get_ADR self 0 in
  set_dither_pattern self None.

End Fit.

End Context.

(* ================================================================== *)
(** * Properties of the array primitives *)
(* ================================================================== *)

Module NpFacts.

Import Np.
Open Scope float_scope.

Lemma length_map2 {A B C : Type} (f : A -> B -> C) l1 l2 :
  length (map2 f l1 l2) = Nat.min (length l1) (length l2).
Proof.
  revert l2; induction l1 as [|x l1 IH]; intros [|y l2]; simpl; auto.
Qed.

Lemma nth_map2 {A B C : Type} (f : A -> B -> C) l1 l2 j d1 d2 d :
  j < length l1 -> j < length l2 ->
  nth j (map2 f l1 l2) d = f (nth j l1 d1) (nth j l2 d2).
Proof.
  revert l2 j; induction l1 as [|x l1 IH]; intros [|y l2] [|j]; simpl;
    intros H1 H2; try lia; auto.
  apply IH; lia.
Qed.

Lemma map2_Forall {A B C : Type} (f : A -> B -> C) (P : C -> Prop) l1 l2 :
  (forall x y, P (f x y)) -> Forall P (map2 f l1 l2).
Proof.
  intros Hf. revert l2; induction l1 as [|x l1 IH]; intros [|y l2]; simpl;
    constructor; auto.
Qed.

Lemma nth_map_lt {A B : Type} (f : A -> B) (l : list A) j d d' :
  j < length l -> nth j (map f l) d' = f (nth j l d).
Proof.
  revert j; induction l as [|x l IH]; intros [|j] H; simpl in *; try lia; auto.
  apply IH; lia.
Qed.

Lemma nth_repeat_lt {A : Type} (x d : A) n j : j < n -> nth j (repeat x n) d = x.
Proof.
  revert j; induction n as [|n IH]; intros [|j] H; simpl; try lia; auto.
  apply IH; lia.
Qed.

(** One channel of a sum over rows is the sum of that channel's entries. *)
Lemma nth_fold_rows (b : nat) (rs : list vec) :
  Forall (fun r => length r = b) rs ->
  forall acc j, length acc = b -> j < b ->
  nth j (fold_left (map2 add) rs acc) nan
  = fold_left (fun s r => s + nth j r nan) rs (nth j acc nan).
Proof.
  induction 1 as [|r rs Hr Hrs IH]; intros acc j Hacc Hj; simpl.
  - reflexivity.
  - rewrite IH by (rewrite ?length_map2; lia).
    f_equal. apply nth_map2; lia.
Qed.

(** Folds over index ranges agree when their bodies agree on the range. *)
Lemma fold_seq_ext {S : Type} (f g : S -> nat -> S) (k n : nat) (s0 : S) :
  (forall s i, k <= i < k + n -> f s i = g s i) ->
  fold_left f (seq k n) s0 = fold_left g (seq k n) s0.
Proof.
  revert k s0; induction n as [|n IH]; intros k s0 H; simpl.
  - reflexivity.
  - rewrite H by lia. apply IH. intros s i Hi. apply H; lia.
Qed.

(** A fold over the rows is a fold over the row indices. *)
Lemma fold_rows_seq (j : nat) (rs : list vec) (s0 : float) :
  fold_left (fun s r => s + nth j r nan) rs s0
  = fold_left (fun s i => s + nth j (nth i rs []) nan) (seq 0 (length rs)) s0.
Proof.
  induction rs as [|r rs IH] using rev_ind.
  - reflexivity.
  - rewrite length_app; simpl length.
    replace (length rs + 1)%nat with (S (length rs)) by lia.
    rewrite seq_S, !fold_left_app. cbn [fold_left Nat.add].
    rewrite app_nth2, Nat.sub_diag by lia. cbn [nth].
    f_equal. etransitivity; [exact IH|].
    apply fold_seq_ext. intros s i Hi.
    rewrite app_nth1 by lia. reflexivity.
Qed.

(** Entry [j] of the sum by rows is the sum of column [j] in row order. *)
Lemma nth_sum_axis0_by_rows (A : ndarray) (j : nat) :
  well_shaped A -> j < ncol A ->
  nth j (sum_axis0_by_rows A) nan = fsum (nrow A) (fun i => get A i j).
Proof.
  intros [Hlen Hrows] Hj. unfold sum_axis0_by_rows, fsum, get.
  rewrite (nth_fold_rows (ncol A)); auto using repeat_length.
  rewrite nth_repeat_lt, fold_rows_seq, Hlen by assumption. reflexivity.
Qed.

Lemma length_sum_axis0_by_rows (A : ndarray) :
  well_shaped A -> length (sum_axis0_by_rows A) = ncol A.
Proof.
  intros [_ Hrows]. unfold sum_axis0_by_rows.
  assert (H : forall acc, length acc = ncol A ->
            length (fold_left (map2 add) (rows A) acc) = ncol A).
  { induction Hrows as [|r rs Hr _ IH]; intros acc Hacc; simpl; auto.
    apply IH. rewrite length_map2; lia. }
  apply H, repeat_length.
Qed.

Lemma fsum_ext (n : nat) (f g : nat -> float) :
  (forall i, i < n -> f i = g i) -> fsum n f = fsum n g.
Proof.
  intros H. apply fold_seq_ext. intros s i Hi. rewrite H by lia. reflexivity.
Qed.

Lemma mul2_shape a b A B :
  has_shape a b A -> has_shape a b B -> has_shape a b (mul2 A B).
Proof.
  intros (Ha & Hb & Hl & Hr) (Ha' & Hb' & Hl' & Hr').
  repeat split; cbn [mul2 nrow ncol rows]; auto.
  - rewrite length_map2; lia.
  - rewrite Hb, <- Hb' in Hr. rewrite Hb. clear Hl Hl' Hb.
    revert Hr Hr'. rewrite <- Hb'. generalize (rows A) (rows B) (ncol B).
    induction l as [|x l IH]; intros [|y l'] n H1 H2; simpl; auto.
    inversion H1; inversion H2; subst. constructor; [|now apply IH].
    rewrite length_map2; lia.
Qed.

Lemma square2_shape a b A : has_shape a b A -> has_shape a b (square2 A).
Proof.
  intros (Ha & Hb & Hl & Hr). repeat split; simpl; auto.
  - now rewrite length_map.
  - apply Forall_map. eapply Forall_impl; [|exact Hr].
    simpl; intros r Hlen. now rewrite length_map.
Qed.

Lemma nth_row_length a b A i :
  has_shape a b A -> i < a -> length (nth i (rows A) []) = b.
Proof.
  intros (Ha & Hb & Hl & Hr) Hi. rewrite Forall_forall in Hr.
  rewrite <- Hb. apply Hr, nth_In. lia.
Qed.

Lemma get_mul2 a b A B i j :
  has_shape a b A -> has_shape a b B -> i < a -> j < b ->
  get (mul2 A B) i j = get A i j * get B i j.
Proof.
  intros HA HB Hi Hj. unfold get, mul2; simpl.
  pose proof (nth_row_length _ _ _ _ HA Hi).
  pose proof (nth_row_length _ _ _ _ HB Hi).
  destruct HA as (Ha & _ & Hl & _), HB as (Ha' & _ & Hl' & _).
  rewrite (nth_map2 _ _ _ _ [] [] []) by lia.
  apply nth_map2; lia.
Qed.

Lemma get_square2 a b A i j :
  has_shape a b A -> i < a -> j < b ->
  get (square2 A) i j = get A i j * get A i j.
Proof.
  intros HA Hi Hj. unfold get, square2; simpl.
  pose proof (nth_row_length _ _ _ _ HA Hi).
  destruct HA as (Ha & _ & Hl & _).
  change [] with (map (fun x => x * x) []) at 1.
  rewrite map_nth.
  change nan with ((fun x => x * x) nan) at 1.
  now rewrite map_nth.
Qed.

(** ** Sums in an order numpy may follow *)

Lemma summation_fold_left (l l0 : vec) (s : float) :
  summation l0 s -> summation (l0 ++ l) (fold_left add l s).
Proof.
  revert l0 s; induction l as [|x l IH]; intros l0 s H; simpl.
  - now rewrite app_nil_r.
  - replace (l0 ++ x :: l) with ((l0 ++ [x]) ++ l)
      by (rewrite <- app_assoc; reflexivity).
    apply IH. apply summation_app; [exact H | constructor].
Qed.

(** Adding the entries in order from 0 is a summation. *)
Lemma summation_sequential (l : vec) : summation l (fold_left add l 0).
Proof. apply (summation_fold_left l [] 0). constructor. Qed.

Lemma fold_left_add_map {A : Type} (f : A -> float) (l : list A) (s : float) :
  fold_left (fun s x => s + f x) l s = fold_left add (map f l) s.
Proof. revert s; induction l as [|x l IH]; intros s; simpl; auto. Qed.

Lemma fsum_summation (n : nat) (f : nat -> float) :
  summation (map f (seq 0 n)) (fsum n f).
Proof. unfold fsum. rewrite fold_left_add_map. apply summation_sequential. Qed.

Lemma map_nth_seq {A B : Type} (f : A -> B) (l : list A) (d : A) :
  map f l = map (fun i => f (nth i l d)) (seq 0 (length l)).
Proof.
  induction l as [|x l IH]; simpl; [reflexivity|].
  f_equal. rewrite IH, <- seq_shift, map_map. reflexivity.
Qed.

(** Column [j] of an array of [a] rows, entry by entry. *)
Lemma column_get (a b : nat) (A : ndarray) (j : nat) :
  has_shape a b A -> column A j = map (fun i => get A i j) (seq 0 a).
Proof.
  intros (Ha & _ & Hl & _). unfold column, get.
  rewrite (map_nth_seq _ (rows A) []). now rewrite Hl, Ha.
Qed.

Lemma snoc_partial_sums (ls : list vec) (r blk : vec) :
  Forall2 summation ls r -> length blk = length r ->
  Forall2 summation (map2 (fun l b => l ++ [b]) ls blk) (map2 add r blk).
Proof.
  intros H; revert blk; induction H as [|l s ls r Hl Hls IH];
    intros [|b blk] Hlen; simpl in *; try discriminate; constructor.
  - apply summation_app; [exact Hl | constructor].
  - apply IH. lia.
Qed.

Lemma concat_snoc (ls : list vec) (blk : vec) :
  length ls = length blk ->
  Permutation (concat (map2 (fun l b => l ++ [b]) ls blk)) (concat ls ++ blk).
Proof.
  revert blk; induction ls as [|l ls IH]; intros [|b blk] Hlen;
    simpl in *; try discriminate; [constructor|].
  rewrite <- !app_assoc. apply Permutation_app_head. simpl.
  etransitivity; [|apply Permutation_middle].
  constructor. apply IH. lia.
Qed.

Lemma add_blocks_summation (k : nat) :
  forall (r l : vec) (ls : list vec),
  Forall2 summation ls r -> length r = 8%nat -> (8 * k <= length l)%nat ->
  exists ls',
    Forall2 summation ls' (fst (add_blocks k r l)) /\
    length (fst (add_blocks k r l)) = 8%nat /\
    Permutation (concat ls' ++ snd (add_blocks k r l)) (concat ls ++ l).
Proof.
  induction k as [|k IH]; intros r l ls Hls Hr Hl; simpl.
  - exists ls. auto.
  - assert (Hblk : length (firstn 8 l) = 8%nat) by (rewrite length_firstn; lia).
    destruct (IH (map2 add r (firstn 8 l)) (skipn 8 l)
                 (map2 (fun l b => l ++ [b]) ls (firstn 8 l)))
      as (ls' & H1 & H2 & H3).
    + apply snoc_partial_sums; [exact Hls | lia].
    + rewrite length_map2. lia.
    + rewrite length_skipn. lia.
    + exists ls'. split; [exact H1|]. split; [exact H2|].
      etransitivity; [exact H3|].
      rewrite <- (firstn_skipn 8 l) at 3. rewrite app_assoc.
      apply Permutation_app_tail, concat_snoc.
      apply Forall2_length in Hls. lia.
Qed.

Lemma combine8_summation (ls : list vec) (r : vec) :
  Forall2 summation ls r -> length r = 8%nat ->
  summation (concat ls) (combine8 r).
Proof.
  intros H Hr.
  do 8 (destruct H as [|? ? ? ? ? H]; [discriminate|]).
  destruct H; [|simpl in Hr; lia].
  simpl. rewrite app_nil_r.
  match goal with
  | |- summation (?a ++ ?b ++ ?c ++ ?d ++ ?e ++ ?f ++ ?g ++ ?h) _ =>
      replace (a ++ b ++ c ++ d ++ e ++ f ++ g ++ h)
        with (((a ++ b) ++ (c ++ d)) ++ ((e ++ f) ++ (g ++ h)))
        by (rewrite <- !app_assoc; reflexivity)
  end.
  repeat apply summation_app; assumption.
Qed.

Lemma singletons_summation (r : vec) :
  Forall2 summation (map (fun x => [x]) r) r.
Proof. induction r; simpl; constructor; auto. constructor. Qed.

Lemma concat_singletons (r : vec) : concat (map (fun x => [x]) r) = r.
Proof. induction r as [|x r IH]; simpl; [reflexivity|]. now rewrite IH. Qed.

Lemma pairwise_sum_rec_summation (fuel : nat) :
  forall l : vec, length l <= fuel -> summation l (pairwise_sum_rec fuel l).
Proof.
  induction fuel as [|fuel IH]; intros l Hl.
  - destruct l; [|simpl in Hl; lia]. simpl. constructor.
  - cbn [pairwise_sum_rec].
    destruct (Nat.ltb_spec (length l) 8) as [H8|H8];
      [apply summation_sequential|].
    destruct (Nat.leb_spec (length l) 128) as [H128|H128].
    + pose proof (Nat.div_mod_eq (length l) 8) as Hdiv.
      destruct (add_blocks_summation (length l / 8 - 1) (firstn 8 l)
                  (skipn 8 l) (map (fun x => [x]) (firstn 8 l)))
        as (ls' & H1 & H2 & H3).
      * apply singletons_summation.
      * rewrite length_firstn. lia.
      * rewrite length_skipn. lia.
      * destruct (add_blocks (length l / 8 - 1) (firstn 8 l) (skipn 8 l))
          as [r rest]. cbn [fst snd] in *.
        rewrite concat_singletons, firstn_skipn in H3.
        apply (summation_perm _ _ _ H3).
        apply summation_fold_left, combine8_summation; assumption.
    + set (n2 := (length l / 2 - (length l / 2) mod 8)%nat).
      pose proof (Nat.div_mod_eq (length l) 2) as Hdiv.
      pose proof (Nat.mod_upper_bound (length l) 2 ltac:(lia)) as Hm2.
      pose proof (Nat.mod_upper_bound (length l / 2) 8 ltac:(lia)) as Hm8.
      rewrite <- (firstn_skipn n2 l) at 1.
      apply summation_app; apply IH.
      * rewrite length_firstn. lia.
      * rewrite length_skipn. lia.
Qed.

(** numpy's pairwise sum is a summation. *)
Lemma pairwise_sum_summation (l : vec) : summation l (pairwise_sum l).
Proof. apply pairwise_sum_rec_summation. lia. Qed.

Lemma sum_summation (l : vec) : summation l (sum l).
Proof.
  unfold sum. apply (summation_app [] l); [constructor|].
  apply pairwise_sum_summation.
Qed.

(** The two orders of addition are reductions. *)
Lemma sum_axis0_by_rows_spec : axis0_sum sum_axis0_by_rows.
Proof.
  intros A HA. split; [now apply length_sum_axis0_by_rows|].
  intros j Hj. rewrite nth_sum_axis0_by_rows by assumption.
  rewrite (column_get (nrow A) (ncol A)) by (repeat split; apply HA).
  apply fsum_summation.
Qed.

Lemma sum_axis0_contiguous_spec : axis0_sum sum_axis0_contiguous.
Proof.
  intros A HA. unfold sum_axis0_contiguous.
  split; [now rewrite length_map, length_seq|].
  intros j Hj.
  rewrite (nth_map_lt _ _ _ 0%nat) by (rewrite length_seq; exact Hj).
  rewrite seq_nth by exact Hj. apply sum_summation.
Qed.

(** The two orders give different numbers: a column of twelve entries,
    [1e16] followed by eleven ones, sums to [1e16] by rows, every one being
    lost, and to [1e16 + 8] pairwise. *)
Example orders_of_addition_differ :
  let A := mkarray 12 1 ([1e16] :: repeat [1] 11) in
  sum_axis0_by_rows A = [1e16] /\
  sum_axis0_contiguous A = [10000000000000008].
Proof. vm_compute. split; reflexivity. Qed.

End NpFacts.

(* ================================================================== *)
(** * Properties of [get_spectrum] *)
(* ================================================================== *)

Module SpectrumFacts.

Import Np Spectrum NpFacts.
Open Scope float_scope.

Lemma nth_putmask (v : vec) (sel : list bool) (x d : float) (j : nat) :
  j < length v -> j < length sel ->
  nth j (putmask v sel x) d = if nth j sel false then x else nth j v d.
Proof.
  intros Hv Hs. unfold putmask.
  now rewrite (nth_map2 _ _ _ _ d false d).
Qed.

Lemma map_seq_ext {B : Type} (f g : nat -> B) (n : nat) :
  (forall i, i < n -> f i = g i) -> map f (seq 0 n) = map g (seq 0 n).
Proof.
  intros H. apply map_ext_in. intros i Hi. apply in_seq in Hi. apply H. lia.
Qed.

(** The columns of the three arrays handed to [np.sum]. *)
Lemma column_flux a b data mask weights j :
  has_shape a b data -> has_shape a b mask -> has_shape a b weights ->
  j < b ->
  column (mul2 (mul2 data mask) weights) j
  = map (fun i => get data i j * get mask i j * get weights i j) (seq 0 a).
Proof.
  intros Hd Hm Hw Hj.
  pose proof (mul2_shape _ _ _ _ Hd Hm) as Hdm.
  rewrite (column_get a b) by now apply mul2_shape.
  apply map_seq_ext. intros i Hi.
  rewrite (get_mul2 a b), (get_mul2 a b); auto.
Qed.

Lemma column_noise a b error mask weights j :
  has_shape a b error -> has_shape a b mask -> has_shape a b weights ->
  j < b ->
  column (mul2 (mul2 (square2 error) mask) weights) j
  = map (fun i => get error i j * get error i j * get mask i j
                  * get weights i j) (seq 0 a).
Proof.
  intros He Hm Hw Hj.
  pose proof (square2_shape _ _ _ He) as He2.
  pose proof (mul2_shape _ _ _ _ He2 Hm) as Hem.
  rewrite (column_get a b) by now apply mul2_shape.
  apply map_seq_ext. intros i Hi.
  rewrite (get_mul2 a b), (get_mul2 a b), (get_square2 a b); auto.
Qed.

Lemma column_weight a b mask weights j :
  has_shape a b mask -> has_shape a b weights -> j < b ->
  column (mul2 mask (square2 weights)) j
  = map (fun i => get mask i j * (get weights i j * get weights i j))
        (seq 0 a).
Proof.
  intros Hm Hw Hj.
  pose proof (square2_shape _ _ _ Hw) as Hw2.
  rewrite (column_get a b) by now apply mul2_shape.
  apply map_seq_ext. intros i Hi.
  rewrite (get_mul2 a b), (get_square2 a b); auto.
Qed.

Section Reductions.

Variable sum_flux : ndarray -> vec.
Variable sum_noise : ndarray -> vec.
Variable sum_weight : ndarray -> vec.

Hypothesis sum_flux_spec : axis0_sum sum_flux.
Hypothesis sum_noise_spec : axis0_sum sum_noise.
Hypothesis sum_weight_spec : axis0_sum sum_weight.

Lemma channel_weight_length a b mask weights :
  has_shape a b mask -> has_shape a b weights ->
  length (channel_weight sum_weight mask weights) = b.
Proof.
  intros Hm Hw. unfold channel_weight.
  pose proof (mul2_shape _ _ _ _ Hm (square2_shape _ _ _ Hw)) as (_ & Hb & Hs).
  destruct (sum_weight_spec _ Hs) as [Hl _]. now rewrite Hl.
Qed.

(** The weight of channel [j] is a sum over the fibers of
    [mask * weight^2]. *)
Lemma channel_weight_nth a b mask weights j :
  has_shape a b mask -> has_shape a b weights -> j < b ->
  summation
    (map (fun i => get mask i j * (get weights i j * get weights i j))
         (seq 0 a))
    (nth j (channel_weight sum_weight mask weights) nan).
Proof.
  intros Hm Hw Hj. unfold channel_weight.
  pose proof (mul2_shape _ _ _ _ Hm (square2_shape _ _ _ Hw)) as (_ & Hb & Hs).
  destruct (sum_weight_spec _ Hs) as [_ Hn].
  rewrite <- (column_weight a b) by assumption.
  apply Hn. lia.
Qed.

Lemma raw_spectrum_length a b data mask weights :
  has_shape a b data -> has_shape a b mask -> has_shape a b weights ->
  length (raw_spectrum sum_flux sum_weight data mask weights) = b.
Proof.
  intros Hd Hm Hw. unfold raw_spectrum, vdiv.
  pose proof (mul2_shape _ _ _ _ (mul2_shape _ _ _ _ Hd Hm) Hw) as (_ & Hb & Hs).
  pose proof (channel_weight_length _ _ _ _ Hm Hw) as Hc.
  unfold channel_weight in Hc.
  destruct (sum_flux_spec _ Hs) as [Hl _].
  rewrite length_map2, Hl, Hc. lia.
Qed.

Lemma raw_spectrum_error_length a b error mask weights :
  has_shape a b error -> has_shape a b mask -> has_shape a b weights ->
  length (raw_spectrum_error sum_noise sum_weight error mask weights) = b.
Proof.
  intros He Hm Hw. unfold raw_spectrum_error, vdiv, vsqrt.
  pose proof (mul2_shape _ _ _ _
                (mul2_shape _ _ _ _ (square2_shape _ _ _ He) Hm) Hw)
    as (_ & Hb & Hs).
  pose proof (channel_weight_length _ _ _ _ Hm Hw) as Hc.
  unfold channel_weight in Hc.
  destruct (sum_noise_spec _ Hs) as [Hl _].
  rewrite length_map2, length_map, Hl, Hc. lia.
Qed.

(** The raw flux of channel [j]: a sum over the fibers of
    [data * mask * weight] divided by the weight of the channel. *)
Lemma raw_spectrum_nth a b data mask weights j :
  has_shape a b data -> has_shape a b mask -> has_shape a b weights ->
  j < b ->
  exists F : float,
    summation
      (map (fun i => get data i j * get mask i j * get weights i j) (seq 0 a))
      F /\
    nth j (raw_spectrum sum_flux sum_weight data mask weights) nan
    = F / nth j (channel_weight sum_weight mask weights) nan.
Proof.
  intros Hd Hm Hw Hj.
  pose proof (channel_weight_length _ _ _ _ Hm Hw) as Hc.
  pose proof (mul2_shape _ _ _ _ (mul2_shape _ _ _ _ Hd Hm) Hw) as (_ & Hb & Hs).
  destruct (sum_flux_spec _ Hs) as [Hl Hn].
  exists (nth j (sum_flux (mul2 (mul2 data mask) weights)) nan). split.
  - rewrite <- (column_flux a b) by assumption. apply Hn. lia.
  - unfold raw_spectrum, vdiv, channel_weight in *.
    apply nth_map2; lia.
Qed.

(** The raw error of channel [j]: the square root of a sum over the fibers
    of [error^2 * mask * weight], divided by the weight of the channel. *)
Lemma raw_spectrum_error_nth a b error mask weights j :
  has_shape a b error -> has_shape a b mask -> has_shape a b weights ->
  j < b ->
  exists N : float,
    summation
      (map (fun i => get error i j * get error i j * get mask i j
                     * get weights i j) (seq 0 a))
      N /\
    nth j (raw_spectrum_error sum_noise sum_weight error mask weights) nan
    = sqrt N / nth j (channel_weight sum_weight mask weights) nan.
Proof.
  intros He Hm Hw Hj.
  pose proof (channel_weight_length _ _ _ _ Hm Hw) as Hc.
  pose proof (mul2_shape _ _ _ _
                (mul2_shape _ _ _ _ (square2_shape _ _ _ He) Hm) Hw)
    as (_ & Hb & Hs).
  destruct (sum_noise_spec _ Hs) as [Hl Hn].
  exists (nth j (sum_noise (mul2 (mul2 (square2 error) mask) weights)) nan).
  split.
  - rewrite <- (column_noise a b) by assumption. apply Hn. lia.
  - unfold raw_spectrum_error, vdiv, vsqrt, channel_weight in *.
    rewrite (nth_map2 _ _ _ _ nan nan nan) by (rewrite ?length_map; lia).
    f_equal. apply nth_map_lt. lia.
Qed.

End Reductions.

(** C1.  On four arrays of one fiber-by-wavelength shape [(a, b)], and
    whatever the order in which numpy adds the entries of a column, the two
    values [get_spectrum] computes before it masks any channel are, at
    every wavelength channel [j], a sum over the fibers of
    [data*mask*weight] divided by a sum over the fibers of [mask*weight^2],
    and the square root of a sum over the fibers of [error^2*mask*weight]
    divided by that same sum of [mask*weight^2]; the products, the
    quotients and the square root are the binary64 ones.  The result of
    [get_spectrum] is these two arrays with the low-weight channels
    overwritten. *)
Theorem get_spectrum_raw_values
        (sum_flux sum_noise sum_weight : ndarray -> vec)
        (a b : nat) (data error mask weights : ndarray) :
  axis0_sum sum_flux -> axis0_sum sum_noise -> axis0_sum sum_weight ->
  has_shape a b data -> has_shape a b error ->
  has_shape a b mask -> has_shape a b weights ->
  let spectrum := raw_spectrum sum_flux sum_weight data mask weights in
  let spectrum_error :=
    raw_spectrum_error sum_noise sum_weight error mask weights in
  let w := channel_weight sum_weight mask weights in
  length spectrum = b /\ length spectrum_error = b /\
  (forall j, j < b ->
     exists F N W : float,
       summation
         (map (fun i => get data i j * get mask i j * get weights i j)
              (seq 0 a)) F /\
       summation
         (map (fun i => get error i j * get error i j * get mask i j
                        * get weights i j) (seq 0 a)) N /\
       summation
         (map (fun i => get mask i j * (get weights i j * get weights i j))
              (seq 0 a)) W /\
       nth j spectrum nan = F / W /\
       nth j spectrum_error nan = sqrt N / W)
  /\
  get_spectrum sum_flux sum_noise sum_weight data error mask weights
  = (putmask spectrum (low_weight w) nan,
     putmask spectrum_error (low_weight w) nan).
Proof.
  intros Sf Sn Sw Hd He Hm Hw spectrum spectrum_error w.
  subst spectrum spectrum_error w.
  split; [eapply raw_spectrum_length; eauto|].
  split; [eapply raw_spectrum_error_length; eauto|].
  split; [|reflexivity].
  intros j Hj.
  destruct (raw_spectrum_nth sum_flux sum_weight Sf Sw a b data mask weights j)
    as (F & HF & EF); auto.
  destruct (raw_spectrum_error_nth sum_noise sum_weight Sn Sw a b error mask
              weights j) as (N & HN & EN); auto.
  exists F, N, (nth j (channel_weight sum_weight mask weights) nan).
  repeat split; auto.
  now apply (channel_weight_nth sum_weight Sw a b).
Qed.

(** C2.  With [w] the per-channel total weight (for each channel a sum over
    the fibers of [mask*weight^2], in the order numpy adds them), every
    channel whose [w] is below [0.1] times the median of [w] over all the
    channels is NaN in both outputs of [get_spectrum], and every other
    channel keeps the raw value computed for it. *)
Theorem get_spectrum_masks_low_weight
        (sum_flux sum_noise sum_weight : ndarray -> vec)
        (a b : nat) (data error mask weights : ndarray) :
  axis0_sum sum_flux -> axis0_sum sum_noise -> axis0_sum sum_weight ->
  has_shape a b data -> has_shape a b error ->
  has_shape a b mask -> has_shape a b weights ->
  let out := get_spectrum sum_flux sum_noise sum_weight
                          data error mask weights in
  let w := channel_weight sum_weight mask weights in
  let spectrum := fst out in
  let spectrum_error := snd out in
  length w = b /\ length spectrum = b /\ length spectrum_error = b /\
  forall j, j < b ->
    summation
      (map (fun i => get mask i j * (get weights i j * get weights i j))
           (seq 0 a))
      (nth j w nan)
    /\
    ((nth j w nan <? median w * 0.1) = true ->
       nth j spectrum 0 = nan /\ nth j spectrum_error 0 = nan)
    /\
    ((nth j w nan <? median w * 0.1) = false ->
       nth j spectrum nan
       = nth j (raw_spectrum sum_flux sum_weight data mask weights) nan /\
       nth j spectrum_error nan
       = nth j (raw_spectrum_error sum_noise sum_weight error mask weights)
             nan).
Proof.
  intros Sf Sn Sw Hd He Hm Hw out w spectrum spectrum_error.
  pose proof (channel_weight_length sum_weight Sw _ _ _ _ Hm Hw) as Hc.
  fold w in Hc.
  pose proof (raw_spectrum_length sum_flux sum_weight Sf Sw _ _ _ _ _ Hd Hm Hw)
    as Hs.
  pose proof (raw_spectrum_error_length sum_noise sum_weight Sn Sw
                _ _ _ _ _ He Hm Hw) as Hse.
  assert (Hsel : length (low_weight w) = b)
    by (unfold low_weight; now rewrite length_map).
  subst spectrum spectrum_error out. unfold get_spectrum. cbn [fst snd].
  fold w.
  split; [exact Hc|].
  split; [unfold putmask; rewrite length_map2; lia|].
  split; [unfold putmask; rewrite length_map2; lia|].
  intros j Hj.
  split; [now apply (channel_weight_nth sum_weight Sw a b)|].
  assert (Hnth : nth j (low_weight w) false = (nth j w nan <? median w * 0.1)).
  { unfold low_weight. cbv zeta.
    exact (nth_map_lt (fun wj => wj <? median w * 0.1) w j nan false
             ltac:(lia)). }
  split; intros Hlt; rewrite !nth_putmask by lia; rewrite Hnth, Hlt; auto.
Qed.

(** A two-fiber, three-channel extraction whose last channel carries no
    weight, with the rows added one after the other. *)
Example get_spectrum_raw_values_witness :
  let data := mkarray 2 3 [[1; 2; 3]; [4; 5; 6]] in
  let error := mkarray 2 3 [[0.5; 0.5; 0.5]; [1; 1; 1]] in
  let mask := mkarray 2 3 [[1; 1; 0]; [1; 1; 0]] in
  let weights := mkarray 2 3 [[0.5; 0.5; 0.5]; [0.25; 0.5; 1]] in
  let S := sum_axis0_by_rows in
  let spectrum := raw_spectrum S S data mask weights in
  let spectrum_error := raw_spectrum_error S S error mask weights in
  let w := channel_weight S mask weights in
  length spectrum = 3%nat /\ length spectrum_error = 3%nat /\
  (forall j, j < 3 ->
     exists F N W : float,
       summation
         (map (fun i => get data i j * get mask i j * get weights i j)
              (seq 0 2)) F /\
       summation
         (map (fun i => get error i j * get error i j * get mask i j
                        * get weights i j) (seq 0 2)) N /\
       summation
         (map (fun i => get mask i j * (get weights i j * get weights i j))
              (seq 0 2)) W /\
       nth j spectrum nan = F / W /\
       nth j spectrum_error nan = sqrt N / W)
  /\
  get_spectrum S S S data error mask weights
  = (putmask spectrum (low_weight w) nan,
     putmask spectrum_error (low_weight w) nan).
Proof.
  intros data error mask weights S.
  apply (get_spectrum_raw_values S S S 2 3 data error mask weights);
    try exact sum_axis0_by_rows_spec; repeat constructor.
Defined.

Example get_spectrum_masks_low_weight_witness :
  let data := mkarray 2 3 [[1; 2; 3]; [4; 5; 6]] in
  let error := mkarray 2 3 [[0.5; 0.5; 0.5]; [1; 1; 1]] in
  let mask := mkarray 2 3 [[1; 1; 0]; [1; 1; 0]] in
  let weights := mkarray 2 3 [[0.5; 0.5; 0.5]; [0.25; 0.5; 1]] in
  let S := sum_axis0_by_rows in
  let out := get_spectrum S S S data error mask weights in
  let w := channel_weight S mask weights in
  let spectrum := fst out in
  let spectrum_error := snd out in
  length w = 3%nat /\ length spectrum = 3%nat /\
  length spectrum_error = 3%nat /\
  forall j, j < 3 ->
    summation
      (map (fun i => get mask i j * (get weights i j * get weights i j))
           (seq 0 2))
      (nth j w nan)
    /\
    ((nth j w nan <? median w * 0.1) = true ->
       nth j spectrum 0 = nan /\ nth j spectrum_error 0 = nan)
    /\
    ((nth j w nan <? median w * 0.1) = false ->
       nth j spectrum nan = nth j (raw_spectrum S S data mask weights) nan /\
       nth j spectrum_error nan
       = nth j (raw_spectrum_error S S error mask weights) nan).
Proof.
  intros data error mask weights S.
  apply (get_spectrum_masks_low_weight S S S 2 3 data error mask weights);
    try exact sum_axis0_by_rows_spec; repeat constructor.
Defined.

(** When numpy adds the rows one after the other (arrays stored row by row,
    more than one channel), the sums are the sums in fiber order from 0. *)
Lemma raw_values_by_rows (a b : nat) (data error mask weights : ndarray) :
  has_shape a b data -> has_shape a b error ->
  has_shape a b mask -> has_shape a b weights ->
  let S := sum_axis0_by_rows in
  forall j, j < b ->
    nth j (raw_spectrum S S data mask weights) nan
    = fsum a (fun i => get data i j * get mask i j * get weights i j)
      / fsum a (fun i => get mask i j * (get weights i j * get weights i j))
    /\
    nth j (raw_spectrum_error S S error mask weights) nan
    = sqrt (fsum a (fun i =>
              get error i j * get error i j * get mask i j * get weights i j))
      / fsum a (fun i => get mask i j * (get weights i j * get weights i j)).
Proof.
  intros Hd He Hm Hw S j Hj. subst S.
  pose proof (square2_shape _ _ _ Hw) as Hw2.
  pose proof (square2_shape _ _ _ He) as He2.
  pose proof (mul2_shape _ _ _ _ Hm Hw2) as (Ha1 & Hb1 & Hs1).
  pose proof (mul2_shape _ _ _ _ (mul2_shape _ _ _ _ Hd Hm) Hw)
    as (Ha2 & Hb2 & Hs2).
  pose proof (mul2_shape _ _ _ _ (mul2_shape _ _ _ _ He2 Hm) Hw)
    as (Ha3 & Hb3 & Hs3).
  pose proof (length_sum_axis0_by_rows _ Hs1) as L1.
  pose proof (length_sum_axis0_by_rows _ Hs2) as L2.
  pose proof (length_sum_axis0_by_rows _ Hs3) as L3.
  assert (W : nth j (sum_axis0_by_rows (mul2 mask (square2 weights))) nan
              = fsum a (fun i => get mask i j
                                 * (get weights i j * get weights i j))).
  { rewrite nth_sum_axis0_by_rows by (auto; lia). rewrite Ha1.
    apply fsum_ext. intros i Hi.
    rewrite (get_mul2 a b), (get_square2 a b); auto. }
  split.
  - unfold raw_spectrum, vdiv.
    rewrite (nth_map2 _ _ _ _ nan nan nan) by lia.
    rewrite W. f_equal.
    rewrite nth_sum_axis0_by_rows by (auto; lia). rewrite Ha2.
    apply fsum_ext. intros i Hi.
    rewrite (get_mul2 a b), (get_mul2 a b); auto.
    now apply mul2_shape.
  - unfold raw_spectrum_error, vdiv, vsqrt.
    rewrite (nth_map2 _ _ _ _ nan nan nan) by (rewrite ?length_map; lia).
    rewrite W. f_equal.
    rewrite (nth_map_lt _ _ _ nan) by lia. f_equal.
    rewrite nth_sum_axis0_by_rows by (auto; lia). rewrite Ha3.
    apply fsum_ext. intros i Hi.
    rewrite (get_mul2 a b), (get_mul2 a b), (get_square2 a b); auto.
    now apply mul2_shape.
Qed.

(** On that extraction the first two channels keep their raw values and the
    third one, of weight 0 against a median weight of 0.3125, is NaN. *)
Example get_spectrum_run :
  let S := sum_axis0_by_rows in
  get_spectrum S S S
               (mkarray 2 3 [[1; 2; 3]; [4; 5; 6]])
               (mkarray 2 3 [[0.5; 0.5; 0.5]; [1; 1; 1]])
               (mkarray 2 3 [[1; 1; 0]; [1; 1; 0]])
               (mkarray 2 3 [[0.5; 0.5; 0.5]; [0.25; 0.5; 1]])
  = ([1.5 / 0.3125; 3.5 / 0.5; nan],
     [sqrt 0.375 / 0.3125; sqrt 0.625 / 0.5; nan]).
Proof. vm_compute. reflexivity. Qed.

(** With no fiber at all every channel is 0/0 and nothing is below the
    threshold. *)
Example get_spectrum_no_fiber :
  let S := sum_axis0_by_rows in
  get_spectrum S S S (mkarray 0 2 []) (mkarray 0 2 []) (mkarray 0 2 [])
               (mkarray 0 2 [])
  = ([nan; nan], [nan; nan]).
Proof. vm_compute. reflexivity. Qed.

(** One channel and twelve fibers: the rows hold a single entry, numpy adds
    the column pairwise, and the value extracted is not the one the sum in
    fiber order gives. *)
Example get_spectrum_single_channel :
  let data := mkarray 12 1 ([1e16] :: repeat [1] 11) in
  let ones := mkarray 12 1 (repeat [1] 12) in
  fst (get_spectrum sum_axis0_contiguous sum_axis0_contiguous
                    sum_axis0_contiguous data ones ones ones)
  = [10000000000000008 / 12] /\
  fst (get_spectrum sum_axis0_by_rows sum_axis0_by_rows sum_axis0_by_rows
                    data ones ones ones)
  = [1e16 / 12].
Proof. vm_compute. split; reflexivity. Qed.

End SpectrumFacts.

(* ================================================================== *)
(** * Properties of [intersection_area] *)
(* ================================================================== *)

Module GeometryFacts.

Import Stdlib.Reals.Reals Stdlib.micromega.Lra Geometry.
Open Scope R_scope.

Lemma R_le_true (x y : R) : num_le x y = true <-> x <= y.
Proof. simpl. destruct (Rle_dec x y); split; intros; auto; discriminate. Qed.

Lemma R_le_false (x y : R) : num_le x y = false <-> y < x.
Proof.
  simpl. destruct (Rle_dec x y); split; intros; auto; try discriminate; lra.
Qed.

Lemma R_py_min (a b : R) : py_min a b = Rmin a b.
Proof.
  unfold py_min, Rmin; simpl.
  destruct (Rlt_dec b a), (Rle_dec a b); lra.
Qed.

Lemma enclosed_iff (d R r : R) : enclosed d R r = true <-> d <= Rabs (R - r).
Proof. apply R_le_true. Qed.

Lemma not_enclosed_iff (d R r : R) :
  enclosed d R r = false <-> Rabs (R - r) < d.
Proof. apply R_le_false. Qed.

Lemma disjoint_iff (d R r : R) : disjoint d R r = true <-> R + r <= d.
Proof. unfold disjoint. rewrite R_le_true. simpl. lra. Qed.

Lemma not_disjoint_iff (d R r : R) : disjoint d R r = false <-> d < R + r.
Proof. unfold disjoint. rewrite R_le_false. simpl. lra. Qed.

(** A quotient with a positive denominator lies strictly between -1 and 1
    when the numerator lies strictly between the denominator's opposite and
    the denominator. *)
Lemma quotient_in_unit_interval (a b : R) :
  0 < b -> - b < a < b -> -1 < a / b < 1.
Proof.
  intros Hb [Hlo Hhi].
  assert (Hq : a / b * b = a) by (field; lra).
  split; apply Rmult_lt_reg_r with b; auto; rewrite Hq; lra.
Qed.

(** Between the two guards the three lengths form a proper triangle. *)
Lemma between_guards (d R r : R) :
  0 <= d -> 0 <= R -> 0 <= r ->
  Rabs (R - r) < d -> d < R + r ->
  0 < d /\ 0 < R /\ 0 < r /\ R - r < d /\ r - R < d.
Proof.
  intros Hd HR Hr Hlo Hhi.
  unfold Rabs in Hlo. destruct (Rcase_abs (R - r)); repeat split; lra.
Qed.

Lemma cos_alpha_range (d R r : R) :
  0 < d -> 0 < R -> 0 < r -> R - r < d -> r - R < d -> d < R + r ->
  -1 < cos_alpha d R r < 1.
Proof.
  intros Hd HR Hr H1 H2 H3. unfold cos_alpha, sqr; simpl.
  apply quotient_in_unit_interval; [nra|]. split; nra.
Qed.

Lemma cos_beta_range (d R r : R) :
  0 < d -> 0 < R -> 0 < r -> R - r < d -> r - R < d -> d < R + r ->
  -1 < cos_beta d R r < 1.
Proof.
  intros Hd HR Hr H1 H2 H3. unfold cos_beta, sqr; simpl.
  apply quotient_in_unit_interval; [nra|]. split; nra.
Qed.

(** The area of a circular segment of half-angle [t] in the unit circle. *)
Lemma segment_nonneg (t : R) : 0 < t -> 0 <= t - / 2 * sin (2 * t).
Proof.
  intros Ht. pose proof (sin_lt_x (2 * t) ltac:(lra)). lra.
Qed.

Lemma two_segments_nonneg (d R r : R) :
  -1 < cos_alpha d R r < 1 -> -1 < cos_beta d R r < 1 ->
  0 <= two_segments d R r.
Proof.
  intros Ha Hb. unfold two_segments.
  pose proof (acos_bound_lt _ Ha) as [Ha0 _].
  pose proof (acos_bound_lt _ Hb) as [Hb0 _].
  change (@trig_arccos _ R_trig) with acos.
  remember (acos (cos_alpha d R r)) as al eqn:Eal.
  remember (acos (cos_beta d R r)) as be eqn:Ebe.
  pose proof (segment_nonneg _ Ha0) as Sa.
  pose proof (segment_nonneg _ Hb0) as Sb.
  unfold sqr; simpl.
  pose proof (Rle_0_sqr r) as Hr2. pose proof (Rle_0_sqr R) as HR2.
  unfold Rsqr in *.
  replace (r * r * al + R * R * be -
           1 / 2 * (r * r * sin (2 * al) + R * R * sin (2 * be)))
    with (r * r * (al - / 2 * sin (2 * al))
          + R * R * (be - / 2 * sin (2 * be))) by lra.
  apply Rplus_le_le_0_compat; apply Rmult_le_pos; auto.
Qed.

(** C3.  For non-negative [d], [R] and [r], [intersection_area d R r] is
    [pi * min(R, r)^2] when [d <= |R - r|], is [0] when [d >= R + r], and
    otherwise is the two-segment value
    [r^2*alpha + R^2*beta - 0.5*(r^2*sin(2*alpha) + R^2*sin(2*beta))] with
    [alpha = arccos((d^2 + r^2 - R^2) / (2*d*r))] and
    [beta = arccos((d^2 + R^2 - r^2) / (2*d*R))]. *)
Theorem intersection_area_cases (d R r : R) :
  0 <= d -> 0 <= R -> 0 <= r ->
  (d <= Rabs (R - r) -> intersection_area d R r = PI * (Rmin R r) ^ 2) /\
  (d >= R + r -> intersection_area d R r = 0) /\
  (~ d <= Rabs (R - r) -> ~ d >= R + r ->
   let alpha := acos ((d ^ 2 + r ^ 2 - R ^ 2) / (2 * d * r)) in
   let beta := acos ((d ^ 2 + R ^ 2 - r ^ 2) / (2 * d * R)) in
   intersection_area d R r
   = r ^ 2 * alpha + R ^ 2 * beta
     - 1 / 2 * (r ^ 2 * sin (2 * alpha) + R ^ 2 * sin (2 * beta))).
Proof.
  intros Hd HR Hr.
  assert (Hin : d <= Rabs (R - r) ->
                intersection_area d R r = PI * (Rmin R r) ^ 2).
  { intros H. unfold intersection_area.
    apply enclosed_iff in H. rewrite H, R_py_min.
    unfold sqr; simpl. ring. }
  split; [exact Hin|]. split.
  - intros Hfar. destruct (Rle_dec d (Rabs (R - r))) as [Hle|Hgt].
    + rewrite (Hin Hle).
      assert (Hmin : Rmin R r = 0).
      { unfold Rabs in Hle. unfold Rmin.
        destruct (Rcase_abs (R - r)), (Rle_dec R r); lra. }
      rewrite Hmin. ring.
    + unfold intersection_area.
      assert (He : enclosed d R r = false) by (apply not_enclosed_iff; lra).
      assert (Hdj : disjoint d R r = true) by (apply disjoint_iff; lra).
      now rewrite He, Hdj.
  - intros Hne Hnd alpha beta. unfold intersection_area.
    assert (He : enclosed d R r = false) by (apply not_enclosed_iff; lra).
    assert (Hdj : disjoint d R r = false) by (apply not_disjoint_iff; lra).
    rewrite He, Hdj. subst alpha beta.
    unfold two_segments, cos_alpha, cos_beta, sqr; simpl.
    rewrite !Rmult_1_r. reflexivity.
Qed.

Example intersection_area_cases_witness :
  (1 <= Rabs (3 - 1) -> intersection_area 1 3 1 = PI * (Rmin 3 1) ^ 2) /\
  (1 >= 3 + 1 -> intersection_area 1 3 1 = 0) /\
  (~ 1 <= Rabs (3 - 1) -> ~ 1 >= 3 + 1 ->
   let alpha := acos ((1 ^ 2 + 1 ^ 2 - 3 ^ 2) / (2 * 1 * 1)) in
   let beta := acos ((1 ^ 2 + 3 ^ 2 - 1 ^ 2) / (2 * 1 * 3)) in
   intersection_area 1 3 1
   = 1 ^ 2 * alpha + 3 ^ 2 * beta
     - 1 / 2 * (1 ^ 2 * sin (2 * alpha) + 3 ^ 2 * sin (2 * beta))).
Proof. apply (intersection_area_cases 1 3 1); lra. Defined.

(** The two guards in exact arithmetic.  For real [d], [R], [r >= 0],
    whenever both guards fail and the two-segment branch is reached, [d],
    [R] and [r] are positive, so neither [2*d*r] nor [2*d*R] is zero, both
    arguments handed to [arccos] lie strictly between -1 and 1, and the
    value returned is non-negative. *)
Theorem two_segment_branch_exact (d R r : R) :
  0 <= d -> 0 <= R -> 0 <= r ->
  enclosed d R r = false -> disjoint d R r = false ->
  0 < d /\ 0 < R /\ 0 < r /\
  2 * d * r <> 0 /\ 2 * d * R <> 0 /\
  -1 < cos_alpha d R r < 1 /\ -1 < cos_beta d R r < 1 /\
  intersection_area d R r = two_segments d R r /\
  0 <= intersection_area d R r.
Proof.
  intros Hd HR Hr He Hdj.
  pose proof He as He'. pose proof Hdj as Hdj'.
  apply not_enclosed_iff in He'. apply not_disjoint_iff in Hdj'.
  destruct (between_guards d R r Hd HR Hr He' Hdj')
    as (Hd0 & HR0 & Hr0 & H1 & H2).
  pose proof (cos_alpha_range d R r Hd0 HR0 Hr0 H1 H2 Hdj') as Ha.
  pose proof (cos_beta_range d R r Hd0 HR0 Hr0 H1 H2 Hdj') as Hb.
  assert (Hval : intersection_area d R r = two_segments d R r)
    by (unfold intersection_area; now rewrite He, Hdj).
  repeat split; try lra; try nra; auto.
  rewrite Hval. now apply two_segments_nonneg.
Qed.

Lemma unit_circles_overlap :
  enclosed 1 1 1 = false /\ disjoint 1 1 1 = false.
Proof.
  split.
  - apply not_enclosed_iff. unfold Rabs.
    destruct (Rcase_abs (1 - 1)); lra.
  - apply not_disjoint_iff. lra.
Qed.

Example two_segment_branch_exact_witness :
  0 < 1 /\ 0 < 1 /\ 0 < 1 /\
  2 * 1 * 1 <> 0 /\ 2 * 1 * 1 <> 0 /\
  -1 < cos_alpha 1 1 1 < 1 /\ -1 < cos_beta 1 1 1 < 1 /\
  intersection_area 1 1 1 = two_segments 1 1 1 /\
  0 <= intersection_area 1 1 1.
Proof.
  apply (two_segment_branch_exact 1 1 1); try lra;
    apply unit_circles_overlap.
Defined.

(** C10.  In binary64 arithmetic, the arithmetic the method runs in, the
    guards do not keep the arguments of [arccos] inside [-1, 1]: with
    [d = 1.2], [R = 1.1] and [r = 0.1], all non-negative, both guards fail
    ([0.1 + 1.1] rounds to a number above [1.2]) and the argument of the
    second [arccos] is greater than 1, where [np.arccos] answers NaN. *)
Lemma binary64_arccos_argument_above_one :
  let d := 1.2%float in
  let R := 1.1%float in
  let r := 0.1%float in
  PrimFloat.leb 0 d = true /\ PrimFloat.leb 0 R = true /\
  PrimFloat.leb 0 r = true /\
  enclosed d R r = false /\ disjoint d R r = false /\
  PrimFloat.ltb 1 (cos_beta d R r) = true.
Proof. vm_compute. repeat split. Qed.

(** In binary64 arithmetic the branch can also divide by zero: with the
    smallest positive [d] and two equal radii both guards fail and [2*d*r]
    rounds to zero. *)
Lemma binary64_zero_denominator :
  let d := 0x1p-1074%float in
  let R := 0.1%float in
  let r := 0.1%float in
  enclosed d R r = false /\ disjoint d R r = false /\
  PrimFloat.eqb (PrimFloat.mul (PrimFloat.mul 2 d) r) 0 = true.
Proof. vm_compute. repeat split. Qed.

End GeometryFacts.

(* ================================================================== *)
(** * Properties of [make_collapsed_image] *)
(* ================================================================== *)

Module CollapseFacts.

Import Np Collapse NpFacts.
Open Scope float_scope.

(** Membership in [seq k n [sel]]. *)
Lemma In_compress_seq (sel : list bool) (k n i : nat) :
  In i (compress sel (seq k n))
  <-> k <= i < k + n /\ i - k < length sel /\ nth (i - k) sel false = true.
Proof.
  revert k n; induction sel as [|s sel IH]; intros k n.
  - simpl. split; [tauto | intros (_ & H & _); lia].
  - destruct n as [|n].
    + simpl. split; [tauto | lia].
    + cbn [seq compress]. 
      assert (Hrec : In i (compress sel (seq (S k) n))
                     <-> i <> k /\ k <= i < k + S n /\ i - k < length (s :: sel)
                         /\ nth (i - k) (s :: sel) false = true).
      { rewrite IH. cbn [length]. split.
        - intros (H1 & H2 & H3).
          replace (i - k)%nat with (S (i - S k)) by lia. cbn [nth].
          repeat split; auto; lia.
        - intros (H0 & H1 & H2 & H3).
          replace (i - k)%nat with (S (i - S k)) in H3 by lia. cbn [nth] in H3.
          repeat split; auto; lia. }
      destruct s.
      * cbn [In]. rewrite Hrec. split.
        -- intros [<-|H]; [|tauto].
           rewrite Nat.sub_diag. cbn. repeat split; lia.
        -- intros H. destruct (Nat.eq_dec k i); [now left | right; split; auto].
      * rewrite Hrec. split; [tauto|].
        intros (H1 & H2 & H3). split; [|auto].
        intros ->. rewrite Nat.sub_diag in H3. discriminate.
Qed.

Lemma compress_seq_lower_bound (sel : list bool) (k n : nat) :
  Forall (fun i => k <= i) (compress sel (seq k n)).
Proof.
  apply Forall_forall. intros i Hi. apply In_compress_seq in Hi. lia.
Qed.

(** The selected indices come in increasing order, each one once. *)
Lemma compress_seq_sorted (sel : list bool) (k n : nat) :
  StronglySorted lt (compress sel (seq k n)).
Proof.
  revert k n; induction sel as [|s sel IH]; intros k [|n]; try constructor.
  cbn [seq compress]. destruct s; [|apply IH].
  constructor; [apply IH|].
  eapply Forall_impl; [|apply (compress_seq_lower_bound sel (S k) n)].
  simpl; intros; lia.
Qed.

(** C7.  The indices [make_collapsed_image] selects are exactly the indices
    [i] of the wavelength grid with [wave[i] > wrange[0]] and
    [wave[i] <= wrange[1]] (low bound excluded, high bound included), listed
    in increasing order, each one once. *)
Theorem selected_indices_exact (wave : vec) (wrange : float * float) (b : nat) :
  length wave = b ->
  (forall i,
      In i (selected_indices wave wrange b) <->
      i < b /\ (fst wrange <? nth i wave nan) = true
            /\ (nth i wave nan <=? snd wrange) = true)
  /\ StronglySorted lt (selected_indices wave wrange b).
Proof.
  intros Hlen. split; [|apply compress_seq_sorted].
  intros i. unfold selected_indices. rewrite In_compress_seq.
  unfold wave_selection. rewrite length_map, Nat.sub_0_r, Hlen.
  split.
  - intros (H1 & H2 & H3).
    rewrite (nth_map_lt _ _ _ nan) in H3 by lia.
    apply andb_prop in H3. tauto.
  - intros (H1 & H2 & H3).
    rewrite (nth_map_lt _ _ _ nan) by lia.
    unfold in_wrange. rewrite H2, H3. repeat split; auto; lia.
Qed.

Example selected_indices_exact_witness :
  (forall i,
      In i (selected_indices [3400; 3470; 3500; 5540; 5541] (3470, 5540) 5) <->
      i < 5 /\ (fst (3470, 5540) <? nth i [3400; 3470; 3500; 5540; 5541] nan) = true
            /\ (nth i [3400; 3470; 3500; 5540; 5541] nan <=? snd (3470, 5540)) = true)
  /\ StronglySorted lt
       (selected_indices [3400; 3470; 3500; 5540; 5541] (3470, 5540) 5).
Proof.
  apply (selected_indices_exact [3400; 3470; 3500; 5540; 5541] (3470, 5540) 5).
  reflexivity.
Defined.

(** On that grid the sample at the low bound is left out and the sample at
    the high bound is kept. *)
Example selected_indices_bounds :
  selected_indices [3400; 3470; 3500; 5540; 5541] (3470, 5540) 5 = [2; 3]%nat.
Proof. vm_compute. reflexivity. Qed.

Open Scope nat_scope.

Lemma firstn_seq_min (k s n : nat) : firstn k (seq s n) = seq s (Nat.min k n).
Proof.
  revert s n; induction k as [|k IH]; intros s [|n]; simpl; auto.
  now rewrite IH.
Qed.

(** Every section cut out of a run of consecutive indices is such a run. *)
Lemma split_by_seq (sizes : list nat) :
  forall s n k, k < length sizes ->
  exists s' c, nth k (split_by sizes (seq s n)) [] = seq s' c.
Proof.
  induction sizes as [|a sizes IH]; intros s n k Hk; simpl in Hk; [lia|].
  destruct k as [|k]; cbn [split_by nth].
  - exists s, (Nat.min a n). apply firstn_seq_min.
  - rewrite skipn_seq. apply IH. lia.
Qed.

Lemma length_split_by {A : Type} (sizes : list nat) (l : list A) :
  length (split_by sizes l) = length sizes.
Proof.
  revert l; induction sizes as [|a sizes IH]; intros l; simpl; auto.
Qed.

Lemma length_section_sizes (total n : nat) :
  n <> 0 -> length (section_sizes total n) = n.
Proof.
  intros Hn. unfold section_sizes.
  rewrite length_app, !repeat_length.
  pose proof (Nat.mod_upper_bound total n Hn). lia.
Qed.

Lemma length_array_split {A : Type} (l : list A) (n : nat) :
  n <> 0 -> length (array_split l n) = n.
Proof.
  intros Hn. unfold array_split.
  now rewrite length_split_by, length_section_sizes.
Qed.

Lemma sequence_opt_Some {A : Type} (l : list (option A)) (r : list A) :
  sequence_opt l = Some r ->
  length r = length l /\
  forall k d, k < length l -> nth k l None = Some (nth k r d).
Proof.
  revert r; induction l as [|[x|] l IH]; intros r H; simpl in H.
  - inversion H; subst. split; auto. simpl; intros; lia.
  - destruct (sequence_opt l) as [xs|] eqn:E; [|discriminate].
    inversion H; subst. destruct (IH xs eq_refl) as [Hl Hn].
    split; [simpl; lia|].
    intros [|k] d Hk; simpl; auto. apply Hn. simpl in Hk; lia.
  - discriminate.
Qed.

Lemma chunk_index_Some (xi : list nat) (i : nat) :
  chunk_index xi = Some i ->
  xi <> [] /\ i = list_sum xi / length xi.
Proof.
  destruct xi; simpl; intros H; inversion H; split; auto; discriminate.
Qed.

(** Twice the sum of [c] consecutive indices from [s]. *)
Lemma list_sum_seq (s c : nat) : 2 * list_sum (seq s c) + c = c * (2 * s + c).
Proof.
  revert s; induction c as [|c IH]; intros s; simpl; [lia|].
  specialize (IH (S s)). nia.
Qed.

(** The truncated mean of a run of [c > 0] consecutive indices from [s] is
    one of them, and no integer is closer to the mean. *)
Lemma truncated_mean_of_run (s c : nat) :
  0 < c ->
  let q := list_sum (seq s c) / c in
  s <= q < s + c /\
  forall m : Z,
    (Z.abs (Z.of_nat c * Z.of_nat q - Z.of_nat (list_sum (seq s c)))
     <= Z.abs (Z.of_nat c * m - Z.of_nat (list_sum (seq s c))))%Z.
Proof.
  intros Hc q. pose proof (list_sum_seq s c) as Hsum.
  set (t := list_sum (seq s c)) in *.
  pose proof (Nat.div_mod_eq t c) as Hdiv. fold q in Hdiv.
  pose proof (Nat.mod_upper_bound t c ltac:(lia)) as Hrem.
  set (rem := t mod c) in *.
  assert (Hhalf : 2 * rem <= c).
  { assert (H2 : 2 * rem + c * (2 * q + 1) = c * (2 * s + c)) by nia.
    destruct (Nat.le_gt_cases (2 * s + c) (2 * q + 1)) as [Hle|Hgt]; [nia|].
    assert (H3 : 2 * q + 1 + 1 <= 2 * s + c) by lia.
    destruct (Nat.eq_dec (2 * q + 2) (2 * s + c)) as [He|Hne]; [nia|].
    assert (H4 : 2 * q + 3 <= 2 * s + c) by lia. nia. }
  split; [nia|].
  intros m.
  assert (Hq : (Z.of_nat c * Z.of_nat q - Z.of_nat t = - Z.of_nat rem)%Z) by nia.
  rewrite Hq, Z.abs_opp, Z.abs_eq by lia.
  destruct (Z.le_gt_cases m (Z.of_nat q)) as [Hm|Hm].
  - assert ((Z.of_nat c * m - Z.of_nat t <= - Z.of_nat rem)%Z) by nia. lia.
  - assert ((Z.of_nat c - Z.of_nat rem <= Z.of_nat c * m - Z.of_nat t)%Z) by nia.
    lia.
Qed.

Lemma invalid_kind_true (k : String.string) :
  k <> linear -> k <> cubic -> invalid_kind k = true.
Proof.
  intros H1 H2. unfold invalid_kind.
  apply String.eqb_neq in H1, H2. now rewrite H1, H2.
Qed.

Section Collaborators.

Variable ma_median_axis1 : list vec -> list (list bool) -> list (option float).
Variable ma_normalise : list (option float) -> list (option float).
Variable griddata :
  list (float * float) -> vec -> list vec -> list vec -> String.string ->
  option (list vec).
Variable kernel : Type.
Variable Gaussian2DKernel : float -> kernel.
Variable convolve : list vec -> kernel -> list vec.

Let chunk_image' := chunk_image ma_median_axis1 ma_normalise griddata kernel convolve.
Let collapse_chunks' :=
  collapse_chunks ma_median_axis1 ma_normalise griddata kernel convolve.

(** Turn [k] of the loop (counter [cnt + k]) interpolates the fibers at
    the positions shifted by the ADR offsets of index [ichunk[cnt + k]]. *)
Lemma collapse_chunks_nth (chunks : list (list vec * list vec)) :
  forall (cnt : nat) (ichunk : list nat) (xloc yloc ADRx ADRy : vec)
         (xgrid ygrid : list vec) (scale area : float) (G : option kernel)
         (interp_kind : String.string) (image_list : list (list vec)),
  collapse_chunks' chunks cnt ichunk xloc yloc ADRx ADRy xgrid ygrid
                   scale area G interp_kind = Some image_list ->
  length image_list = length chunks /\
  forall k, k < length chunks ->
    chunk_image'
      (shifted_positions xloc yloc ADRx ADRy (nth (cnt + k) ichunk 0))
      (fst (nth k chunks ([], []))) (snd (nth k chunks ([], [])))
      xgrid ygrid scale area G interp_kind
    = Some (nth k image_list []).
Proof.
  subst chunk_image' collapse_chunks'.
  induction chunks as [|[chunk mchunk] rest IH]; intros until image_list;
    cbn [collapse_chunks]; intros H.
  - inversion H; subst. split; auto. simpl; intros; lia.
  - destruct (chunk_image _ _ _ _ _ _ _ _ _ _ _ _ _ _) as [grid_z|] eqn:E1;
      [|discriminate].
    destruct (collapse_chunks _ _ _ _ _ rest _ _ _ _ _ _ _ _ _ _ _ _)
      as [images|] eqn:E2; [|discriminate].
    inversion H; subst. destruct (IH _ _ _ _ _ _ _ _ _ _ _ _ _ E2) as [Hl Hn].
    split; [simpl; lia|].
    intros [|k] Hk; cbn [nth fst snd].
    + now rewrite Nat.add_0_r.
    + rewrite <- (Hn k) by (simpl in Hk; lia).
      now rewrite Nat.add_succ_r.
Qed.

Let run :=
  make_collapsed_image ma_median_axis1 ma_normalise griddata kernel
                       Gaussian2DKernel convolve.

(** What one turn of the loop hands to [griddata] and appends. *)
Lemma chunk_image_Some (pos : list (float * float)) (chunk mchunk : list vec)
      (xgrid ygrid : list vec) (scale area : float) (G : option kernel)
      (interp_kind : String.string) (img : list vec) :
  chunk_image' pos chunk mchunk xgrid ygrid scale area G interp_kind
  = Some img ->
  let image :=
    ma_normalise
      (ma_median_axis1 chunk (map (map (fun m => (m <? 1e-8)%float)) mchunk)) in
  exists g,
    griddata (compress (map is_some image) pos) (cat_somes image)
             xgrid ygrid interp_kind = Some g /\
    img = match G with
          | Some k =>
              convolve (map (map (fun v => (v * (scale * scale) / area)%float)) g) k
          | None => map (map (fun v => (v * (scale * scale) / area)%float)) g
          end.
Proof.
  subst chunk_image'. unfold chunk_image. cbv zeta. intros H.
  destruct (griddata _ _ _ _ _) as [g|]; [|discriminate].
  exists g. split; [reflexivity|]. now inversion H.
Qed.

Lemma length_array_split_axis1 (rs : list vec) (n : nat) :
  length (array_split_axis1 rs n) = n.
Proof. unfold array_split_axis1. now rewrite length_map, length_seq. Qed.

(** C6.  When the selected wavelength indices form a run of consecutive
    indices (a contiguous sub-band of the grid) and no chunk is empty, the
    index [ichunk[k]] of chunk [k] is the truncated mean of the chunk's
    indices, it is one of the chunk's indices, and no integer is nearer to
    that mean; and whenever [make_collapsed_image] returns an array, the
    image of chunk [k] is interpolated, by [griddata], from the fibers at
    the positions [(xloc - ADRx[ichunk[k]], yloc - ADRy[ichunk[k]])], the
    fibers whose value is masked left out, and the array returned is the
    median of these images. *)
Theorem chunk_shift_uses_nearest_index
        (wave ADRx ADRy : vec) (xc yc : float) (xloc yloc : vec)
        (data mask : ndarray) (scale seeing_fac boxsize : float)
        (wrange : float * float) (nchunks lo len : nat)
        (convolve_image : bool) (interp_kind : String.string)
        (ichunk : list nat) :
  selected_indices wave wrange (ncol data) = seq lo len ->
  chunk_indices (wave_selection wave wrange) (ncol data) nchunks
  = Some ichunk ->
  length ichunk = nchunks /\
  (forall k, k < nchunks ->
     let xi :=
       nth k (array_split (selected_indices wave wrange (ncol data)) nchunks)
           [] in
     let i := nth k ichunk 0 in
     xi <> [] /\
     i = list_sum xi / length xi /\
     In i xi /\
     forall m : Z,
       (Z.abs (Z.of_nat (length xi) * Z.of_nat i - Z.of_nat (list_sum xi))
        <= Z.abs (Z.of_nat (length xi) * m - Z.of_nat (list_sum xi)))%Z) /\
  (forall (log : list String.string) (z : zarray),
     run wave ADRx ADRy xc yc xloc yloc data mask scale seeing_fac boxsize
         wrange nchunks convolve_image interp_kind = (log, Some z) ->
     exists (N : nat) (image_list : list (list vec)),
       int_of_float (boxsize / scale) = Some (Z.of_nat N) /\
       length image_list = nchunks /\
       layer0 z
       = map (map (fun v => if is_nan v then 0%float else v))
             (median_axis0 image_list N) /\
       forall k, k < nchunks ->
         let sel := wave_selection wave wrange in
         let i := nth k ichunk 0 in
         let chunk :=
           nth k (array_split_axis1 (map (compress sel) (rows data)) nchunks)
               [] in
         let mchunk :=
           nth k (array_split_axis1 (map (compress sel) (rows mask)) nchunks)
               [] in
         let image :=
           ma_normalise
             (ma_median_axis1 chunk
                (map (map (fun m => (m <? 1e-8)%float)) mchunk)) in
         let S :=
           map2 (fun x y => ((x - nth i ADRx nan)%float,
                             (y - nth i ADRy nan)%float)) xloc yloc in
         let xgrid :=
           fst (meshgrid (linspace (xc - boxsize / 2) (xc + boxsize / 2) N)
                         (linspace (yc - boxsize / 2) (yc + boxsize / 2) N)) in
         let ygrid :=
           snd (meshgrid (linspace (xc - boxsize / 2) (xc + boxsize / 2) N)
                         (linspace (yc - boxsize / 2) (yc + boxsize / 2) N)) in
         let kind :=
           if invalid_kind interp_kind then linear else interp_kind in
         let area := (np_pi * (0.75 * 0.75))%float in
         exists g : list vec,
           griddata (compress (map is_some image) S) (cat_somes image)
                    xgrid ygrid kind = Some g /\
           nth k image_list []
           = let grid_z :=
               map (map (fun v => (v * (scale * scale) / area)%float)) g in
             if convolve_image
             then convolve grid_z (Gaussian2DKernel (seeing_fac / scale / 2.35))
             else grid_z).
Proof.
  intros Hrun Hic. pose proof Hic as Hic'. unfold chunk_indices in Hic.
  fold (selected_indices wave wrange (ncol data)) in Hic.
  destruct (Nat.eqb_spec nchunks 0) as [|Hn]; [discriminate|].
  apply sequence_opt_Some in Hic. destruct Hic as [Hlen Hnth].
  rewrite length_map, length_array_split in Hlen, Hnth by assumption.
  split; [exact Hlen|]. split.
  - intros k Hk xi i.
    specialize (Hnth k 0 Hk).
    change None with (chunk_index []) in Hnth. rewrite map_nth in Hnth.
    fold xi i in Hnth. apply chunk_index_Some in Hnth.
    destruct Hnth as [Hne Hi].
    assert (Hseq : exists s c, xi = seq s c).
    { subst xi. rewrite Hrun. unfold array_split. apply split_by_seq.
      rewrite length_section_sizes by assumption. exact Hk. }
    destruct Hseq as (s & c & Hxi).
    assert (Hc : 0 < c) by (destruct c; [now rewrite Hxi in Hne | lia]).
    pose proof (truncated_mean_of_run s c Hc) as [Hin Hnear].
    rewrite Hxi in Hi |- *. rewrite length_seq in Hi |- *.
    repeat split; auto.
    + intros E. destruct c; [lia | discriminate].
    + rewrite Hi. apply in_seq. lia.
    + intros m. rewrite Hi. apply Hnear.
  - intros log z. subst run. unfold make_collapsed_image.
    destruct (int_of_float (boxsize / scale)) as [N|]; [|discriminate].
    destruct (Z.ltb_spec N 0) as [Hneg|Hpos]; [discriminate|].
    unfold meshgrid. cbv zeta beta iota. rewrite Hic'.
    set (chunks :=
           combine
             (array_split_axis1
                (map (compress (wave_selection wave wrange)) (rows data))
                nchunks)
             (array_split_axis1
                (map (compress (wave_selection wave wrange)) (rows mask))
                nchunks)).
    assert (Hchunks : length chunks = nchunks).
    { subst chunks. rewrite length_combine, !length_array_split_axis1. lia. }
    assert (Hk : forall k, k < nchunks ->
              nth k chunks ([], [])
              = (nth k (array_split_axis1
                          (map (compress (wave_selection wave wrange))
                               (rows data)) nchunks) [],
                 nth k (array_split_axis1
                          (map (compress (wave_selection wave wrange))
                               (rows mask)) nchunks) [])).
    { intros k Hk. subst chunks. apply combine_nth.
      now rewrite !length_array_split_axis1. }
    destruct (invalid_kind interp_kind);
      (destruct (collapse_chunks _ _ _ _ _ chunks _ _ _ _ _ _ _ _ _ _ _ _)
        as [images|] eqn:E; [|discriminate]);
      intros H; inversion H; subst log z; clear H; cbn [layer0];
      exists (Z.to_nat N), images; rewrite Z2Nat.id by lia;
      destruct (collapse_chunks_nth _ _ _ _ _ _ _ _ _ _ _ _ _ _ E)
        as [Hl Himg];
      (split; [reflexivity|]); (split; [lia|]); (split; [reflexivity|]);
      intros k Hklt; cbv zeta;
      specialize (Himg k ltac:(lia)); rewrite (Hk k Hklt) in Himg;
      cbn [fst snd Nat.add] in Himg;
      apply chunk_image_Some in Himg; cbv zeta in Himg;
      destruct Himg as (g & Hg & Hi); exists g;
      (split; [exact Hg|]); rewrite Hi;
      destruct convolve_image; reflexivity.
Qed.


(** The loop cannot fail where [griddata] does not. *)
Lemma collapse_chunks_total (kind : String.string) :
  (forall pts vals xg yg, griddata pts vals xg yg kind <> None) ->
  forall chunks cnt ichunk xloc yloc ADRx ADRy xgrid ygrid scale area G,
  collapse_chunks ma_median_axis1 ma_normalise griddata kernel convolve
                  chunks cnt ichunk xloc yloc ADRx ADRy xgrid ygrid
                  scale area G kind <> None.
Proof.
  intros Hg. induction chunks as [|[chunk mchunk] rest IH]; intros;
    cbn [collapse_chunks]; [discriminate|].
  unfold chunk_image.
  destruct (griddata _ _ _ _ _) eqn:E; [|now apply Hg in E].
  specialize (IH (S cnt) ichunk xloc yloc ADRx ADRy xgrid ygrid scale area G).
  destruct (collapse_chunks _ _ _ _ _ rest _ _ _ _ _ _ _ _ _ _ _ _);
    [discriminate | contradiction].
Qed.

(** C9.  With an [interp_kind] that is neither "linear" nor "cubic",
    [make_collapsed_image] returns exactly what it returns for "linear"
    (an exception included, so the invalid value itself is never the cause
    of one); once the grid and the chunk indices have been computed it logs
    the two warnings, which the call with "linear" does not; and where
    [griddata] succeeds on "linear" it returns an array. *)
Theorem invalid_interp_kind_falls_back
        (wave ADRx ADRy : vec) (xc yc : float) (xloc yloc : vec)
        (data mask : ndarray) (scale seeing_fac boxsize : float)
        (wrange : float * float) (nchunks : nat) (convolve_image : bool)
        (interp_kind : String.string) :
  interp_kind <> linear -> interp_kind <> cubic ->
  let out := run wave ADRx ADRy xc yc xloc yloc data mask scale seeing_fac
                 boxsize wrange nchunks convolve_image interp_kind in
  let lin := run wave ADRx ADRy xc yc xloc yloc data mask scale seeing_fac
                 boxsize wrange nchunks convolve_image linear in
  snd out = snd lin /\
  fst lin = [] /\
  (forall N ichunk,
      int_of_float (boxsize / scale) = Some N -> (0 <= N)%Z ->
      chunk_indices (wave_selection wave wrange) (ncol data) nchunks
      = Some ichunk ->
      fst out = [warning1; warning2] /\
      ((forall pts vals xg yg,
           griddata pts vals xg yg linear <> None) ->
       exists z, snd out = Some z)).
Proof.
  intros H1 H2 out lin. subst out lin run.
  pose proof (invalid_kind_true _ H1 H2) as Hinv.
  unfold make_collapsed_image.
  destruct (int_of_float (boxsize / scale)) as [N|].
  2: { split; [reflexivity|]. split; [reflexivity|].
       intros N ic E; discriminate. }
  destruct (Z.ltb_spec N 0) as [Hneg|Hpos].
  { split; [reflexivity|]. split; [reflexivity|].
    intros N' ic E HN. inversion E; lia. }
  unfold meshgrid. cbv zeta beta iota.
  destruct (chunk_indices _ _ _) as [ichunk|].
  2: { split; [reflexivity|]. split; [reflexivity|].
       intros N' ic _ _ E; discriminate. }
  rewrite Hinv. change (invalid_kind linear) with false. cbv iota.
  match goal with
  | |- context [collapse_chunks ?a ?b ?c ?d ?e ?f ?g ?h ?i ?j ?k ?l ?m ?n ?o ?p ?q linear] =>
      pose proof (fun Hg =>
                    collapse_chunks_total linear Hg f g h i j k l m n o p q)
        as Htot;
      destruct (collapse_chunks a b c d e f g h i j k l m n o p q linear)
        as [images|]
  end.
  - split; [reflexivity|]. split; [reflexivity|].
    intros N' ic _ _ _. split; [reflexivity|].
    intros _. eexists; reflexivity.
  - split; [reflexivity|]. split; [reflexivity|].
    intros N' ic _ _ _. split; [reflexivity|].
    intros Hg. now apply Htot in Hg.
Qed.

End Collaborators.

(** A selection that is not a run of consecutive indices: the truncated
    mean of the indices 0, 2, 3 is 1, an index that is not selected, while
    2 is nearer to their mean 5/3. *)
Example truncated_mean_of_scattered_indices :
  chunk_indices [true; false; true; true] 4 1 = Some [1].
Proof. reflexivity. Qed.

(** A call on two fibers and five wavelengths, three of them selected, cut
    in two chunks; the interpolator of this example hands back the positions
    it receives, so that the image of a chunk shows the shift applied to
    it.  The call returns an array. *)
Example chunk_shift_uses_nearest_index_witness :
  let ma_median_axis1 :=
    fun (chunk : list vec) (_ : list (list bool)) =>
      map (fun _ : vec => Some 1%float) chunk in
  let ma_normalise := fun l : list (option float) => l in
  let griddata :=
    fun (pts : list (float * float)) (_ : vec) (_ _ : list vec)
        (_ : String.string) => Some [map fst pts; map snd pts] in
  let Gaussian2DKernel := fun _ : float => tt in
  let convolve := fun (g : list vec) (_ : unit) => g in
  let wave := [3400; 3500; 3600; 3700; 5600]%float in
  let ADRx := [0; 0.5; 1; 1.5; 2]%float in
  let ADRy := [0; 0.25; 0.5; 0.75; 1]%float in
  let xloc := [0; 1]%float in
  let yloc := [0; 1]%float in
  let data := mkarray 2 5 [[1; 2; 3; 4; 5]; [1; 2; 3; 4; 5]]%float in
  let mask := mkarray 2 5 [[1; 1; 1; 1; 1]; [1; 1; 1; 1; 1]]%float in
  let wrange := (3470, 5540)%float in
  let ichunk := [1; 3] in
  let run :=
    make_collapsed_image ma_median_axis1 ma_normalise griddata unit
                         Gaussian2DKernel convolve in
  (exists z,
     run wave ADRx ADRy 0%float 0%float xloc yloc data mask
         0.25%float 1.8%float 0.5%float wrange 2 false linear
     = ([], Some z)) /\
  length ichunk = 2 /\
  (forall k, k < 2 ->
     let xi := nth k (array_split (selected_indices wave wrange 5) 2) [] in
     let i := nth k ichunk 0 in
     xi <> [] /\
     i = list_sum xi / length xi /\
     In i xi /\
     forall m : Z,
       (Z.abs (Z.of_nat (length xi) * Z.of_nat i - Z.of_nat (list_sum xi))
        <= Z.abs (Z.of_nat (length xi) * m - Z.of_nat (list_sum xi)))%Z) /\
  (forall (log : list String.string) (z : zarray),
     run wave ADRx ADRy 0%float 0%float xloc yloc data mask
         0.25%float 1.8%float 0.5%float wrange 2 false linear
     = (log, Some z) ->
     exists (N : nat) (image_list : list (list vec)),
       int_of_float (0.5 / 0.25)%float = Some (Z.of_nat N) /\
       length image_list = 2 /\
       layer0 z
       = map (map (fun v => if is_nan v then 0%float else v))
             (median_axis0 image_list N) /\
       forall k, k < 2 ->
         let sel := wave_selection wave wrange in
         let i := nth k ichunk 0 in
         let chunk :=
           nth k (array_split_axis1 (map (compress sel) (rows data)) 2) [] in
         let mchunk :=
           nth k (array_split_axis1 (map (compress sel) (rows mask)) 2) [] in
         let image :=
           ma_normalise
             (ma_median_axis1 chunk
                (map (map (fun m => (m <? 1e-8)%float)) mchunk)) in
         let S :=
           map2 (fun x y => ((x - nth i ADRx nan)%float,
                             (y - nth i ADRy nan)%float)) xloc yloc in
         let xgrid :=
           fst (meshgrid (linspace (0 - 0.5 / 2) (0 + 0.5 / 2) N)
                         (linspace (0 - 0.5 / 2) (0 + 0.5 / 2) N)) in
         let ygrid :=
           snd (meshgrid (linspace (0 - 0.5 / 2) (0 + 0.5 / 2) N)
                         (linspace (0 - 0.5 / 2) (0 + 0.5 / 2) N)) in
         let kind := if invalid_kind linear then linear else linear in
         let area := (np_pi * (0.75 * 0.75))%float in
         exists g : list vec,
           griddata (compress (map is_some image) S) (cat_somes image)
                    xgrid ygrid kind = Some g /\
           nth k image_list []
           = let grid_z :=
               map (map (fun v => (v * (0.25 * 0.25) / area)%float)) g in
             if false
             then convolve grid_z (Gaussian2DKernel (1.8 / 0.25 / 2.35)%float)
             else grid_z).
Proof.
  intros ma_median_axis1 ma_normalise griddata Gaussian2DKernel convolve
         wave ADRx ADRy xloc yloc data mask wrange ichunk run.
  split; [eexists; vm_compute; reflexivity|].
  exact (chunk_shift_uses_nearest_index
           ma_median_axis1 ma_normalise griddata unit Gaussian2DKernel convolve
           wave ADRx ADRy 0%float 0%float xloc yloc data mask
           0.25%float 1.8%float 0.5%float wrange 2 1 3 false linear ichunk
           eq_refl eq_refl).
Defined.

(** On that call the two images are the fiber positions shifted by the
    offsets of the indices 1 and 3, scaled by [scale**2 / area]: the fibers
    at x = 0 and x = 1 are taken at x = -0.5 and 0.5 for the first chunk
    ([ADRx[1] = 0.5]) and at x = -1.5 and -0.5 for the second one
    ([ADRx[3] = 1.5]). *)
Example chunk_shift_run :
  let griddata :=
    fun (pts : list (float * float)) (_ : vec) (_ _ : list vec)
        (_ : String.string) => Some [map fst pts; map snd pts] in
  let grid :=
    fst (meshgrid (linspace (0 - 0.5 / 2) (0 + 0.5 / 2) 2)
                  (linspace (0 - 0.5 / 2) (0 + 0.5 / 2) 2))%float in
  let area := (np_pi * (0.75 * 0.75))%float in
  collapse_chunks
    (fun chunk _ => map (fun _ => Some 1%float) chunk) (fun l => l)
    griddata unit (fun g _ => g)
    (combine
       (array_split_axis1 [[2; 3; 4]; [2; 3; 4]]%float 2)
       (array_split_axis1 [[1; 1; 1]; [1; 1; 1]]%float 2))
    0 [1; 3] [0; 1]%float [0; 1]%float
    [0; 0.5; 1; 1.5; 2]%float [0; 0.25; 0.5; 0.75; 1]%float
    grid grid 0.25%float area None linear
  = Some
      [map (map (fun v => (v * (0.25 * 0.25) / area)%float))
           [[-0.5; 0.5]; [-0.25; 0.75]]%float;
       map (map (fun v => (v * (0.25 * 0.25) / area)%float))
           [[-1.5; -0.5]; [-0.75; 0.25]]%float].
Proof. vm_compute. reflexivity. Qed.

(** A call with the kind "nearest" on a two-fiber, five-wavelength cube,
    with collaborators that hand the grid back. *)
Example invalid_interp_kind_falls_back_witness :
  let run :=
    make_collapsed_image
      (fun chunk _ => map (fun _ => Some 1%float) chunk) (fun l => l)
      (fun _ _ xg _ _ => Some xg) unit (fun _ => tt) (fun g _ => g)
      [3400; 3500; 3600; 3700; 5600]%float
      [0; 0; 0; 0; 0]%float [0; 0; 0; 0; 0]%float
      0%float 0%float [0; 1]%float [0; 1]%float
      (mkarray 2 5 [[1; 2; 3; 4; 5]; [1; 2; 3; 4; 5]]%float)
      (mkarray 2 5 [[1; 1; 1; 1; 1]; [1; 1; 1; 1; 1]]%float)
      0.25%float 1.8%float 1%float (3470, 5540)%float 2 false in
  let out := run nearest in
  let lin := run linear in
  snd out = snd lin /\
  fst lin = [] /\
  (forall N ichunk,
      int_of_float (1 / 0.25)%float = Some N -> (0 <= N)%Z ->
      chunk_indices
        (wave_selection [3400; 3500; 3600; 3700; 5600]%float (3470, 5540)%float)
        5 2 = Some ichunk ->
      fst out = [warning1; warning2] /\
      ((forall (pts : list (float * float)) (vals : vec) (xg yg : list vec),
           Some xg <> None) ->
       exists z, snd out = Some z)).
Proof.
  exact (invalid_interp_kind_falls_back
           (fun chunk _ => map (fun _ => Some 1%float) chunk) (fun l => l)
           (fun _ _ xg _ _ => Some xg) unit (fun _ => tt) (fun g _ => g)
           [3400; 3500; 3600; 3700; 5600]%float
           [0; 0; 0; 0; 0]%float [0; 0; 0; 0; 0]%float
           0%float 0%float [0; 1]%float [0; 1]%float
           (mkarray 2 5 [[1; 2; 3; 4; 5]; [1; 2; 3; 4; 5]]%float)
           (mkarray 2 5 [[1; 1; 1; 1; 1]; [1; 1; 1; 1; 1]]%float)
           0.25%float 1.8%float 1%float (3470, 5540)%float 2 false nearest
           ltac:(discriminate) ltac:(discriminate)).
Defined.

(** On that call the warnings are logged and an image of four by four
    pixels comes back. *)
Example invalid_interp_kind_run :
  let out :=
    make_collapsed_image
      (fun chunk _ => map (fun _ => Some 1%float) chunk) (fun l => l)
      (fun _ _ xg _ _ => Some xg) unit (fun _ => tt) (fun g _ => g)
      [3400; 3500; 3600; 3700; 5600]%float
      [0; 0; 0; 0; 0]%float [0; 0; 0; 0; 0]%float
      0%float 0%float [0; 1]%float [0; 1]%float
      (mkarray 2 5 [[1; 2; 3; 4; 5]; [1; 2; 3; 4; 5]]%float)
      (mkarray 2 5 [[1; 1; 1; 1; 1]; [1; 1; 1; 1; 1]]%float)
      0.25%float 1.8%float 1%float (3470, 5540)%float 2 false nearest in
  fst out = [warning1; warning2] /\
  option_map (fun z => length (layer0 z)) (snd out) = Some 4.
Proof. vm_compute. split; reflexivity. Qed.

End CollapseFacts.

(* ================================================================== *)
(** * Properties of [get_psf_curve_of_growth] *)
(* ================================================================== *)

Module GrowthFacts.

Import Stdlib.Reals.Reals Stdlib.micromega.Lra.
Import Np Rnp Growth NpFacts.
Open Scope R_scope.

Section ArgSort.

Variable key : nat -> R.

Let le_key (i j : nat) : Prop := key i <= key j.

Lemma insert_index_perm (i : nat) (l : list nat) :
  Permutation (insert_index key i l) (i :: l).
Proof.
  induction l as [|j l IH]; simpl; auto.
  destruct (Rle_dec (key i) (key j)); auto.
  rewrite IH. apply perm_swap.
Qed.

Lemma insert_index_hd (i j : nat) (l : list nat) :
  HdRel le_key j l -> le_key j i -> HdRel le_key j (insert_index key i l).
Proof.
  intros Hl Hji. destruct l as [|k l]; simpl; [now constructor|].
  destruct (Rle_dec (key i) (key k)); constructor; auto.
  now inversion Hl.
Qed.

Lemma insert_index_sorted (i : nat) (l : list nat) :
  Sorted le_key l -> Sorted le_key (insert_index key i l).
Proof.
  induction 1 as [|j l Hs IH Hhd]; simpl.
  - repeat constructor.
  - destruct (Rle_dec (key i) (key j)) as [Hle|Hgt].
    + constructor; [constructor; auto | constructor; exact Hle].
    + constructor; auto. apply insert_index_hd; auto.
      unfold le_key. lra.
Qed.

Lemma fold_insert_sorted (l : list nat) :
  Sorted le_key (fold_right (insert_index key) [] l).
Proof.
  induction l as [|i l IH]; simpl; [constructor|].
  now apply insert_index_sorted.
Qed.

Lemma fold_insert_perm (l : list nat) :
  Permutation (fold_right (insert_index key) [] l) l.
Proof.
  induction l as [|i l IH]; simpl; auto.
  rewrite insert_index_perm. now constructor.
Qed.

Lemma sorted_map_key (l : list nat) :
  Sorted le_key l -> Sorted Rle (map key l).
Proof.
  induction 1 as [|j l Hs IH Hhd]; simpl; constructor; auto.
  destruct Hhd; simpl; constructor; auto.
Qed.

End ArgSort.

Lemma take_seq (a : list R) : take a (seq 0 (length a)) = a.
Proof.
  unfold take. apply nth_ext with (d := 0) (d' := 0).
  - now rewrite length_map, length_seq.
  - intros n Hn. rewrite length_map, length_seq in Hn.
    rewrite (nth_map_lt _ _ _ 0%nat) by (rewrite length_seq; lia).
    now rewrite seq_nth.
Qed.

(** Sorting by insertion is an argsort. *)
Lemma stable_argsort_spec (a : list R) : is_argsort a (stable_argsort a).
Proof.
  split.
  - unfold stable_argsort. apply fold_insert_perm.
  - unfold take, stable_argsort.
    apply (sorted_map_key (fun i => nth i a 0)), fold_insert_sorted.
Qed.

(** [a[np.argsort(a)]] holds the entries of [a], each one once. *)
Lemma take_argsort_perm (a : list R) (inds : list nat) :
  is_argsort a inds -> Permutation (take a inds) a.
Proof.
  intros [Hp _].
  transitivity (take a (seq 0 (length a))); [|now rewrite take_seq].
  unfold take. now apply Permutation_map.
Qed.

Lemma compress_map_filter {A : Type} (f : A -> bool) (l : list A) :
  compress (map f l) l = filter f l.
Proof.
  induction l as [|x l IH]; simpl; auto.
  destruct (f x); now rewrite IH.
Qed.

Lemma compress_Forall {A : Type} (P : A -> Prop) (sel : list bool) (l : list A) :
  Forall P l -> Forall P (compress sel l).
Proof.
  intros H; revert sel; induction H as [|x l Hx Hl IH]; intros [|[] sel];
    simpl; auto.
Qed.

Lemma compress_length_eq {A B : Type} (sel : list bool) (l1 : list A) (l2 : list B) :
  length l1 = length l2 ->
  length (compress sel l1) = length (compress sel l2).
Proof.
  revert l1 l2; induction sel as [|s sel IH]; intros [|x l1] [|y l2] H;
    simpl in *; try discriminate; auto.
  destruct s; simpl; auto.
Qed.

Lemma filter_sorted (f : R -> bool) (l : list R) :
  Sorted Rle l -> Sorted Rle (filter f l).
Proof.
  intros H. apply Sorted_StronglySorted in H; [|exact Rle_trans].
  apply StronglySorted_Sorted.
  induction H as [|x l Hs IH Hall]; simpl; [constructor|].
  destruct (f x); auto. constructor; auto.
  rewrite Forall_forall in *. intros y Hy.
  apply filter_In in Hy. apply Hall, Hy.
Qed.

Lemma cumsum_from_lower (acc : R) (l : list R) :
  Forall (fun v => 0 <= v) l -> Forall (fun c => acc <= c) (cumsum_from acc l).
Proof.
  intros H; revert acc; induction H as [|x l Hx Hl IH]; intros acc; simpl;
    constructor; [lra|].
  eapply Forall_impl; [|apply IH]. simpl; intros; lra.
Qed.

(** The running sums of non-negative numbers never decrease. *)
Lemma cumsum_from_sorted (acc : R) (l : list R) :
  Forall (fun v => 0 <= v) l -> Sorted Rle (cumsum_from acc l).
Proof.
  intros H; revert acc; induction H as [|x l Hx Hl IH]; intros acc; simpl;
    constructor; auto.
  pose proof (cumsum_from_lower (acc + x) l Hl) as Hlow.
  destruct Hlow; simpl; constructor; auto.
Qed.

Lemma cumsum_from_last (acc : R) (l : list R) (d : R) :
  l <> [] -> last (cumsum_from acc l) d = acc + Rsum l.
Proof.
  revert acc; induction l as [|x l IH]; intros acc Hne; [contradiction|].
  destruct l as [|y l].
  - simpl. unfold Rsum; simpl. lra.
  - cbn [cumsum_from last] in *. rewrite IH by discriminate.
    unfold Rsum; simpl. lra.
Qed.

Lemma cumsum_from_length (acc : R) (l : list R) :
  length (cumsum_from acc l) = length l.
Proof. revert acc; induction l; intros; simpl; auto. Qed.

Lemma map_scale_sorted (s : R) (l : list R) :
  0 < s -> Sorted Rle l -> Sorted Rle (map (fun c => c / s) l).
Proof.
  intros Hs. pose proof (Rinv_0_lt_compat s Hs) as Hi.
  induction 1 as [|x l Hl IH Hhd]; simpl; constructor; auto.
  destruct Hhd; simpl; constructor.
  unfold Rdiv. apply Rmult_le_compat_r; lra.
Qed.

Lemma last_map {A B : Type} (f : A -> B) (l : list A) (d : A) (d' : B) :
  l <> [] -> last (map f l) d' = f (last l d).
Proof.
  induction l as [|x [|y l] IH]; intros H; simpl in *; auto;
    [contradiction | apply IH; discriminate].
Qed.

Lemma take_nonneg (a : list R) (inds : list nat) :
  Forall (fun v => 0 <= v) a -> Forall (fun v => 0 <= v) (take a inds).
Proof.
  intros Ha. unfold take. apply Forall_map, Forall_forall. intros i _.
  destruct (Nat.lt_ge_cases i (length a)) as [Hi|Hi].
  - rewrite Forall_forall in Ha. apply Ha, nth_In, Hi.
  - rewrite nth_overflow by lia. lra.
Qed.

Lemma window_radii_filter (np_argsort : list R -> list nat)
      (psf : psf_image) (maxr : R) :
  window_radii np_argsort psf maxr
  = filter (fun v => Rleb v maxr) (sorted_radii np_argsort psf).
Proof. unfold window_radii, within. apply compress_map_filter. Qed.

(** C5.  In exact arithmetic, and whatever order [np.argsort] gives to
    samples of equal radius: for a PSF image with a non-empty grid,
    non-negative intensities and a positive total intensity inside the
    window [radius <= maxr] ([maxr] the largest x-grid value),
    [get_psf_curve_of_growth] returns the radii of the grid samples inside
    the window in non-decreasing order, and a cumulative-fraction sequence
    of the same length that is non-decreasing and whose last element is 1.
    (In binary64 the last element is a running sum divided by a pairwise
    sum and need not be 1.0: the flat image of [Growth64] shows it.) *)
Theorem curve_of_growth_monotone (np_argsort : list R -> list nat)
        (psf : psf_image) (maxr : R) :
  is_argsort (radii psf) (np_argsort (radii psf)) ->
  amax (ravel (xgrid psf)) = Some maxr ->
  Forall (fun v => 0 <= v) (ravel (intensity psf)) ->
  0 < Rsum (window_intensity np_argsort psf maxr) ->
  exists rs cog,
    get_psf_curve_of_growth np_argsort psf = Some (rs, cog) /\
    Permutation (sorted_radii np_argsort psf) (radii psf) /\
    rs = filter (fun v => Rleb v maxr) (sorted_radii np_argsort psf) /\
    Sorted Rle rs /\
    Forall (fun v => v <= maxr) rs /\
    length cog = length rs /\
    Sorted Rle cog /\
    last cog 0 = 1.
Proof.
  intros Hsort Hmax Hpos Htot.
  exists (window_radii np_argsort psf maxr),
         (growth_curve (window_intensity np_argsort psf maxr)).
  assert (Hnn : Forall (fun v => 0 <= v) (window_intensity np_argsort psf maxr))
    by (apply compress_Forall, take_nonneg, Hpos).
  split; [unfold get_psf_curve_of_growth; now rewrite Hmax|].
  split; [now apply take_argsort_perm|].
  split; [apply window_radii_filter|].
  split; [rewrite window_radii_filter; apply filter_sorted, Hsort|].
  split.
  { rewrite window_radii_filter. apply Forall_forall. intros v Hv.
    apply filter_In in Hv. destruct Hv as [_ Hv]. unfold Rleb in Hv.
    destruct (Rle_dec v maxr); [assumption | discriminate]. }
  split.
  { unfold growth_curve, cumsum. rewrite length_map, cumsum_from_length.
    unfold window_intensity, window_radii.
    apply compress_length_eq. unfold sorted_radii, take.
    now rewrite !length_map. }
  split.
  { unfold growth_curve, cumsum.
    apply map_scale_sorted; [assumption|]. now apply cumsum_from_sorted. }
  assert (Hne : window_intensity np_argsort psf maxr <> []).
  { intros E. rewrite E in Htot. unfold Rsum in Htot; simpl in Htot. lra. }
  unfold growth_curve, cumsum.
  rewrite (last_map _ _ 0).
  - rewrite cumsum_from_last by assumption. field. lra.
  - intros E. apply (f_equal (@length R)) in E.
    rewrite cumsum_from_length in E.
    destruct (window_intensity np_argsort psf maxr);
      [now apply Hne | discriminate].
Qed.

Lemma two_samples_window :
  window_intensity stable_argsort two_samples (Rmax 0 1) = [1; 3].
Proof.
  assert (H0 : sqrt (0 * 0 + 0 * 0) = 0)
    by (replace (0 * 0 + 0 * 0) with 0 by ring; apply sqrt_0).
  assert (H1 : sqrt (1 * 1 + 0 * 0) = 1)
    by (replace (1 * 1 + 0 * 0) with 1 by ring; apply sqrt_1).
  assert (Hm : Rmax 0 1 = 1) by (apply Rmax_right; lra).
  unfold window_intensity, within, sorted_radii, radii, stable_argsort, take,
    ravel, two_samples, Rleb; simpl.
  rewrite H0, H1, Hm.
  repeat (destruct (Rle_dec _ _); simpl; try lra).
  all: reflexivity.
Qed.

Example curve_of_growth_monotone_witness :
  exists rs cog,
    get_psf_curve_of_growth stable_argsort two_samples = Some (rs, cog) /\
    Permutation (sorted_radii stable_argsort two_samples) (radii two_samples) /\
    rs = filter (fun v => Rleb v (Rmax 0 1))
                (sorted_radii stable_argsort two_samples) /\
    Sorted Rle rs /\
    Forall (fun v => v <= Rmax 0 1) rs /\
    length cog = length rs /\
    Sorted Rle cog /\
    last cog 0 = 1.
Proof.
  apply (curve_of_growth_monotone stable_argsort two_samples (Rmax 0 1)).
  - apply stable_argsort_spec.
  - reflexivity.
  - simpl. repeat constructor; lra.
  - rewrite two_samples_window. unfold Rsum; simpl. lra.
Defined.

End GrowthFacts.

(* ================================================================== *)
(** * [get_psf_curve_of_growth] in binary64 arithmetic *)
(* ================================================================== *)

Module Growth64Facts.

Import Np Collapse Growth64 NpFacts.
Open Scope float_scope.

Lemma compress_repeat (sel : list bool) (c : float) (n : nat) :
  length sel = n ->
  compress sel (repeat c n) = repeat c (length (filter (fun s => s) sel)).
Proof.
  revert n; induction sel as [|s sel IH]; intros [|n] H; simpl in *;
    try discriminate; auto.
  destruct s; simpl; rewrite IH by lia; reflexivity.
Qed.

Lemma filter_length_perm {A : Type} (f : A -> bool) (l l' : list A) :
  Permutation l l' -> length (filter f l) = length (filter f l').
Proof.
  induction 1 as [|x l l' H IH|x y l|l l' l'' H1 IH1 H2 IH2]; simpl; auto.
  - destruct (f x); simpl; auto.
  - destruct (f x), (f y); simpl; auto.
  - congruence.
Qed.

Lemma filter_map_length {A : Type} (g : A -> bool) (l : list A) :
  length (filter (fun s => s) (map g l)) = length (filter g l).
Proof.
  induction l as [|x l IH]; simpl; auto. destruct (g x); simpl; auto.
Qed.

Lemma take_flat (c d : float) (n : nat) (inds : list nat) :
  Forall (fun i => i < n) inds ->
  map (fun i => nth i (repeat c n) d) inds = repeat c (length inds).
Proof.
  induction 1 as [|i inds Hi _ IH]; simpl; auto.
  rewrite IH. f_equal. now apply nth_repeat_lt.
Qed.

(** On the flat image the curve does not depend on the order [np.argsort]
    gives to samples of equal radius: thirteen samples lie inside the
    window [radius <= 2], each of intensity 0.1. *)
Lemma flat_image_window (np_argsort : vec -> list nat) :
  Permutation (np_argsort (radii flat_image))
              (seq 0 (length (radii flat_image))) ->
  window_intensity np_argsort flat_image 2 = repeat 0.1 13%nat.
Proof.
  intros Hp. unfold window_intensity, within, sorted_radii, take.
  set (r := radii flat_image) in *.
  set (inds := np_argsort r) in *.
  assert (Hlen : length inds = 25%nat).
  { rewrite (Permutation_length Hp), length_seq. reflexivity. }
  assert (Hin : Forall (fun i => i < 25) inds).
  { apply Forall_forall. intros i Hi.
    apply (Permutation_in _ Hp), in_seq in Hi.
    change (length r) with 25%nat in Hi. lia. }
  change (concat (layer0 flat_image)) with (repeat 0.1 25).
  rewrite (take_flat 0.1 nan 25 inds Hin), Hlen.
  rewrite compress_repeat by (rewrite !length_map; exact Hlen).
  f_equal. rewrite map_map, filter_map_length.
  rewrite (filter_length_perm _ _ _ Hp).
  vm_compute. reflexivity.
Qed.

(** The last element of the curve of growth of the flat image, for every
    order of the samples of equal radius: the running sum of thirteen
    times 0.1 is 1.3, their pairwise sum is 1.3000000000000003, and the
    quotient is below 1. *)
Lemma flat_image_last (np_argsort : vec -> list nat) :
  Permutation (np_argsort (radii flat_image))
              (seq 0 (length (radii flat_image))) ->
  option_map (fun rc => last (snd rc) 0)
             (get_psf_curve_of_growth np_argsort flat_image)
  = Some 0.9999999999999998.
Proof.
  intros Hp. unfold get_psf_curve_of_growth.
  change (amax (concat (layer1 flat_image))) with (Some 2).
  cbn [option_map snd]. rewrite (flat_image_window np_argsort Hp).
  vm_compute. reflexivity.
Qed.

(** The final element of the curve of growth need not be 1.0.  The flat
    image has non-negative intensities and a positive total inside the
    window; in binary64 the curve [get_psf_curve_of_growth] returns for it
    ends with [1.3 / 1.3000000000000003 = 0.9999999999999998]. *)
Lemma curve_of_growth_last_is_not_one :
  Forall (Forall (fun v => (0 <=? v) = true)) (layer0 flat_image) /\
  (0 <? sum (window_intensity stable_argsort flat_image 2)) = true /\
  get_psf_curve_of_growth stable_argsort flat_image
  = Some ([0; 1; 1; 1; 1; sqrt 2; sqrt 2; sqrt 2; sqrt 2; 2; 2; 2; 2],
          [0.1 / 1.3000000000000003; 0.2 / 1.3000000000000003;
           0.30000000000000004 / 1.3000000000000003;
           0.4 / 1.3000000000000003; 0.5 / 1.3000000000000003;
           0.6 / 1.3000000000000003; 0.7 / 1.3000000000000003;
           0.7999999999999999 / 1.3000000000000003;
           0.8999999999999999 / 1.3000000000000003;
           0.9999999999999999 / 1.3000000000000003;
           1.0999999999999999 / 1.3000000000000003;
           1.2 / 1.3000000000000003;
           1.3 / 1.3000000000000003]) /\
  1.3 / 1.3000000000000003 = 0.9999999999999998 /\
  (0.9999999999999998 <? 1) = true.
Proof.
  split; [repeat constructor|].
  vm_compute. repeat split; reflexivity.
Qed.

End Growth64Facts.

(* ================================================================== *)
(** * Properties of the PSF builders *)
(* ================================================================== *)

Module PsfFacts.

Import Stdlib.Reals.Reals Stdlib.micromega.Lra.
Import Np Rnp Geometry Psf NpFacts.
Open Scope R_scope.

Lemma Rsum_app (l1 l2 : list R) : Rsum (l1 ++ l2) = Rsum l1 + Rsum l2.
Proof.
  unfold Rsum. induction l1 as [|x l1 IH]; simpl; [lra|]. rewrite IH. lra.
Qed.

Lemma Rsum_map_div (s : R) (l : list R) :
  Rsum (map (fun v => v / s) l) = Rsum l / s.
Proof.
  unfold Rsum. induction l as [|x l IH]; simpl.
  - unfold Rdiv. ring.
  - rewrite IH. unfold Rdiv. ring.
Qed.

Lemma Rsum2_map_div (s : R) (m : list (list R)) :
  Rsum2 (map (map (fun v => v / s)) m) = Rsum2 m / s.
Proof.
  unfold Rsum2, ravel. rewrite <- concat_map. apply Rsum_map_div.
Qed.

(** Dividing an array by its own sum, when that sum is not zero, leaves an
    array of sum 1. *)
Lemma normalise_sum (z : psf_image) :
  Rsum2 (intensity z) <> 0 -> Rsum2 (intensity (normalise z)) = 1.
Proof.
  intros Hs. unfold normalise; simpl. rewrite Rsum2_map_div. now field.
Qed.

Lemma normalise_grids (z : psf_image) :
  xgrid (normalise z) = xgrid z /\ ygrid (normalise z) = ygrid z.
Proof. split; reflexivity. Qed.

Lemma Rceil_ge_1 (x : R) : 1 <= x -> (1 <= Rceil x)%Z.
Proof.
  intros Hx. unfold Rceil. destruct (archimed (- x)) as [_ Hup].
  assert (H : IZR (up (- x)) <= IZR 0) by (simpl; lra).
  apply le_IZR in H. lia.
Qed.

Lemma arange_nonempty (start stop step : R) :
  0 < step -> step <= stop - start ->
  exists v l, arange start stop step = v :: l.
Proof.
  intros Hstep Hspan. unfold arange.
  assert (Hq : 1 <= (stop - start) / step).
  { apply Rmult_le_reg_r with step; [assumption|].
    replace ((stop - start) / step * step) with (stop - start)
      by (field; lra).
    lra. }
  apply Rceil_ge_1 in Hq.
  destruct (Z.to_nat (Rceil ((stop - start) / step))) as [|n] eqn:E; [lia|].
  simpl. eauto.
Qed.

Lemma Rsum_nonneg (l : list R) : Forall (fun v => 0 < v) l -> 0 <= Rsum l.
Proof.
  unfold Rsum. induction 1 as [|x l Hx Hl IH]; simpl; lra.
Qed.

Lemma Rsum_pos (l : list R) :
  Forall (fun v => 0 < v) l -> l <> [] -> 0 < Rsum l.
Proof.
  intros H Hne. destruct H as [|x l Hx Hl]; [contradiction|].
  pose proof (Rsum_nonneg l Hl). unfold Rsum in *; simpl. lra.
Qed.

(** On the grid of a positive pitch and a non-negative box size, an
    everywhere positive profile has a positive sum. *)
Lemma grid_sum_pos (f : R -> R -> R) (boxsize scale : R) :
  0 < scale -> 0 <= boxsize -> (forall x y, 0 < f x y) ->
  0 < Rsum2 (map2 (map2 f) (fst (psf_grid boxsize scale))
                           (snd (psf_grid boxsize scale))).
Proof.
  intros Hs Hb Hf. unfold psf_grid, meshgrid. cbv zeta. cbn [fst snd].
  destruct (arange_nonempty (0 - boxsize / 2) (0 + boxsize / 2 + scale) scale)
    as (x0 & xs & Ex); [lra | lra |].
  rewrite Ex. unfold Rsum2, ravel. apply Rsum_pos.
  - apply Forall_concat. apply map2_Forall. intros x y.
    apply map2_Forall. intros; apply Hf.
  - simpl. discriminate.
Qed.

Lemma Gaussian2D_evaluate_pos (x_stddev y_stddev theta x y : R) :
  0 < Gaussian2D_evaluate x_stddev y_stddev theta x y.
Proof.
  unfold Gaussian2D_evaluate. cbv zeta. rewrite Rmult_1_l. apply exp_pos.
Qed.

Lemma Moffat2D_evaluate_pos (gamma alpha x y : R) :
  0 < Moffat2D_evaluate gamma alpha x y.
Proof.
  unfold Moffat2D_evaluate, Rpower. cbv zeta. rewrite Rmult_1_l. apply exp_pos.
Qed.

(** With astropy's closed forms the Gaussian and Moffat builders are valid
    for every positive pitch and non-negative box size. *)
Lemma closed_forms_valid (xstd ystd theta seeing alpha boxsize scale : R) :
  0 < scale -> 0 <= boxsize ->
  0 < Rsum2 (intensity (gaussian_raw Gaussian2D_evaluate xstd ystd theta boxsize scale)) /\
  0 < Rsum2 (intensity (moffat_raw Moffat2D_evaluate seeing boxsize scale alpha)).
Proof.
  intros Hs Hb. unfold gaussian_raw, moffat_raw. cbv zeta.
  pose proof (grid_sum_pos (Gaussian2D_evaluate xstd ystd theta)
                boxsize scale Hs Hb
                (Gaussian2D_evaluate_pos xstd ystd theta)) as Hg.
  pose proof (grid_sum_pos
                (Moffat2D_evaluate
                   (1 / 2 * seeing / sqrt (Rpower 2 (1 / alpha) - 1)) alpha)
                boxsize scale Hs Hb
                (Moffat2D_evaluate_pos _ alpha)) as Hm.
  destruct (psf_grid boxsize scale) as [xg yg]. simpl in *. auto.
Qed.

Lemma constant_tophat_valid (radius fibradius boxsize scale : R) :
  0 < scale -> 0 <= boxsize ->
  0 < Rsum2 (intensity (tophat_raw (fun _ _ _ => Some 1)
                                   radius boxsize scale fibradius)).
Proof.
  intros Hs Hb. unfold tophat_raw. cbv zeta.
  pose proof (grid_sum_pos (fun _ _ => 1) boxsize scale Hs Hb
                (fun _ _ => Rlt_0_1)) as Ht.
  destruct (psf_grid boxsize scale) as [xg yg]. simpl in *. exact Ht.
Qed.

Section Builders.

Variable griddata : list (R * R) -> list R -> R * R -> option R.
Variable Gaussian2D : R -> R -> R -> R -> R -> R.
Variable Moffat2D : R -> R -> R -> R -> R.

(** C4.  Each of the three builders returns the three layers of its
    un-normalised image with the intensity layer divided by its sum: whenever
    that sum is not zero (the valid parameters), the intensity layer returned
    sums to 1, exactly in exact arithmetic and so within every tolerance,
    and the two grid layers are returned unchanged. *)
Theorem psf_builders_sum_to_one
        (radius fibradius xstd ystd theta seeing alpha boxsize scale : R) :
  Rsum2 (intensity (tophat_raw griddata radius boxsize scale fibradius)) <> 0 ->
  Rsum2 (intensity (gaussian_raw Gaussian2D xstd ystd theta boxsize scale)) <> 0 ->
  Rsum2 (intensity (moffat_raw Moffat2D seeing boxsize scale alpha)) <> 0 ->
  (Rsum2 (intensity (tophat_psf griddata radius boxsize scale fibradius)) = 1 /\
   Rsum2 (intensity (gaussian_psf Gaussian2D xstd ystd theta boxsize scale)) = 1 /\
   Rsum2 (intensity (moffat_psf Moffat2D seeing boxsize scale alpha)) = 1) /\
  (forall tol, 0 <= tol ->
     Rabs (Rsum2 (intensity (tophat_psf griddata radius boxsize scale fibradius)) - 1) <= tol /\
     Rabs (Rsum2 (intensity (gaussian_psf Gaussian2D xstd ystd theta boxsize scale)) - 1) <= tol /\
     Rabs (Rsum2 (intensity (moffat_psf Moffat2D seeing boxsize scale alpha)) - 1) <= tol) /\
  (xgrid (tophat_psf griddata radius boxsize scale fibradius), 
   ygrid (tophat_psf griddata radius boxsize scale fibradius)) = psf_grid boxsize scale /\
  (xgrid (gaussian_psf Gaussian2D xstd ystd theta boxsize scale),
   ygrid (gaussian_psf Gaussian2D xstd ystd theta boxsize scale)) = psf_grid boxsize scale /\
  (xgrid (moffat_psf Moffat2D seeing boxsize scale alpha),
   ygrid (moffat_psf Moffat2D seeing boxsize scale alpha)) = psf_grid boxsize scale.
Proof.
  intros Ht Hg Hm.
  pose proof (normalise_sum _ Ht) as St.
  pose proof (normalise_sum _ Hg) as Sg.
  pose proof (normalise_sum _ Hm) as Sm.
  fold (tophat_psf griddata radius boxsize scale fibradius) in St.
  fold (gaussian_psf Gaussian2D xstd ystd theta boxsize scale) in Sg.
  fold (moffat_psf Moffat2D seeing boxsize scale alpha) in Sm.
  split; [auto|]. split.
  { intros tol Htol. rewrite St, Sg, Sm.
    replace (1 - 1) with 0 by ring. rewrite Rabs_R0. auto. }
  unfold tophat_psf, gaussian_psf, moffat_psf, tophat_raw, gaussian_raw,
    moffat_raw.
  destruct (psf_grid boxsize scale) as [xg yg]. simpl. auto.
Qed.

End Builders.

(** The default shapes on a box of side 4 sampled every quarter: astropy's
    closed forms for the two analytic profiles, and an interpolator that
    answers 1 everywhere for the tophat. *)
Example psf_builders_sum_to_one_witness :
  let g : list (R * R) -> list R -> R * R -> option R := fun _ _ _ => Some 1 in
  (Rsum2 (intensity (tophat_psf g 1 4 (1 / 4) (3 / 4))) = 1 /\
   Rsum2 (intensity (gaussian_psf Gaussian2D_evaluate 1 1 0 4 (1 / 4))) = 1 /\
   Rsum2 (intensity (moffat_psf Moffat2D_evaluate 2 4 (1 / 4) (7 / 2))) = 1) /\
  (forall tol, 0 <= tol ->
     Rabs (Rsum2 (intensity (tophat_psf g 1 4 (1 / 4) (3 / 4))) - 1) <= tol /\
     Rabs (Rsum2 (intensity (gaussian_psf Gaussian2D_evaluate 1 1 0 4 (1 / 4))) - 1) <= tol /\
     Rabs (Rsum2 (intensity (moffat_psf Moffat2D_evaluate 2 4 (1 / 4) (7 / 2))) - 1) <= tol) /\
  (xgrid (tophat_psf g 1 4 (1 / 4) (3 / 4)),
   ygrid (tophat_psf g 1 4 (1 / 4) (3 / 4))) = psf_grid 4 (1 / 4) /\
  (xgrid (gaussian_psf Gaussian2D_evaluate 1 1 0 4 (1 / 4)),
   ygrid (gaussian_psf Gaussian2D_evaluate 1 1 0 4 (1 / 4))) = psf_grid 4 (1 / 4) /\
  (xgrid (moffat_psf Moffat2D_evaluate 2 4 (1 / 4) (7 / 2)),
   ygrid (moffat_psf Moffat2D_evaluate 2 4 (1 / 4) (7 / 2))) = psf_grid 4 (1 / 4).
Proof.
  intros g. unfold g. clear g.
  apply (psf_builders_sum_to_one (fun _ _ _ => Some 1) Gaussian2D_evaluate Moffat2D_evaluate
           1 (3 / 4) 1 1 0 2 (7 / 2) 4 (1 / 4)).
  - apply Rgt_not_eq, Rlt_gt, constant_tophat_valid; lra.
  - apply Rgt_not_eq, Rlt_gt.
    apply (closed_forms_valid 1 1 0 2 (7 / 2) 4 (1 / 4)); lra.
  - apply Rgt_not_eq, Rlt_gt.
    apply (closed_forms_valid 1 1 0 2 (7 / 2) 4 (1 / 4)); lra.
Defined.

End PsfFacts.

(* ================================================================== *)
(** * Properties of [build_weights] *)
(* ================================================================== *)

Module WeightsFacts.

Import Stdlib.Reals.Reals Stdlib.micromega.Lra.
Import Np Rnp Weights NpFacts.
Open Scope R_scope.

Lemma Rleb_true (x y : R) : Rleb x y = true -> x <= y.
Proof. unfold Rleb. destruct (Rle_dec x y); [auto | discriminate]. Qed.

Lemma nth_nonneg (l : list R) (i : nat) :
  Forall (fun v => 0 <= v) l -> 0 <= nth i l 0.
Proof.
  intros H. destruct (Nat.lt_ge_cases i (length l)) as [Hi|Hi].
  - rewrite Forall_forall in H. apply H, nth_In, Hi.
  - rewrite nth_overflow by lia. lra.
Qed.

Section Interpolator.

Variable delaunay : list (R * R) -> list (nat * nat * nat).

(** The interpolant of non-negative samples with fill value 0 is
    non-negative: inside a simplex it is a combination of three samples with
    non-negative coefficients. *)
Lemma LinearNDInterpolator_nonneg (T : list (R * R)) (values : list R) (p : R * R) :
  Forall (fun v => 0 <= v) values ->
  0 <= LinearNDInterpolator delaunay T values 0 p.
Proof.
  intros Hv. unfold LinearNDInterpolator.
  destruct (find (inside T p) (delaunay T)) as [[[i j] k]|] eqn:E; [|lra].
  apply find_some in E. destruct E as [_ Hin]. unfold inside in Hin.
  destruct (coordinates T p (i, j, k)) as [[l1 l2] l3].
  apply andb_prop in Hin. destruct Hin as [H12 H3].
  apply andb_prop in H12. destruct H12 as [H1 H2].
  apply Rleb_true in H1, H2, H3.
  pose proof (nth_nonneg values i Hv). pose proof (nth_nonneg values j Hv).
  pose proof (nth_nonneg values k Hv).
  repeat apply Rplus_le_le_0_compat; apply Rmult_le_pos; assumption.
Qed.

Lemma LinearNDInterpolator_outside (T : list (R * R)) (values : list R)
      (fill_value : R) (p : R * R) :
  find (inside T p) (delaunay T) = None ->
  LinearNDInterpolator delaunay T values fill_value p = fill_value.
Proof. intros E. unfold LinearNDInterpolator. now rewrite E. Qed.

Lemma build_weights_entry (wave ADRx ADRy : list R) (xc yc : R)
      (ifux ifuy : list R) (psf : psf_image) (f i : nat) (d : R) :
  (f < length ifux)%nat -> (f < length ifuy)%nat -> (i < length wave)%nat ->
  nth i (nth f (build_weights delaunay wave ADRx ADRy xc yc ifux ifuy psf) []) d
  = LinearNDInterpolator delaunay (sample_points psf) (ravel (intensity psf)) 0
      (fiber_position ADRx ADRy xc yc (nth f ifux 0) (nth f ifuy 0) i)
    * (3 / 4 * (3 / 4) * PI) / (pixel_scale psf * pixel_scale psf).
Proof.
  intros Hf Hf' Hi. unfold build_weights. cbv zeta.
  rewrite (nth_map2 _ _ _ _ 0 0) by assumption.
  rewrite (nth_map_lt _ _ _ 0%nat) by (rewrite length_seq; assumption).
  now rewrite seq_nth.
Qed.

(** C8.  For a PSF image with a non-negative intensity layer and two
    distinct leading x-grid samples, every entry of the matrix
    [build_weights] returns is non-negative; the matrix has one row per
    fiber and one column per wavelength; and the entry of a fiber whose
    shifted position lies in no simplex of the triangulation of the PSF
    samples is exactly 0, the interpolator's fill value scaled. *)
Theorem build_weights_nonneg (wave ADRx ADRy : list R) (xc yc : R)
        (ifux ifuy : list R) (psf : psf_image) :
  Forall (fun v => 0 <= v) (ravel (intensity psf)) ->
  pixel_scale psf <> 0 ->
  length ifux = length ifuy ->
  let weights := build_weights delaunay wave ADRx ADRy xc yc ifux ifuy psf in
  length weights = length ifux /\
  Forall (fun row => length row = length wave) weights /\
  Forall (Forall (fun w => 0 <= w)) weights /\
  forall f i, (f < length ifux)%nat -> (i < length wave)%nat ->
    find (inside (sample_points psf)
                 (fiber_position ADRx ADRy xc yc (nth f ifux 0) (nth f ifuy 0) i))
         (delaunay (sample_points psf)) = None ->
    nth i (nth f weights []) 1 = 0.
Proof.
  intros Hv Hs Hlen weights.
  assert (Hs2 : 0 < pixel_scale psf * pixel_scale psf) by nra.
  assert (Harea : 0 <= 3 / 4 * (3 / 4) * PI) by (pose proof PI_RGT_0; nra).
  split; [|split; [|split]].
  - unfold weights, build_weights. cbv zeta. rewrite length_map2. lia.
  - unfold weights, build_weights. cbv zeta. apply map2_Forall.
    intros x y. now rewrite length_map, length_seq.
  - unfold weights, build_weights. cbv zeta. apply map2_Forall.
    intros x y. apply Forall_map, Forall_forall. intros i _.
    pose proof (LinearNDInterpolator_nonneg (sample_points psf) _
                  (fiber_position ADRx ADRy xc yc x y i) Hv) as HI.
    apply Rmult_le_pos; [now apply Rmult_le_pos|].
    left. now apply Rinv_0_lt_compat.
  - intros f i Hf Hi Hout. unfold weights.
    rewrite build_weights_entry by (auto; lia).
    rewrite LinearNDInterpolator_outside by assumption.
    unfold Rdiv. ring.
Qed.

End Interpolator.

(** A PSF of two by two samples on the unit square, cut into two triangles
    along its diagonal, and two fibers: the first one falls on the first
    sample, the second one outside the square. *)
Example build_weights_nonneg_witness :
  let psf := mkpsf [[1; 2]; [3; 4]] [[0; 1]; [0; 1]] [[0; 0]; [1; 1]] in
  let delaunay := fun _ : list (R * R) => [(0, 1, 2); (1, 2, 3)]%nat in
  let weights := build_weights delaunay [3500; 4500] [0; 0] [0; 0] 0 0
                               [0; 5] [0; 5] psf in
  length weights = 2%nat /\
  Forall (fun row => length row = 2%nat) weights /\
  Forall (Forall (fun w => 0 <= w)) weights /\
  forall f i, (f < 2)%nat -> (i < 2)%nat ->
    find (inside (sample_points psf)
                 (fiber_position [0; 0] [0; 0] 0 0
                                 (nth f [0; 5] 0) (nth f [0; 5] 0) i))
         (delaunay (sample_points psf)) = None ->
    nth i (nth f weights []) 1 = 0.
Proof.
  intros psf delaunay.
  apply (build_weights_nonneg delaunay [3500; 4500] [0; 0] [0; 0] 0 0
           [0; 5] [0; 5] psf).
  - simpl. repeat constructor; lra.
  - unfold pixel_scale; simpl. replace (1 - 0) with 1 by ring.
    rewrite Rabs_R1. lra.
  - reflexivity.
Defined.

(** The second fiber of that example lies in neither triangle, and its
    weight is 0 at the first wavelength. *)
Example fiber_outside_support :
  let psf := mkpsf [[1; 2]; [3; 4]] [[0; 1]; [0; 1]] [[0; 0]; [1; 1]] in
  let delaunay := fun _ : list (R * R) => [(0, 1, 2); (1, 2, 3)]%nat in
  nth 0 (nth 1 (build_weights delaunay [3500; 4500] [0; 0] [0; 0] 0 0
                              [0; 5] [0; 5] psf) []) 1 = 0.
Proof.
  intros psf delaunay.
  rewrite build_weights_entry by (simpl; lia).
  rewrite LinearNDInterpolator_outside; [unfold Rdiv; ring|].
  unfold delaunay, inside, coordinates, barycentric, sample_points,
    fiber_position, Rleb; simpl.
  assert (H1 : ((0 - 1) * (5 - 0 - 0 - 0) + (0 - 1) * (5 - 0 - 0 - 1))
               / ((0 - 1) * (0 - 0) + (0 - 1) * (0 - 1)) = -9)
    by (field; lra).
  assert (H2 : ((1 - 1) * (5 - 0 - 0 - 1) + (1 - 0) * (5 - 0 - 0 - 1))
               / ((1 - 1) * (1 - 1) + (1 - 0) * (0 - 1)) = -4)
    by (field; lra).
  rewrite H1, H2.
  destruct (Rle_dec 0 (-9)); [lra|]. destruct (Rle_dec 0 (-4)); [lra|].
  reflexivity.
Qed.

End WeightsFacts.

(* ================================================================== *)
(** * Zeros, NaN and comparisons in binary64 arithmetic *)
(* ================================================================== *)

Module FloatFacts.

Import Np Binary64 NpFacts.
Open Scope float_scope.

Lemma Prim2SF_nan (x : float) : Prim2SF x = S754_nan -> x = nan.
Proof.
  intros H. rewrite <- (SF2Prim_Prim2SF x), H. reflexivity.
Qed.

Lemma zero_is_zero_or_nan : zero_or_nan 0.
Proof. exact I. Qed.

Lemma eqb_zero (x : float) : (x =? 0) = true -> zero_or_nan x.
Proof.
  rewrite eqb_spec. unfold zero_or_nan, SFeqb.
  change (Prim2SF 0) with (S754_zero false).
  destruct (Prim2SF x) as [s| s| |s m e]; simpl; auto; destruct s; discriminate.
Qed.

Lemma mul_zero_or_nan_r (x z : float) : zero_or_nan z -> zero_or_nan (x * z).
Proof.
  unfold zero_or_nan. rewrite mul_spec. unfold SF64mul.
  destruct (Prim2SF z) as [sz| sz| |sz mz ez]; try contradiction; intros _;
    destruct (Prim2SF x) as [sx| sx| |sx mx ex]; simpl; exact I.
Qed.

Lemma mul_zero_or_nan_l (x z : float) : zero_or_nan z -> zero_or_nan (z * x).
Proof.
  unfold zero_or_nan. rewrite mul_spec. unfold SF64mul.
  destruct (Prim2SF z) as [sz| sz| |sz mz ez]; try contradiction; intros _;
    destruct (Prim2SF x) as [sx| sx| |sx mx ex]; simpl; exact I.
Qed.

Lemma add_zero_or_nan (x y : float) :
  zero_or_nan x -> zero_or_nan y -> zero_or_nan (x + y).
Proof.
  unfold zero_or_nan. rewrite add_spec. unfold SF64add.
  destruct (Prim2SF x) as [sx| sx| |sx mx ex]; try contradiction; intros _;
    destruct (Prim2SF y) as [sy| sy| |sy my ey]; try contradiction; intros _;
    simpl; try exact I; destruct sx, sy; exact I.
Qed.

Lemma sqrt_zero_or_nan (x : float) : zero_or_nan x -> zero_or_nan (sqrt x).
Proof.
  unfold zero_or_nan. rewrite sqrt_spec. unfold SF64sqrt.
  destruct (Prim2SF x) as [sx| sx| |sx mx ex]; try contradiction; intros _;
    simpl; exact I.
Qed.

(** Zero or NaN divided by zero or NaN is NaN. *)
Lemma div_zero_or_nan (x y : float) :
  zero_or_nan x -> zero_or_nan y -> x / y = nan.
Proof.
  unfold zero_or_nan. intros Hx Hy. apply Prim2SF_nan.
  rewrite div_spec. unfold SF64div.
  destruct (Prim2SF x) as [sx| sx| |sx mx ex]; try contradiction;
    destruct (Prim2SF y) as [sy| sy| |sy my ey]; try contradiction;
    reflexivity.
Qed.

(** A sum of zeros and NaN, in whatever order, is a zero or NaN. *)
Lemma summation_zero_or_nan (l : vec) (s : float) :
  summation l s -> Forall zero_or_nan l -> zero_or_nan s.
Proof.
  induction 1 as [|x|l1 l2 s1 s2 H1 IH1 H2 IH2|l l' s HP H IH]; intros Hl.
  - exact zero_is_zero_or_nan.
  - now inversion Hl.
  - apply Forall_app in Hl. destruct Hl. apply add_zero_or_nan; auto.
  - apply IH. eapply Permutation_Forall; [|exact Hl].
    now apply Permutation_sym.
Qed.

Lemma add_nan_r (x : float) : x + nan = nan.
Proof.
  apply Prim2SF_nan. rewrite add_spec. unfold SF64add.
  change (Prim2SF nan) with S754_nan.
  destruct (Prim2SF x) as [sx| sx| |sx mx ex]; reflexivity.
Qed.

Lemma mul_nan_r (x : float) : x * nan = nan.
Proof.
  apply Prim2SF_nan. rewrite mul_spec. unfold SF64mul.
  change (Prim2SF nan) with S754_nan.
  destruct (Prim2SF x) as [sx| sx| |sx mx ex]; reflexivity.
Qed.

Lemma ltb_nan_r (x : float) : (x <? nan) = false.
Proof.
  rewrite ltb_spec. change (Prim2SF nan) with S754_nan. unfold SFltb.
  destruct (Prim2SF x) as [sx| sx| |sx mx ex]; reflexivity.
Qed.

Lemma ltb_nan_l (x : float) : (nan <? x) = false.
Proof.
  rewrite ltb_spec. change (Prim2SF nan) with S754_nan. reflexivity.
Qed.

Lemma leb_nan_l (x : float) : (nan <=? x) = false.
Proof.
  rewrite leb_spec. change (Prim2SF nan) with S754_nan. reflexivity.
Qed.

Lemma SFcompare_refl (f : spec_float) :
  f <> S754_nan -> SFcompare f f = Some Eq.
Proof.
  destruct f as [s| s| |s m e]; intros H; simpl; try contradiction; auto.
  - destruct s; reflexivity.
  - rewrite Z.compare_refl.
    replace (Pos.compare_cont Eq m m) with Eq
      by (symmetry; apply Pos.compare_cont_refl).
    destruct s; reflexivity.
Qed.

(** No binary64 number is below itself. *)
Lemma ltb_irrefl (x : float) : (x <? x) = false.
Proof.
  rewrite ltb_spec. unfold SFltb.
  destruct (Prim2SF x) as [s| s| |s m e] eqn:E; try reflexivity;
    rewrite SFcompare_refl; auto; discriminate.
Qed.

(** Every binary64 number other than NaN is at most itself. *)
Lemma leb_refl (x : float) : x <> nan -> (x <=? x) = true.
Proof.
  intros Hx. rewrite leb_spec. unfold SFleb.
  rewrite SFcompare_refl; auto.
  intros E. apply Hx, Prim2SF_nan, E.
Qed.

Lemma add_nan_l (x : float) : nan + x = nan.
Proof.
  apply Prim2SF_nan. rewrite add_spec. reflexivity.
Qed.

(** A sum with a NaN entry, in whatever order, is NaN. *)
Lemma summation_nan (l : vec) (s : float) :
  summation l s -> In nan l -> s = nan.
Proof.
  induction 1 as [|x|l1 l2 s1 s2 H1 IH1 H2 IH2|l l' s HP H IH]; intros Hin.
  - contradiction.
  - destruct Hin as [<-|[]]. reflexivity.
  - apply in_app_or in Hin. destruct Hin as [Hin|Hin].
    + rewrite (IH1 Hin). apply add_nan_l.
    + rewrite (IH2 Hin). apply add_nan_r.
  - apply IH. eapply Permutation_in; [|exact Hin].
    now apply Permutation_sym.
Qed.

End FloatFacts.

(* ================================================================== *)
(** * Edge cases of [get_spectrum] *)
(* ================================================================== *)

Module SpectrumEdgeFacts.

Import Np Binary64 Spectrum NpFacts SpectrumFacts FloatFacts.
Open Scope float_scope.

(** A wavelength channel in which every fiber has weight zero is NaN in
    both outputs of [get_spectrum], whatever the order in which numpy adds:
    its raw values are quotients of zeros (or of NaN), and overwriting them
    can only write NaN. *)
Theorem zero_weight_channel_is_nan
        (sum_flux sum_noise sum_weight : ndarray -> vec)
        (a b : nat) (data error mask weights : ndarray) (j : nat) :
  axis0_sum sum_flux -> axis0_sum sum_noise -> axis0_sum sum_weight ->
  has_shape a b data -> has_shape a b error ->
  has_shape a b mask -> has_shape a b weights ->
  j < b ->
  (forall i, i < a -> (get weights i j =? 0) = true) ->
  let out := get_spectrum sum_flux sum_noise sum_weight
                          data error mask weights in
  nth j (fst out) 0 = nan /\ nth j (snd out) 0 = nan.
Proof.
  intros Sf Sn Sw Hd He Hm Hw Hj Hz out. subst out.
  assert (Hzn : forall i, i < a -> zero_or_nan (get weights i j))
    by (intros i Hi; apply eqb_zero, Hz, Hi).
  pose proof (channel_weight_nth sum_weight Sw a b mask weights j Hm Hw Hj)
    as HW.
  assert (Hden : zero_or_nan
                   (nth j (channel_weight sum_weight mask weights) nan)).
  { apply (summation_zero_or_nan _ _ HW).
    apply Forall_map, Forall_forall. intros i Hi. apply in_seq in Hi.
    apply mul_zero_or_nan_r, mul_zero_or_nan_r, Hzn. lia. }
  assert (Hraw : nth j (raw_spectrum sum_flux sum_weight data mask weights) nan
                 = nan).
  { destruct (raw_spectrum_nth sum_flux sum_weight Sf Sw a b data mask
                weights j) as (F & HF & EF); auto.
    rewrite EF. apply div_zero_or_nan; [|exact Hden].
    apply (summation_zero_or_nan _ _ HF).
    apply Forall_map, Forall_forall. intros i Hi. apply in_seq in Hi.
    apply mul_zero_or_nan_r, Hzn. lia. }
  assert (Herr : nth j (raw_spectrum_error sum_noise sum_weight
                          error mask weights) nan = nan).
  { destruct (raw_spectrum_error_nth sum_noise sum_weight Sn Sw a b error
                mask weights j) as (N & HN & EN); auto.
    rewrite EN. apply div_zero_or_nan; [|exact Hden].
    apply sqrt_zero_or_nan, (summation_zero_or_nan _ _ HN).
    apply Forall_map, Forall_forall. intros i Hi. apply in_seq in Hi.
    apply mul_zero_or_nan_r, Hzn. lia. }
  pose proof (channel_weight_length sum_weight Sw _ _ _ _ Hm Hw) as Hc.
  pose proof (raw_spectrum_length sum_flux sum_weight Sf Sw _ _ _ _ _ Hd Hm Hw)
    as Hs.
  pose proof (raw_spectrum_error_length sum_noise sum_weight Sn Sw
                _ _ _ _ _ He Hm Hw) as Hse.
  assert (Hsel : length (low_weight (channel_weight sum_weight mask weights))
                 = b)
    by (unfold low_weight; rewrite length_map; exact Hc).
  unfold get_spectrum; cbn [fst snd].
  rewrite !nth_putmask by lia.
  destruct (nth j (low_weight (channel_weight sum_weight mask weights)) false);
    auto.
  split.
  - rewrite (nth_indep _ 0 nan) by lia. exact Hraw.
  - rewrite (nth_indep _ 0 nan) by lia. exact Herr.
Qed.

Example zero_weight_channel_is_nan_witness :
  let data := mkarray 2 2 [[1; 2]; [3; 4]] in
  let error := mkarray 2 2 [[1; 1]; [1; 1]] in
  let mask := mkarray 2 2 [[1; 1]; [1; 1]] in
  let weights := mkarray 2 2 [[0.5; 0]; [0.25; -0]] in
  let S := sum_axis0_by_rows in
  let out := get_spectrum S S S data error mask weights in
  nth 1 (fst out) 0 = nan /\ nth 1 (snd out) 0 = nan.
Proof.
  intros data error mask weights S.
  apply (zero_weight_channel_is_nan S S S 2 2 data error mask weights 1);
    try exact sum_axis0_by_rows_spec; try (repeat constructor).
  intros [|[|i]] Hi; [reflexivity | reflexivity | lia].
Defined.

Lemma putmask_none (v : vec) (x : float) :
  putmask v (repeat false (length v)) x = v.
Proof.
  unfold putmask. induction v as [|y v IH]; simpl; auto. f_equal. exact IH.
Qed.

(** If one entry of [weights] is NaN, the per-channel weight of its channel
    is NaN whatever the order in which numpy adds, the median of the
    weights is NaN, no channel compares below the threshold, and
    [get_spectrum] returns the raw values of every channel: the low-weight
    rejection is switched off. *)
Theorem nan_weight_disables_masking
        (sum_flux sum_noise sum_weight : ndarray -> vec)
        (a b : nat) (data error mask weights : ndarray) (i0 j0 : nat) :
  axis0_sum sum_flux -> axis0_sum sum_noise -> axis0_sum sum_weight ->
  has_shape a b data -> has_shape a b error ->
  has_shape a b mask -> has_shape a b weights ->
  i0 < a -> j0 < b ->
  get weights i0 j0 = nan ->
  get_spectrum sum_flux sum_noise sum_weight data error mask weights
  = (raw_spectrum sum_flux sum_weight data mask weights,
     raw_spectrum_error sum_noise sum_weight error mask weights).
Proof.
  intros Sf Sn Sw Hd He Hm Hw Hi Hj Hn.
  pose proof (channel_weight_length sum_weight Sw _ _ _ _ Hm Hw) as Hc.
  pose proof (raw_spectrum_length sum_flux sum_weight Sf Sw _ _ _ _ _ Hd Hm Hw)
    as Hs.
  pose proof (raw_spectrum_error_length sum_noise sum_weight Sn Sw
                _ _ _ _ _ He Hm Hw) as Hse.
  assert (Hw0 : nth j0 (channel_weight sum_weight mask weights) nan = nan).
  { apply (summation_nan _ _
             (channel_weight_nth sum_weight Sw a b mask weights j0 Hm Hw Hj)).
    apply in_map_iff. exists i0. split; [|apply in_seq; lia].
    rewrite Hn. change (nan * nan) with nan. apply mul_nan_r. }
  assert (Hmed : median (channel_weight sum_weight mask weights) = nan).
  { unfold median.
    replace (existsb is_nan (channel_weight sum_weight mask weights))
      with true; auto.
    symmetry. apply existsb_exists. exists nan. split; [|reflexivity].
    rewrite <- Hw0. apply nth_In. lia. }
  assert (Hsel : low_weight (channel_weight sum_weight mask weights)
                 = repeat false
                     (length (channel_weight sum_weight mask weights))).
  { unfold low_weight. rewrite Hmed. change (nan * 0.1) with nan.
    generalize (channel_weight sum_weight mask weights).
    induction l as [|x l IH]; simpl; auto.
    now rewrite ltb_nan_r, IH. }
  unfold get_spectrum. rewrite Hsel, Hc. f_equal.
  - rewrite <- Hs. apply putmask_none.
  - rewrite <- Hse. apply putmask_none.
Qed.

Example nan_weight_disables_masking_witness :
  let data := mkarray 2 2 [[1; 2]; [3; 4]] in
  let error := mkarray 2 2 [[1; 1]; [1; 1]] in
  let mask := mkarray 2 2 [[1; 1]; [1; 1]] in
  let weights := mkarray 2 2 [[nan; 0]; [0.25; 0]] in
  let S := sum_axis0_by_rows in
  get_spectrum S S S data error mask weights
  = (raw_spectrum S S data mask weights,
     raw_spectrum_error S S error mask weights).
Proof.
  intros data error mask weights S.
  apply (nan_weight_disables_masking S S S 2 2 data error mask weights 0 0);
    try exact sum_axis0_by_rows_spec; try (repeat constructor).
Defined.

End SpectrumEdgeFacts.

(* ================================================================== *)
(** * Edge cases and invariants of [make_collapsed_image] *)
(* ================================================================== *)

Module CollapseEdgeFacts.

Import Np Collapse Session NpFacts FloatFacts CollapseFacts.
Open Scope nat_scope.

Lemma In_selected_indices (wave : vec) (wrange : float * float) (i : nat) :
  In i (selected_indices wave wrange (length wave)) <->
  i < length wave /\ in_wrange wrange (nth i wave nan) = true.
Proof.
  unfold selected_indices. rewrite In_compress_seq.
  unfold wave_selection. rewrite length_map, Nat.sub_0_r.
  split.
  - intros (H1 & H2 & H3). split; [lia|].
    now rewrite (nth_map_lt _ _ _ nan) in H3 by lia.
  - intros (H1 & H2). repeat split; try lia.
    now rewrite (nth_map_lt _ _ _ nan) by lia.
Qed.

(** The strict low bound and the NaN samples of the wavelength selection:
    a grid sample equal to [wrange[0]] is never selected, a NaN sample is
    never selected, and a sample equal to [wrange[1]] that is above
    [wrange[0]] is selected. *)
Theorem selection_bounds (wave : vec) (wrange : float * float) (b i : nat) :
  length wave = b -> i < b ->
  (nth i wave nan = fst wrange -> ~ In i (selected_indices wave wrange b)) /\
  (nth i wave nan = nan -> ~ In i (selected_indices wave wrange b)) /\
  (nth i wave nan = snd wrange -> (fst wrange <? snd wrange)%float = true ->
   In i (selected_indices wave wrange b)).
Proof.
  intros Hlen Hi. subst b. unfold in_wrange.
  repeat split.
  - intros E Hin. apply In_selected_indices in Hin. destruct Hin as [_ Hin].
    unfold in_wrange in Hin. rewrite E, ltb_irrefl in Hin. discriminate.
  - intros E Hin. apply In_selected_indices in Hin. destruct Hin as [_ Hin].
    unfold in_wrange in Hin. rewrite E, ltb_nan_r in Hin. discriminate.
  - intros E Hlt. apply In_selected_indices. split; [assumption|].
    unfold in_wrange. rewrite E, Hlt. apply leb_refl.
    intros Hn. rewrite Hn, ltb_nan_r in Hlt. discriminate.
Qed.

Example selection_bounds_witness :
  let wave := [3470; nan; 5540]%float in
  let wrange := (3470, 5540)%float in
  (nth 2 wave nan = fst wrange -> ~ In 2 (selected_indices wave wrange 3)) /\
  (nth 2 wave nan = nan -> ~ In 2 (selected_indices wave wrange 3)) /\
  (nth 2 wave nan = snd wrange -> (fst wrange <? snd wrange)%float = true ->
   In 2 (selected_indices wave wrange 3)).
Proof.
  intros wave wrange.
  apply (selection_bounds wave wrange 3 2); [reflexivity | lia].
Defined.

Lemma list_sum_repeat (x n : nat) : list_sum (repeat x n) = n * x.
Proof. induction n as [|n IH]; simpl; lia. Qed.

(** The section sizes add up to the number of entries. *)
Lemma section_sizes_sum (total n : nat) :
  n <> 0 -> list_sum (section_sizes total n) = total.
Proof.
  intros Hn. unfold section_sizes.
  rewrite list_sum_app, !list_sum_repeat.
  pose proof (Nat.div_mod_eq total n) as Hdm.
  pose proof (Nat.mod_upper_bound total n Hn) as Hlt.
  nia.
Qed.

Lemma split_by_concat {A : Type} (sizes : list nat) :
  forall l : list A, list_sum sizes = length l ->
  concat (split_by sizes l) = l /\ map (@length A) (split_by sizes l) = sizes.
Proof.
  induction sizes as [|k ks IH]; intros l Hsum; simpl in *.
  - destruct l; [auto | discriminate].
  - assert (Hk : k <= length l) by lia.
    destruct (IH (skipn k l)) as [Hc Hm];
      [rewrite length_skipn; lia|].
    rewrite Hc, Hm, firstn_skipn, length_firstn.
    split; [reflexivity | f_equal; lia].
Qed.

Lemma nth_section_sizes (total n k : nat) :
  k < n ->
  nth k (section_sizes total n) 0
  = total / n + (if k <? total mod n then 1 else 0).
Proof.
  intros Hk. unfold section_sizes.
  destruct (Nat.ltb_spec k (total mod n)) as [Hlt|Hge].
  - rewrite app_nth1 by (rewrite repeat_length; lia).
    rewrite nth_repeat_lt by lia. lia.
  - rewrite app_nth2 by (rewrite repeat_length; lia).
    rewrite repeat_length, nth_repeat_lt by lia. lia.
Qed.

Lemma array_split_lengths {A : Type} (l : list A) (n : nat) :
  n <> 0 ->
  length (array_split l n) = n /\
  forall k, k < n ->
    length (nth k (array_split l n) [])
    = length l / n + (if k <? length l mod n then 1 else 0).
Proof.
  intros Hn. unfold array_split.
  destruct (split_by_concat (section_sizes (length l) n) l
              (section_sizes_sum _ _ Hn)) as [Hc Hm].
  split; [now rewrite length_split_by, length_section_sizes|].
  intros k Hk.
  pose proof (nth_map_lt (@length A)
                (split_by (section_sizes (length l) n) l) k [] 0) as E.
  rewrite Hm in E. rewrite <- E.
  - now apply nth_section_sizes.
  - now rewrite length_split_by, length_section_sizes.
Qed.

(** [np.array_split] cuts a sequence into [n] consecutive sections that
    put together give the sequence back; section [k] holds
    [len / n] entries, one more for the first [len mod n] sections. *)
Theorem array_split_partition {A : Type} (l : list A) (n : nat) :
  n <> 0 ->
  length (array_split l n) = n /\
  concat (array_split l n) = l /\
  forall k, k < n ->
    length (nth k (array_split l n) [])
    = length l / n + (if k <? length l mod n then 1 else 0).
Proof.
  intros Hn. unfold array_split.
  destruct (split_by_concat (section_sizes (length l) n) l
              (section_sizes_sum _ _ Hn)) as [Hc Hm].
  split; [now rewrite length_split_by, length_section_sizes|].
  split; [exact Hc|].
  intros k Hk.
  pose proof (nth_map_lt (@length A)
                (split_by (section_sizes (length l) n) l) k [] 0) as E.
  rewrite Hm in E. rewrite <- E.
  - now apply nth_section_sizes.
  - now rewrite length_split_by, length_section_sizes.
Qed.

Example array_split_partition_witness :
  length (array_split [10; 11; 12; 13; 14; 15; 16] 3) = 3 /\
  concat (array_split [10; 11; 12; 13; 14; 15; 16] 3)
  = [10; 11; 12; 13; 14; 15; 16] /\
  forall k, k < 3 ->
    length (nth k (array_split [10; 11; 12; 13; 14; 15; 16] 3) [])
    = length [10; 11; 12; 13; 14; 15; 16] / 3
      + (if k <? length [10; 11; 12; 13; 14; 15; 16] mod 3 then 1 else 0).
Proof.
  apply (array_split_partition [10; 11; 12; 13; 14; 15; 16] 3). discriminate.
Defined.

Lemma In_split_by {A : Type} (sizes : list nat) :
  forall (l c : list A) (x : A),
  In c (split_by sizes l) -> In x c -> In x l.
Proof.
  induction sizes as [|k ks IH]; intros l c x Hc Hx; simpl in Hc;
    [contradiction|].
  destruct Hc as [<-|Hc].
  - rewrite <- (firstn_skipn k l). apply in_or_app. now left.
  - rewrite <- (firstn_skipn k l). apply in_or_app. right.
    eapply IH; eauto.
Qed.

Lemma list_sum_bound (l : list nat) (m : nat) :
  Forall (fun x => x <= m) l -> list_sum l <= length l * m.
Proof.
  induction 1 as [|x l Hx Hl IH]; simpl; lia.
Qed.

Lemma sequence_opt_In {A : Type} (l : list (option A)) (r : list A) (x : A) :
  sequence_opt l = Some r -> In x r -> In (Some x) l.
Proof.
  revert r; induction l as [|[y|] l IH]; intros r H Hx; simpl in H.
  - inversion H; subst. contradiction.
  - destruct (sequence_opt l) as [ys|] eqn:E; [|discriminate].
    inversion H; subst. destruct Hx as [->|Hx]; [now left|].
    right. eapply IH; eauto.
  - discriminate.
Qed.

Lemma sequence_opt_None {A : Type} (l : list (option A)) :
  In None l -> sequence_opt l = None.
Proof.
  induction l as [|[y|] l IH]; intros H; simpl in *; auto.
  - contradiction.
  - destruct H as [H|H]; [discriminate|]. now rewrite IH.
Qed.

(** Whatever the selection, every entry of [ichunk] is a valid index of
    the wavelength axis: [self.ADRx[ichunk[cnt]]] and
    [self.ADRy[ichunk[cnt]]] never read out of bounds when the ADR curve has
    one entry per wavelength. *)
Theorem chunk_indices_in_range
        (sel : list bool) (b nchunks : nat) (ichunk : list nat) :
  chunk_indices sel b nchunks = Some ichunk ->
  length ichunk = nchunks /\ Forall (fun i => i < b) ichunk.
Proof.
  intros H. unfold chunk_indices in H.
  destruct (Nat.eqb_spec nchunks 0) as [|Hn]; [discriminate|].
  split.
  - apply sequence_opt_Some in H. destruct H as [Hl _].
    now rewrite Hl, length_map, length_array_split.
  - apply Forall_forall. intros i Hi.
    pose proof (sequence_opt_In _ _ _ H Hi) as Hin.
    apply in_map_iff in Hin. destruct Hin as (xi & Hxi & Hchunk).
    apply chunk_index_Some in Hxi. destruct Hxi as [Hne ->].
    assert (Hall : Forall (fun x => x <= b - 1) xi).
    { apply Forall_forall. intros x Hx.
      pose proof (In_split_by _ _ _ _ Hchunk Hx) as Hsel.
      apply In_compress_seq in Hsel. lia. }
    assert (Hb : 0 < b).
    { destruct xi as [|x xi]; [contradiction|].
      pose proof (In_split_by _ _ _ x Hchunk (or_introl eq_refl)) as Hsel.
      apply In_compress_seq in Hsel. lia. }
    pose proof (list_sum_bound _ _ Hall) as Hsum.
    assert (Hlen : 0 < length xi) by (destruct xi; simpl; [contradiction|lia]).
    apply Nat.Div0.div_lt_upper_bound. nia.
Qed.

Example chunk_indices_in_range_witness :
  length [1; 4] = 2 /\ Forall (fun i => i < 6) [1; 4].
Proof.
  apply (chunk_indices_in_range [true; true; false; true; true; true] 6 2).
  reflexivity.
Defined.

(** With fewer selected wavelengths than chunks some section is empty and
    no chunk index can be computed. *)
Lemma chunk_indices_too_many_chunks (sel : list bool) (b nchunks : nat) :
  length (compress sel (seq 0 b)) < nchunks ->
  chunk_indices sel b nchunks = None.
Proof.
  intros Hlt. unfold chunk_indices.
  destruct (Nat.eqb_spec nchunks 0) as [|Hn]; [reflexivity|].
  apply sequence_opt_None.
  set (l := compress sel (seq 0 b)) in *.
  destruct (array_split_lengths l nchunks Hn) as [Hlen Hk].
  change None with (chunk_index []).
  apply in_map.
  assert (Hlast : length (nth (nchunks - 1) (array_split l nchunks) []) = 0).
  { rewrite Hk by lia. rewrite Nat.div_small, Nat.mod_small by assumption.
    destruct (Nat.ltb_spec (nchunks - 1) (length l)); lia. }
  apply length_zero_iff_nil in Hlast. rewrite <- Hlast.
  apply nth_In. lia.
Qed.

Lemma median_axis0_shape (images : list (list vec)) (n : nat) :
  length (median_axis0 images n) = n /\
  Forall (fun row => length row = n) (median_axis0 images n).
Proof.
  unfold median_axis0. split.
  - now rewrite length_map, length_seq.
  - apply Forall_map, Forall_forall. intros i _.
    now rewrite length_map, length_seq.
Qed.

Lemma map_const {A B : Type} (c : B) (l : list A) :
  map (fun _ => c) l = repeat c (length l).
Proof. induction l as [|x l IH]; simpl; [reflexivity | now rewrite IH]. Qed.

Lemma linspace_length (start stop : float) (num : nat) :
  length (linspace start stop num) = num.
Proof.
  destruct num as [|[|num]]; simpl; auto.
  rewrite length_app, length_map, length_seq. simpl. lia.
Qed.

Section Collaborators.

Variable ma_median_axis1 : list vec -> list (list bool) -> list (option float).
Variable ma_normalise : list (option float) -> list (option float).
Variable griddata :
  list (float * float) -> vec -> list vec -> list vec -> String.string ->
  option (list vec).
Variable kernel : Type.
Variable Gaussian2DKernel : float -> kernel.
Variable convolve : list vec -> kernel -> list vec.

Let run :=
  make_collapsed_image ma_median_axis1 ma_normalise griddata kernel
                       Gaussian2DKernel convolve.

(** Asking for more chunks than there are selected wavelengths (an empty
    selection included) makes [make_collapsed_image] fail: it returns no
    image, whatever the other arguments. *)
Theorem too_many_chunks_fails
        (wave ADRx ADRy : vec) (xc yc : float) (xloc yloc : vec)
        (data mask : ndarray) (scale seeing_fac boxsize : float)
        (wrange : float * float) (nchunks : nat) (convolve_image : bool)
        (interp_kind : String.string) :
  length (selected_indices wave wrange (ncol data)) < nchunks ->
  snd (run wave ADRx ADRy xc yc xloc yloc data mask scale seeing_fac
           boxsize wrange nchunks convolve_image interp_kind) = None.
Proof.
  intros Hlt. subst run. unfold make_collapsed_image.
  destruct (int_of_float (boxsize / scale)) as [N|]; [|reflexivity].
  destruct (N <? 0)%Z; [reflexivity|].
  unfold meshgrid. cbv zeta beta iota.
  unfold selected_indices in Hlt.
  now rewrite (chunk_indices_too_many_chunks _ _ _ Hlt).
Qed.

(** When [make_collapsed_image] returns an array, its three layers are
    square of side [N = int(boxsize/scale)], the image layer holds no NaN,
    and the two other layers are the sampling grid
    [np.linspace(c - boxsize/2, c + boxsize/2, N)] re-centred by subtracting
    the centre [c]: constant along the columns for x, along the rows for y. *)
Theorem collapsed_image_shape
        (wave ADRx ADRy : vec) (xc yc : float) (xloc yloc : vec)
        (data mask : ndarray) (scale seeing_fac boxsize : float)
        (wrange : float * float) (nchunks : nat) (convolve_image : bool)
        (interp_kind : String.string) (log : list String.string) (z : zarray) :
  run wave ADRx ADRy xc yc xloc yloc data mask scale seeing_fac
      boxsize wrange nchunks convolve_image interp_kind = (log, Some z) ->
  exists N : nat,
    int_of_float (boxsize / scale) = Some (Z.of_nat N) /\
    length (layer0 z) = N /\
    Forall (fun row => length row = N) (layer0 z) /\
    Forall (Forall (fun v => is_nan v = false)) (layer0 z) /\
    layer1 z
    = repeat (map (fun v => (v - xc)%float)
                  (linspace (xc - boxsize / 2) (xc + boxsize / 2) N)) N /\
    layer2 z
    = map (fun v => repeat (v - yc)%float N)
          (linspace (yc - boxsize / 2) (yc + boxsize / 2) N).
Proof.
  subst run. unfold make_collapsed_image.
  destruct (int_of_float (boxsize / scale)) as [N|]; [|discriminate].
  destruct (Z.ltb_spec N 0) as [Hneg|Hpos]; [discriminate|].
  unfold meshgrid. cbv zeta beta iota.
  destruct (chunk_indices _ _ _) as [ichunk|]; [|discriminate].
  destruct (invalid_kind interp_kind);
    (destruct (collapse_chunks _ _ _ _ _ _ _ _ _ _ _ _ _ _ _ _ _ _)
      as [images|]; [|discriminate]);
    intros H; inversion H; subst; clear H; cbn [layer0 layer1 layer2];
    exists (Z.to_nat N); rewrite Z2Nat.id by lia;
    destruct (median_axis0_shape images (Z.to_nat N)) as [Hlen Hrows].
  all: split; [reflexivity|].
  all: split; [now rewrite length_map|].
  all: split;
    [apply Forall_map; eapply Forall_impl; [|exact Hrows];
     simpl; intros row Hr; now rewrite length_map|].
  all: split;
    [apply Forall_map, Forall_forall; intros row _;
     apply Forall_map, Forall_forall; intros v _;
     destruct (is_nan v) eqn:E; [reflexivity | exact E]|].
  all: split;
    [rewrite map_map, map_const, linspace_length; reflexivity|].
  all: rewrite map_map; apply map_ext; intros v;
    rewrite map_map, map_const, linspace_length; reflexivity.
Qed.

End Collaborators.

(** Eleven chunks asked of a grid with three selected wavelengths. *)
Example too_many_chunks_fails_witness :
  snd (make_collapsed_image
         (fun chunk _ => map (fun _ => Some 1%float) chunk) (fun l => l)
         (fun _ _ xg _ _ => Some xg) unit (fun _ => tt) (fun g _ => g)
         [3400; 3500; 3600; 3700; 5600]%float
         [0; 0; 0; 0; 0]%float [0; 0; 0; 0; 0]%float
         0%float 0%float [0; 1]%float [0; 1]%float
         (mkarray 2 5 [[1; 2; 3; 4; 5]; [1; 2; 3; 4; 5]]%float)
         (mkarray 2 5 [[1; 1; 1; 1; 1]; [1; 1; 1; 1; 1]]%float)
         0.25%float 1.8%float 1%float (3470, 5540)%float 11 false linear)
  = None.
Proof.
  apply (too_many_chunks_fails
           (fun chunk _ => map (fun _ => Some 1%float) chunk) (fun l => l)
           (fun _ _ xg _ _ => Some xg) unit (fun _ => tt) (fun g _ => g)).
  vm_compute. lia.
Defined.

Example collapsed_image_shape_witness :
  exists N : nat,
    int_of_float (0.5 / 0.25)%float = Some (Z.of_nat N) /\
    length (layer0 small_image) = N /\
    Forall (fun row => length row = N) (layer0 small_image) /\
    Forall (Forall (fun v => is_nan v = false)) (layer0 small_image) /\
    layer1 small_image
    = repeat (map (fun v => (v - 0)%float)
                  (linspace (0 - 0.5 / 2) (0 + 0.5 / 2) N)) N /\
    layer2 small_image
    = map (fun v => repeat (v - 0)%float N)
          (linspace (0 - 0.5 / 2) (0 + 0.5 / 2) N).
Proof.
  apply (collapsed_image_shape
           (fun chunk _ => map (fun _ => Some 1%float) chunk) (fun l => l)
           (fun _ _ xg _ _ => Some xg) unit (fun _ => tt) (fun g _ => g)
           [3400; 3500; 3600; 3700; 5600]%float
           [0; 0; 0; 0; 0]%float [0; 0; 0; 0; 0]%float
           0%float 0%float [0; 1]%float [0; 1]%float
           (mkarray 2 5 [[1; 2; 3; 4; 5]; [1; 2; 3; 4; 5]]%float)
           (mkarray 2 5 [[1; 1; 1; 1; 1]; [1; 1; 1; 1; 1]]%float)
           0.25%float 1.8%float 0.5%float (3470, 5540)%float 2 false linear
           []).
  vm_compute. reflexivity.
Defined.

(** The default session.  [get_wave] is the grid of the 1036 wavelengths
    [3470 + 2*i]; with the default [wrange = [3470, 5540]] the first of them
    is left out by the strict low bound and the selection is the run of the
    indices 1 to 1035; the 11 default chunks are all non-empty, with these
    representative indices. *)
Theorem default_window :
  get_wave = map (fun i => (3470 + 2 * float_of_nat i)%float) (seq 0 1036) /\
  selected_indices get_wave (3470, 5540)%float 1036 = seq 1 1035 /\
  chunk_indices (wave_selection get_wave (3470, 5540)%float) 1036 11
  = Some [48; 142; 236; 330; 424; 518; 612; 706; 800; 894; 988].
Proof. vm_compute. repeat split. Qed.

End CollapseEdgeFacts.

(* ================================================================== *)
(** * The geometry kernel in exact arithmetic *)
(* ================================================================== *)

Module GeometryExactFacts.

Import Stdlib.Reals.Reals Stdlib.micromega.Lra Geometry GeometryFacts.
Open Scope R_scope.

Lemma enclosed_sym (d R r : R) : enclosed d R r = enclosed d r R.
Proof.
  unfold enclosed; simpl. now rewrite (Rabs_minus_sym R r).
Qed.

Lemma disjoint_sym (d R r : R) : disjoint d R r = disjoint d r R.
Proof.
  unfold disjoint; simpl. now rewrite (Rplus_comm r R).
Qed.

Lemma cos_beta_swap (d R r : R) : cos_beta d r R = cos_alpha d R r.
Proof. reflexivity. Qed.

Lemma cos_alpha_swap (d R r : R) : cos_alpha d r R = cos_beta d R r.
Proof. reflexivity. Qed.

Lemma two_segments_sym (d R r : R) : two_segments d R r = two_segments d r R.
Proof.
  unfold two_segments. rewrite cos_beta_swap, cos_alpha_swap.
  change (@trig_arccos _ R_trig) with acos.
  generalize (acos (cos_alpha d R r)) (acos (cos_beta d R r)).
  intros al be. unfold sqr; simpl. ring.
Qed.

(** In exact arithmetic the area does not depend on which of the two
    circles is called [R] and which [r]. *)
Theorem intersection_area_sym (d R r : R) :
  intersection_area d R r = intersection_area d r R.
Proof.
  unfold intersection_area.
  rewrite (enclosed_sym d R r), (disjoint_sym d R r), (two_segments_sym d R r).
  rewrite !R_py_min, (Rmin_comm R r). reflexivity.
Qed.

Lemma acos_m1 : acos (-1) = PI.
Proof. replace (-1) with (Ropp 1) by lra. rewrite acos_opp, acos_1. ring. Qed.

Lemma two_segments_inner (R r : R) :
  0 < r -> r < R -> two_segments (R - r) R r = PI * (r * r).
Proof.
  intros Hr HR. unfold two_segments.
  assert (Ha : cos_alpha (R - r) R r = -1).
  { unfold cos_alpha, sqr; simpl. field. lra. }
  assert (Hb : cos_beta (R - r) R r = 1).
  { unfold cos_beta, sqr; simpl. field. lra. }
  rewrite Ha, Hb. change (@trig_arccos _ R_trig) with acos.
  rewrite acos_m1, acos_1. unfold sqr; simpl.
  replace (2 * 0) with 0 by ring. rewrite sin_0, sin_2PI. ring.
Qed.

Lemma two_segments_outer (R r : R) :
  0 < r -> 0 < R -> two_segments (R + r) R r = 0.
Proof.
  intros Hr HR. unfold two_segments.
  assert (Ha : cos_alpha (R + r) R r = 1).
  { unfold cos_alpha, sqr; simpl. field. lra. }
  assert (Hb : cos_beta (R + r) R r = 1).
  { unfold cos_beta, sqr; simpl. field. lra. }
  rewrite Ha, Hb. change (@trig_arccos _ R_trig) with acos.
  rewrite acos_1. unfold sqr; simpl.
  replace (2 * 0) with 0 by ring. rewrite sin_0. ring.
Qed.

(** In exact arithmetic the three branches meet without a jump: for two
    circles of different positive radii, the two-segment expression taken at
    the enclosure distance [d = |R - r|] is [pi * min(R, r)^2], the value of
    the first branch, and taken at the tangency distance [d = R + r] it is
    0, the value of the second branch. *)
Theorem branches_meet (R r : R) :
  0 < R -> 0 < r -> R <> r ->
  two_segments (Rabs (R - r)) R r = intersection_area (Rabs (R - r)) R r /\
  intersection_area (Rabs (R - r)) R r = PI * (Rmin R r) ^ 2 /\
  two_segments (R + r) R r = intersection_area (R + r) R r /\
  intersection_area (R + r) R r = 0.
Proof.
  intros HR Hr Hne.
  assert (Hin : intersection_area (Rabs (R - r)) R r = PI * (Rmin R r) ^ 2).
  { unfold intersection_area.
    assert (He : enclosed (Rabs (R - r)) R r = true)
      by (apply enclosed_iff; lra).
    rewrite He, R_py_min. unfold sqr; simpl. ring. }
  assert (Hout : intersection_area (R + r) R r = 0).
  { unfold intersection_area.
    assert (He : enclosed (R + r) R r = false).
    { apply not_enclosed_iff. unfold Rabs.
      destruct (Rcase_abs (R - r)); lra. }
    assert (Hd : disjoint (R + r) R r = true) by (apply disjoint_iff; lra).
    now rewrite He, Hd. }
  split; [|split; [exact Hin|split; [|exact Hout]]].
  - rewrite Hin. unfold Rabs, Rmin.
    destruct (Rcase_abs (R - r)), (Rle_dec R r); try lra.
    + replace (- (R - r)) with (r - R) by ring.
      rewrite two_segments_sym, two_segments_inner by lra. ring.
    + rewrite two_segments_inner by lra. ring.
  - rewrite Hout. now apply two_segments_outer.
Qed.

Example branches_meet_witness :
  two_segments (Rabs (2 - 1)) 2 1 = intersection_area (Rabs (2 - 1)) 2 1 /\
  intersection_area (Rabs (2 - 1)) 2 1 = PI * (Rmin 2 1) ^ 2 /\
  two_segments (2 + 1) 2 1 = intersection_area (2 + 1) 2 1 /\
  intersection_area (2 + 1) 2 1 = 0.
Proof. apply (branches_meet 2 1); lra. Defined.

(** In exact arithmetic the area returned is never negative. *)
Theorem intersection_area_nonneg (d R r : R) :
  0 <= d -> 0 <= R -> 0 <= r -> 0 <= intersection_area d R r.
Proof.
  intros Hd HR Hr. unfold intersection_area.
  destruct (enclosed d R r) eqn:He.
  - unfold sqr; simpl. pose proof PI_RGT_0.
    pose proof (Rle_0_sqr (py_min R r)) as Hs. unfold Rsqr in Hs.
    apply Rmult_le_pos; [lra | exact Hs].
  - destruct (disjoint d R r) eqn:Hdj; [simpl; lra|].
    pose proof He as He'. pose proof Hdj as Hdj'.
    apply not_enclosed_iff in He'. apply not_disjoint_iff in Hdj'.
    destruct (between_guards d R r Hd HR Hr He' Hdj')
      as (Hd0 & HR0 & Hr0 & H1 & H2).
    apply two_segments_nonneg.
    + now apply cos_alpha_range.
    + now apply cos_beta_range.
Qed.

Example intersection_area_nonneg_witness : 0 <= intersection_area 1 1 1.
Proof. apply (intersection_area_nonneg 1 1 1); lra. Defined.

End GeometryExactFacts.

(* ================================================================== *)
(** * Further properties of [get_psf_curve_of_growth] *)
(* ================================================================== *)

Module GrowthMoreFacts.

Import Stdlib.Reals.Reals Stdlib.micromega.Lra.
Import Np Rnp Growth Psf NpFacts GrowthFacts PsfFacts.
Open Scope R_scope.

Lemma Rsum_nonneg_le (l : list R) :
  Forall (fun v => 0 <= v) l -> 0 <= Rsum l.
Proof.
  unfold Rsum. induction 1 as [|x l Hx Hl IH]; simpl; lra.
Qed.

Lemma cumsum_from_upper (acc : R) (l : list R) :
  Forall (fun v => 0 <= v) l ->
  Forall (fun c => c <= acc + Rsum l) (cumsum_from acc l).
Proof.
  intros H; revert acc; induction H as [|x l Hx Hl IH]; intros acc; simpl;
    constructor.
  - pose proof (Rsum_nonneg_le l Hl). unfold Rsum in *; simpl. lra.
  - eapply Forall_impl; [|apply (IH (acc + x))].
    simpl. intros c Hc. unfold Rsum in *; simpl. lra.
Qed.

(** In exact arithmetic every value of the curve of growth is a fraction:
    for a PSF image with non-negative intensities and a positive total
    inside the window, each element of the cumulative sequence lies between
    0 and 1, whatever the order [np.argsort] returns.  (In binary64 the
    values agree with these up to rounding, and the last ones can pass 1 by
    a few units in the last place.) *)
Theorem curve_of_growth_is_fraction (np_argsort : list R -> list nat)
        (psf : psf_image) (maxr : R) :
  amax (ravel (xgrid psf)) = Some maxr ->
  Forall (fun v => 0 <= v) (ravel (intensity psf)) ->
  0 < Rsum (window_intensity np_argsort psf maxr) ->
  exists rs cog,
    get_psf_curve_of_growth np_argsort psf = Some (rs, cog) /\
    Forall (fun c => 0 <= c <= 1) cog.
Proof.
  intros Hmax Hpos Htot.
  exists (window_radii np_argsort psf maxr),
         (growth_curve (window_intensity np_argsort psf maxr)).
  split; [unfold get_psf_curve_of_growth; now rewrite Hmax|].
  assert (Hnn : Forall (fun v => 0 <= v) (window_intensity np_argsort psf maxr))
    by (apply compress_Forall, take_nonneg, Hpos).
  unfold growth_curve, cumsum. apply Forall_map.
  pose proof (cumsum_from_lower 0 _ Hnn) as Hlo.
  pose proof (cumsum_from_upper 0 _ Hnn) as Hhi.
  rewrite Forall_forall in *. intros c Hc.
  specialize (Hlo c Hc). specialize (Hhi c Hc). simpl in Hlo, Hhi.
  rewrite Rplus_0_l in Hhi.
  pose proof (Rinv_0_lt_compat _ Htot) as Hinv.
  split.
  - apply Rmult_le_pos; lra.
  - apply Rmult_le_reg_r with (Rsum (window_intensity np_argsort psf maxr));
      [exact Htot|].
    unfold Rdiv. rewrite Rmult_assoc, Rinv_l by lra. lra.
Qed.

Example curve_of_growth_is_fraction_witness :
  exists rs cog,
    get_psf_curve_of_growth stable_argsort two_samples = Some (rs, cog) /\
    Forall (fun c => 0 <= c <= 1) cog.
Proof.
  apply (curve_of_growth_is_fraction stable_argsort two_samples (Rmax 0 1)).
  - reflexivity.
  - simpl. repeat constructor; lra.
  - rewrite two_samples_window. unfold Rsum; simpl. lra.
Defined.

Lemma take_map_div (s : R) (a : list R) (inds : list nat) :
  take (map (fun v => v / s) a) inds = map (fun v => v / s) (take a inds).
Proof.
  unfold take. rewrite map_map. apply map_ext. intros i.
  destruct (Nat.lt_ge_cases i (length a)) as [Hi|Hi].
  - now rewrite (nth_map_lt _ _ _ 0).
  - rewrite !nth_overflow by (rewrite ?length_map; lia).
    unfold Rdiv. ring.
Qed.

Lemma compress_map {A B : Type} (f : A -> B) (sel : list bool) (l : list A) :
  compress sel (map f l) = map f (compress sel l).
Proof.
  revert l; induction sel as [|s sel IH]; intros [|x l]; simpl; auto.
  destruct s; simpl; now rewrite IH.
Qed.

Lemma cumsum_from_map_div (s acc : R) (l : list R) :
  cumsum_from (acc / s) (map (fun v => v / s) l)
  = map (fun c => c / s) (cumsum_from acc l).
Proof.
  revert acc; induction l as [|x l IH]; intros acc; simpl; auto.
  replace (acc / s + x / s) with ((acc + x) / s) by (unfold Rdiv; ring).
  now rewrite IH.
Qed.

Lemma window_intensity_normalise (np_argsort : list R -> list nat)
      (z : psf_image) (maxr : R) :
  window_intensity np_argsort (normalise z) maxr
  = map (fun v => v / Rsum2 (intensity z)) (window_intensity np_argsort z maxr).
Proof.
  unfold window_intensity, within, sorted_radii, radii, normalise; simpl.
  unfold ravel. rewrite <- concat_map, take_map_div. apply compress_map.
Qed.

(** In exact arithmetic the curve of growth does not depend on the
    normalisation of the PSF: for an image whose intensity sum and whose
    total inside the window are not zero, [get_psf_curve_of_growth] returns
    the same radii and the same curve before and after
    [zarray[0] /= zarray[0].sum()], whatever the order [np.argsort]
    returns.  (In binary64 the two curves agree up to rounding and can
    differ in the last place.) *)
Theorem curve_of_growth_ignores_normalisation
        (np_argsort : list R -> list nat) (z : psf_image) (maxr : R) :
  amax (ravel (xgrid z)) = Some maxr ->
  Rsum2 (intensity z) <> 0 ->
  Rsum (window_intensity np_argsort z maxr) <> 0 ->
  get_psf_curve_of_growth np_argsort (normalise z)
  = get_psf_curve_of_growth np_argsort z.
Proof.
  intros Hmax Hs Hw. unfold get_psf_curve_of_growth.
  change (xgrid (normalise z)) with (xgrid z). rewrite Hmax.
  f_equal. f_equal.
  unfold growth_curve. rewrite window_intensity_normalise.
  set (s := Rsum2 (intensity z)) in *.
  set (v := window_intensity np_argsort z maxr) in *.
  rewrite Rsum_map_div. unfold cumsum.
  replace 0 with (0 / s) at 1 by (unfold Rdiv; ring).
  rewrite cumsum_from_map_div, map_map.
  apply map_ext. intros c. field. split; assumption.
Qed.

Example curve_of_growth_ignores_normalisation_witness :
  get_psf_curve_of_growth stable_argsort (normalise two_samples)
  = get_psf_curve_of_growth stable_argsort two_samples.
Proof.
  apply (curve_of_growth_ignores_normalisation stable_argsort two_samples
           (Rmax 0 1)).
  - reflexivity.
  - unfold Rsum2, Rsum; simpl. lra.
  - rewrite two_samples_window. unfold Rsum; simpl. lra.
Defined.

End GrowthMoreFacts.

(* ================================================================== *)
(** * The sampling grid of the PSF builders *)
(* ================================================================== *)

Module PsfGridFacts.

Import Stdlib.Reals.Reals Stdlib.micromega.Lra.
Import Np Rnp Psf Weights NpFacts PsfFacts.
Open Scope R_scope.

Lemma Rceil_bounds (x : R) : x <= IZR (Rceil x) < x + 1.
Proof.
  unfold Rceil. rewrite minus_IZR.
  destruct (archimed (- x)) as [H1 H2]. simpl. lra.
Qed.

Lemma length_arange (start stop step : R) :
  length (arange start stop step)
  = Z.to_nat (Rceil ((stop - start) / step)).
Proof. unfold arange. now rewrite length_map, length_seq. Qed.

Lemma nth_arange (start stop step : R) (i : nat) :
  (i < length (arange start stop step))%nat ->
  nth i (arange start stop step) 0 = start + INR i * step.
Proof.
  intros Hi. rewrite length_arange in Hi. unfold arange.
  rewrite (nth_map_lt _ _ _ 0%nat) by (rewrite length_seq; assumption).
  now rewrite seq_nth.
Qed.

(** The number of samples of [np.arange] on a positive span: the last
    sample is the last one below [stop]. *)
Lemma arange_last (start stop step : R) :
  0 < step -> 0 < stop - start ->
  let n := length (arange start stop step) in
  (1 <= n)%nat /\
  start + INR (n - 1) * step < stop <= start + INR n * step.
Proof.
  intros Hstep Hspan n.
  assert (Hq : 0 < (stop - start) / step)
    by (apply Rdiv_lt_0_compat; assumption).
  destruct (Rceil_bounds ((stop - start) / step)) as [Hlo Hhi].
  assert (Hc : (1 <= Rceil ((stop - start) / step))%Z).
  { assert (H : IZR 0 < IZR (Rceil ((stop - start) / step))) by (simpl; lra).
    apply lt_IZR in H. lia. }
  assert (Hn : INR n = IZR (Rceil ((stop - start) / step))).
  { unfold n. rewrite length_arange, INR_IZR_INZ, Z2Nat.id by lia.
    reflexivity. }
  assert (Hn1 : (1 <= n)%nat).
  { unfold n. rewrite length_arange. lia. }
  split; [exact Hn1|].
  rewrite minus_INR by exact Hn1. simpl INR. rewrite Hn.
  set (c := IZR (Rceil ((stop - start) / step))) in *.
  assert (Hmul : (stop - start) / step * step = stop - start)
    by (field; lra).
  split.
  - assert (H : (c - 1) * step < (stop - start) / step * step)
      by (apply Rmult_lt_compat_r; lra).
    lra.
  - assert (H : (stop - start) / step * step <= c * step)
      by (apply Rmult_le_compat_r; lra).
    lra.
Qed.

(** On a box of positive size the grid row holds at least two samples, one
    pitch apart. *)
Lemma psf_grid_two_samples (boxsize scale : R) :
  0 < scale -> 0 < boxsize ->
  let x := arange (0 - boxsize / 2) (0 + boxsize / 2 + scale) scale in
  (2 <= length x)%nat /\ nth 1 x 0 - nth 0 x 0 = scale.
Proof.
  intros Hs Hb x.
  destruct (arange_last (0 - boxsize / 2) (0 + boxsize / 2 + scale) scale)
    as (Hn & Hlt & Hle); [lra | lra |].
  fold x in Hn, Hlt, Hle.
  assert (H2 : (2 <= length x)%nat).
  { destruct (length x) as [|[|m]] eqn:E; [lia| |lia].
    simpl in Hle. lra. }
  split; [exact H2|].
  unfold x. rewrite !nth_arange by (fold x; lia). simpl. lra.
Qed.

Lemma pixel_scale_grid (boxsize scale : R) (I : list (list R)) :
  0 < scale -> 0 < boxsize ->
  pixel_scale (mkpsf I (fst (psf_grid boxsize scale))
                       (snd (psf_grid boxsize scale))) = scale.
Proof.
  intros Hs Hb.
  destruct (psf_grid_two_samples boxsize scale Hs Hb) as [H2 Hd].
  unfold pixel_scale, psf_grid, meshgrid. cbv zeta. cbn [xgrid fst].
  set (x := arange (0 - boxsize / 2) (0 + boxsize / 2 + scale) scale) in *.
  destruct x as [|v l] eqn:E; [simpl in H2; lia|].
  cbn [map nth] in Hd |- *. rewrite Hd. apply Rabs_pos_eq. lra.
Qed.

Section Pipeline.

Variable griddata : list (R * R) -> list R -> R * R -> option R.
Variable Gaussian2D : R -> R -> R -> R -> R -> R.
Variable Moffat2D : R -> R -> R -> R -> R.
Variable delaunay : list (R * R) -> list (nat * nat * nat).

(** The pixel scale [build_weights] reads back from a PSF image,
    [|psf[1][0, 1] - psf[1][0, 0]|], is the [scale] the image was built
    with, for each of the three builders, whenever the pitch and the box
    size are positive. *)
Theorem pixel_scale_of_built_psf
        (radius fibradius xstd ystd theta seeing alpha boxsize scale : R) :
  0 < scale -> 0 < boxsize ->
  pixel_scale (tophat_psf griddata radius boxsize scale fibradius) = scale /\
  pixel_scale (gaussian_psf Gaussian2D xstd ystd theta boxsize scale) = scale /\
  pixel_scale (moffat_psf Moffat2D seeing boxsize scale alpha) = scale.
Proof.
  intros Hs Hb.
  pose proof (fun I => pixel_scale_grid boxsize scale I Hs Hb) as H.
  unfold tophat_psf, gaussian_psf, moffat_psf, tophat_raw, gaussian_raw,
    moffat_raw, normalise. cbv zeta.
  destruct (psf_grid boxsize scale) as [xg yg]. cbn [fst snd] in H.
  unfold pixel_scale in *. cbn [xgrid] in *.
  repeat split; exact (H []).
Qed.

End Pipeline.

Example pixel_scale_of_built_psf_witness :
  pixel_scale (tophat_psf (fun _ _ _ => Some 1) 1 4 (1 / 4) (3 / 4)) = 1 / 4 /\
  pixel_scale (gaussian_psf Gaussian2D_evaluate 1 1 0 4 (1 / 4)) = 1 / 4 /\
  pixel_scale (moffat_psf Moffat2D_evaluate 2 4 (1 / 4) (7 / 2)) = 1 / 4.
Proof.
  apply (pixel_scale_of_built_psf (fun _ _ _ => Some 1) Gaussian2D_evaluate
           Moffat2D_evaluate 1 (3 / 4) 1 1 0 2 (7 / 2) 4 (1 / 4)); lra.
Defined.

End PsfGridFacts.

(* ================================================================== *)
(** * The builders and [build_weights] together *)
(* ================================================================== *)

Module PipelineFacts.

Import Stdlib.Reals.Reals Stdlib.micromega.Lra.
Import Np Rnp Psf Weights NpFacts PsfFacts WeightsFacts PsfGridFacts.
Open Scope R_scope.

Lemma map_map2 {A B C D : Type} (g : C -> D) (f : A -> B -> C) l1 l2 :
  map g (map2 f l1 l2) = map2 (fun x y => g (f x y)) l1 l2.
Proof.
  revert l2; induction l1 as [|x l1 IH]; intros [|y l2]; simpl; auto.
  now rewrite IH.
Qed.

Lemma map2_ext {A B C : Type} (f g : A -> B -> C) l1 l2 :
  (forall x y, f x y = g x y) -> map2 f l1 l2 = map2 g l1 l2.
Proof.
  intros H. revert l2; induction l1 as [|x l1 IH]; intros [|y l2]; simpl; auto.
  now rewrite H, IH.
Qed.

Lemma nth_map_div (s : R) (l : list R) (i : nat) :
  nth i (map (fun v => v / s) l) 0 = nth i l 0 / s.
Proof.
  destruct (Nat.lt_ge_cases i (length l)) as [Hi|Hi].
  - now rewrite (nth_map_lt _ _ _ 0).
  - rewrite !nth_overflow by (rewrite ?length_map; lia). unfold Rdiv. ring.
Qed.

Lemma positive_image_normalised (m : list (list R)) :
  Forall (Forall (fun v => 0 < v)) m -> 0 < Rsum2 m ->
  Forall (fun v => 0 <= v) (ravel (map (map (fun v => v / Rsum2 m)) m)).
Proof.
  intros Hm Hs. unfold ravel. apply Forall_concat, Forall_map.
  eapply Forall_impl; [|exact Hm]. intros row Hrow. apply Forall_map.
  eapply Forall_impl; [|exact Hrow]. intros v Hv. simpl.
  left. now apply Rdiv_lt_0_compat.
Qed.

Section Interpolator.

Variable delaunay : list (R * R) -> list (nat * nat * nat).

(** The interpolant is linear in the samples: dividing every sample by [s]
    divides the interpolated value, for the fill value 0. *)
Lemma LinearNDInterpolator_div (T : list (R * R)) (values : list R)
      (s : R) (p : R * R) :
  LinearNDInterpolator delaunay T (map (fun v => v / s) values) 0 p
  = LinearNDInterpolator delaunay T values 0 p / s.
Proof.
  unfold LinearNDInterpolator.
  destruct (find (inside T p) (delaunay T)) as [[[i j] k]|];
    [|unfold Rdiv; ring].
  destruct (coordinates T p (i, j, k)) as [[l1 l2] l3].
  rewrite !nth_map_div. unfold Rdiv. ring.
Qed.

Lemma weights_nonneg (wave ADRx ADRy : list R) (xc yc : R)
      (ifux ifuy : list R) (psf : psf_image) :
  Forall (fun v => 0 <= v) (ravel (intensity psf)) ->
  0 < pixel_scale psf ->
  Forall (Forall (fun w => 0 <= w))
         (build_weights delaunay wave ADRx ADRy xc yc ifux ifuy psf).
Proof.
  intros Hv Hs.
  assert (Hs2 : 0 < pixel_scale psf * pixel_scale psf) by nra.
  assert (Harea : 0 <= 3 / 4 * (3 / 4) * PI) by (pose proof PI_RGT_0; nra).
  unfold build_weights. cbv zeta. apply map2_Forall.
  intros x y. apply Forall_map, Forall_forall. intros i _.
  pose proof (LinearNDInterpolator_nonneg delaunay (sample_points psf) _
                (fiber_position ADRx ADRy xc yc x y i) Hv) as HI.
  apply Rmult_le_pos; [now apply Rmult_le_pos|].
  left. now apply Rinv_0_lt_compat.
Qed.

(** The builders and [build_weights] together: the weights computed from a
    Gaussian or a Moffat PSF image (astropy's closed forms), built with a
    positive pitch and a positive box size, are all non-negative, for every
    fiber layout, every refraction vector and every triangulation of the
    samples. *)
Theorem analytic_psf_weights_nonneg (wave ADRx ADRy : list R) (xc yc : R)
        (ifux ifuy : list R)
        (xstd ystd theta seeing alpha boxsize scale : R) :
  0 < scale -> 0 < boxsize ->
  Forall (Forall (fun w => 0 <= w))
         (build_weights delaunay wave ADRx ADRy xc yc ifux ifuy
            (gaussian_psf Gaussian2D_evaluate xstd ystd theta boxsize scale)) /\
  Forall (Forall (fun w => 0 <= w))
         (build_weights delaunay wave ADRx ADRy xc yc ifux ifuy
            (moffat_psf Moffat2D_evaluate seeing boxsize scale alpha)).
Proof.
  intros Hs Hb.
  destruct (closed_forms_valid xstd ystd theta seeing alpha boxsize scale Hs)
    as [Hg Hm]; [lra|].
  pose proof (fun I => pixel_scale_grid boxsize scale I Hs Hb) as Hps.
  unfold gaussian_psf, moffat_psf, gaussian_raw, moffat_raw in *.
  cbv zeta in *.
  destruct (psf_grid boxsize scale) as [xg yg]. cbn [fst snd intensity] in *.
  split; apply weights_nonneg.
  - unfold normalise. cbn [intensity].
    apply positive_image_normalised; [|exact Hg].
    apply map2_Forall. intros x y. apply map2_Forall.
    intros; apply Gaussian2D_evaluate_pos.
  - unfold pixel_scale, normalise in *. cbn [xgrid] in *.
    rewrite (Hps []). exact Hs.
  - unfold normalise. cbn [intensity].
    apply positive_image_normalised; [|exact Hm].
    apply map2_Forall. intros x y. apply map2_Forall.
    intros; apply Moffat2D_evaluate_pos.
  - unfold pixel_scale, normalise in *. cbn [xgrid] in *.
    rewrite (Hps []). exact Hs.
Qed.

(** In exact arithmetic the weights are linear in the PSF intensities: the
    normalisation [zarray[0] /= zarray[0].sum()] of the builders divides
    every weight by that same sum and changes nothing else.  (In binary64
    the two sides agree up to rounding and can differ in the last place.) *)
Theorem weights_scale_with_psf (wave ADRx ADRy : list R) (xc yc : R)
        (ifux ifuy : list R) (z : psf_image) :
  Rsum2 (intensity z) <> 0 ->
  build_weights delaunay wave ADRx ADRy xc yc ifux ifuy (normalise z)
  = map (map (fun w => w / Rsum2 (intensity z)))
        (build_weights delaunay wave ADRx ADRy xc yc ifux ifuy z).
Proof.
  intros Hs. unfold build_weights. cbv zeta.
  rewrite map_map2. apply map2_ext. intros x y.
  rewrite map_map. apply map_ext. intros i.
  change (sample_points (normalise z)) with (sample_points z).
  change (pixel_scale (normalise z)) with (pixel_scale z).
  unfold normalise. cbn [intensity]. unfold ravel.
  rewrite <- concat_map, LinearNDInterpolator_div.
  unfold Rdiv. ring.
Qed.

End Interpolator.

Example analytic_psf_weights_nonneg_witness :
  let delaunay := fun _ : list (R * R) => [(0, 1, 2); (1, 2, 3)]%nat in
  Forall (Forall (fun w => 0 <= w))
         (build_weights delaunay [3500; 4500] [0; 0] [0; 0] 0 0 [0; 5] [0; 5]
            (gaussian_psf Gaussian2D_evaluate 1 1 0 4 (1 / 4))) /\
  Forall (Forall (fun w => 0 <= w))
         (build_weights delaunay [3500; 4500] [0; 0] [0; 0] 0 0 [0; 5] [0; 5]
            (moffat_psf Moffat2D_evaluate 2 4 (1 / 4) (7 / 2))).
Proof.
  intros delaunay.
  apply (analytic_psf_weights_nonneg delaunay [3500; 4500] [0; 0] [0; 0] 0 0
           [0; 5] [0; 5] 1 1 0 2 (7 / 2) 4 (1 / 4)); lra.
Defined.

Example weights_scale_with_psf_witness :
  let z := mkpsf [[1; 2]; [3; 4]] [[0; 1]; [0; 1]] [[0; 0]; [1; 1]] in
  let delaunay := fun _ : list (R * R) => [(0, 1, 2); (1, 2, 3)]%nat in
  build_weights delaunay [3500; 4500] [0; 0] [0; 0] 0 0 [0; 5] [0; 5]
                (normalise z)
  = map (map (fun w => w / Rsum2 (intensity z)))
        (build_weights delaunay [3500; 4500] [0; 0] [0; 0] 0 0 [0; 5] [0; 5] z).
Proof.
  intros z delaunay.
  apply (weights_scale_with_psf delaunay [3500; 4500] [0; 0] [0; 0] 0 0
           [0; 5] [0; 5] z).
  unfold Rsum2, Rsum; simpl. lra.
Defined.

End PipelineFacts.

(* ================================================================== *)
(** * The profile sampled by [moffat_psf] *)
(* ================================================================== *)

Module ProfileFacts.

Import Stdlib.Reals.Reals Stdlib.micromega.Lra.
Import Np Rnp Psf PsfParts.
Open Scope R_scope.

Section Parts.

Variable Moffat2D : R -> R -> R -> R -> R.

(** [moffat_psf] evaluates the model of width [moffat_gamma]. *)
Lemma moffat_raw_gamma (seeing boxsize scale alpha : R) :
  moffat_raw Moffat2D seeing boxsize scale alpha
  = let (xg, yg) := psf_grid boxsize scale in
    mkpsf (map2 (map2 (Moffat2D (moffat_gamma seeing alpha) alpha)) xg yg)
          xg yg.
Proof. reflexivity. Qed.

End Parts.

Lemma Rpower_2_inv_pos (alpha : R) : 0 < alpha -> 1 < Rpower 2 (1 / alpha).
Proof.
  intros Ha. rewrite <- (Rpower_O 2) at 1 by lra.
  apply Rpower_lt; [lra|]. apply Rdiv_lt_0_compat; lra.
Qed.

(** The [seeing] given to [moffat_psf] is the full width at half maximum of
    the profile it evaluates (astropy's closed form): with the width
    [gamma = 0.5 * seeing / sqrt(2**(1/alpha) - 1)] of the source, the
    profile is 1 at the centre and exactly one half at every point at the
    distance [seeing / 2] from it, for every positive [seeing] and
    [alpha]. *)
Theorem moffat_half_maximum (seeing alpha x y : R) :
  0 < seeing -> 0 < alpha ->
  x * x + y * y = seeing / 2 * (seeing / 2) ->
  Moffat2D_evaluate (moffat_gamma seeing alpha) alpha 0 0 = 1 /\
  Moffat2D_evaluate (moffat_gamma seeing alpha) alpha x y = 1 / 2.
Proof.
  intros Hs Ha Hxy.
  pose proof (Rpower_2_inv_pos alpha Ha) as Ht.
  set (t := Rpower 2 (1 / alpha)) in *.
  assert (Hq : 0 < sqrt (t - 1)) by (apply sqrt_lt_R0; lra).
  assert (Hqq : sqrt (t - 1) * sqrt (t - 1) = t - 1)
    by (apply sqrt_sqrt; lra).
  unfold Moffat2D_evaluate, moffat_gamma. cbv zeta. fold t.
  set (q := sqrt (t - 1)) in *.
  split.
  - replace (1 + ((0 - 0) * (0 - 0) + (0 - 0) * (0 - 0))
                 / (1 / 2 * seeing / q * (1 / 2 * seeing / q)))
      with 1 by (field; lra).
    unfold Rpower. rewrite ln_1, Rmult_0_r, exp_0. ring.
  - replace (1 + ((x - 0) * (x - 0) + (y - 0) * (y - 0))
                 / (1 / 2 * seeing / q * (1 / 2 * seeing / q)))
      with t.
    + unfold t. rewrite Rpower_mult.
      replace (1 / alpha * - alpha) with (- (1)) by (field; lra).
      rewrite Rpower_Ropp, Rpower_1 by lra. lra.
    + replace ((x - 0) * (x - 0) + (y - 0) * (y - 0))
        with (seeing / 2 * (seeing / 2)) by (rewrite <- Hxy; ring).
      replace (seeing / 2 * (seeing / 2)
               / (1 / 2 * seeing / q * (1 / 2 * seeing / q)))
        with (q * q) by (field; lra).
      rewrite Hqq. ring.
Qed.

Example moffat_half_maximum_witness :
  Moffat2D_evaluate (moffat_gamma 2 (7 / 2)) (7 / 2) 0 0 = 1 /\
  Moffat2D_evaluate (moffat_gamma 2 (7 / 2)) (7 / 2) 1 0 = 1 / 2.
Proof. apply (moffat_half_maximum 2 (7 / 2) 1 0); lra. Defined.

End ProfileFacts.

(* ================================================================== *)
(** * Properties of the extraction context *)
(* ================================================================== *)

Module ContextFacts.

Import Stdlib.Reals.Reals Stdlib.micromega.Lra.
Import Np Rnp Context NpFacts.
Open Scope R_scope.

Lemma deg2rad_0 : deg2rad 0 = 0.
Proof. unfold deg2rad. ring. Qed.

Lemma deg2rad_90 : deg2rad 90 = PI / 2.
Proof. unfold deg2rad. field. Qed.

Lemma map_scale_1 (l : list R) : map (fun a => 1 * a) l = l.
Proof.
  induction l as [|a l IH]; simpl; [reflexivity|]. rewrite IH. f_equal. ring.
Qed.

Lemma map_scale_0 (l : list R) :
  map (fun a => 0 * a) l = repeat 0 (length l).
Proof.
  induction l as [|a l IH]; simpl; [reflexivity|]. rewrite IH. f_equal. ring.
Qed.

(** [np.linspace] with at least two samples: sample [i] is
    [start + i * (stop - start) / (num - 1)]. *)
Lemma nth_linspace (start stop : R) (num i : nat) :
  (2 <= num)%nat -> (i < num)%nat ->
  nth i (linspace start stop num) 0
  = start + INR i * ((stop - start) / INR (num - 1)).
Proof.
  intros Hnum Hi. destruct num as [|[|n]]; [lia | lia |].
  unfold linspace. set (m := (S (S n) - 1)%nat).
  assert (Hm : m = S n) by (unfold m; lia).
  assert (HI : INR m <> 0) by (rewrite Hm; apply not_0_INR; lia).
  destruct (Nat.lt_ge_cases i m) as [Hlt|Hge].
  - rewrite app_nth1 by (rewrite length_map, length_seq; exact Hlt).
    rewrite (nth_map_lt _ _ _ 0%nat) by (rewrite length_seq; exact Hlt).
    rewrite seq_nth by exact Hlt. simpl. ring.
  - rewrite app_nth2 by (rewrite length_map, length_seq; exact Hge).
    rewrite length_map, length_seq.
    replace (i - m)%nat with 0%nat by lia.
    replace i with m by lia. simpl nth. field. exact HI.
Qed.

Lemma length_linspace (start stop : R) (num : nat) :
  length (linspace start stop num) = num.
Proof.
  destruct num as [|[|n]]; [reflexivity | reflexivity |].
  unfold linspace. rewrite length_app, length_map, length_seq. simpl. lia.
Qed.

Section Fit.

Variable polyfit : list R -> list R -> nat -> list R.

(** [get_ADR] turns the refraction curve by [angle].  It leaves the
    wavelength grid and the dither pattern alone; both components have one
    entry per wavelength; at every wavelength the squares of the two
    components add up to the square of the curve; at the default angle 0
    the refraction lies along x ([ADRx] is the curve, [ADRy] is 0), at 90
    degrees along y. *)
Theorem get_ADR_rotation (self : extract) (angle : R) :
  let c := ADR_curve polyfit (wave self) in
  let s := get_ADR polyfit self angle in
  wave s = wave self /\
  dither_pattern s = dither_pattern self /\
  length (ADRx s) = length (wave self) /\
  length (ADRy s) = length (wave self) /\
  (forall i, nth i (ADRx s) 0 * nth i (ADRx s) 0
             + nth i (ADRy s) 0 * nth i (ADRy s) 0
             = nth i c 0 * nth i c 0) /\
  ADRx (get_ADR polyfit self 0) = c /\
  ADRy (get_ADR polyfit self 0) = repeat 0 (length (wave self)) /\
  ADRx (get_ADR polyfit self 90) = repeat 0 (length (wave self)) /\
  ADRy (get_ADR polyfit self 90) = c.
Proof.
  intros c s.
  assert (Hc : length c = length (wave self))
    by (unfold c, ADR_curve; now rewrite length_map).
  split; [reflexivity|]. split; [reflexivity|].
  split; [unfold s, get_ADR; cbn [ADRx]; now rewrite length_map|].
  split; [unfold s, get_ADR; cbn [ADRy]; now rewrite length_map|].
  split.
  { intros i. unfold s, get_ADR. cbn [ADRx ADRy]. fold c.
    destruct (Nat.lt_ge_cases i (length c)) as [Hi|Hi].
    - rewrite !(nth_map_lt _ _ _ 0) by exact Hi.
      pose proof (sin2_cos2 (deg2rad angle)) as H. unfold Rsqr in H.
      set (co := cos (deg2rad angle)) in *.
      set (si := sin (deg2rad angle)) in *.
      replace (co * nth i c 0 * (co * nth i c 0)
               + si * nth i c 0 * (si * nth i c 0))
        with ((si * si + co * co) * (nth i c 0 * nth i c 0)) by ring.
      rewrite H. ring.
    - rewrite !nth_overflow by (rewrite ?length_map; lia). ring. }
  unfold get_ADR. cbn [ADRx ADRy]. fold c.
  rewrite deg2rad_0, deg2rad_90, cos_0, sin_0, cos_PI2, sin_PI2.
  rewrite map_scale_1, map_scale_0, Hc. auto.
Qed.

(** The object [Extract(wave)] leaves.  Its wavelength grid is the one
    given, or [get_wave()] when none is; the refraction was computed at
    angle 0, so [ADRx] is the refraction curve on that grid and [ADRy] is
    0 at every wavelength; the dither pattern is the default of three
    exposures.  The default grid has 1036 wavelengths, [3470 + 2*i]. *)
Theorem init_state (w : option (list R)) :
  let s := init polyfit w in
  wave s = match w with Some l => l | None => get_wave end /\
  ADRx s = ADR_curve polyfit (wave s) /\
  ADRy s = repeat 0 (length (wave s)) /\
  dither_pattern s = default_dither_pattern /\
  length (dither_pattern s) = 3%nat /\
  length (wave (init polyfit None)) = 1036%nat /\
  wave (init polyfit None)
  = map (fun i => 3470 + 2 * INR i) (seq 0 1036).
Proof.
  intros s.
  assert (Hlen : length (wave (init polyfit None)) = 1036%nat)
    by (cbn [init get_ADR set_dither_pattern wave]; apply length_linspace).
  split; [reflexivity|].
  split.
  { unfold s, init, set_dither_pattern, get_ADR. cbn [ADRx wave].
    rewrite deg2rad_0, cos_0. apply map_scale_1. }
  split.
  { unfold s, init, set_dither_pattern, get_ADR. cbn [ADRy wave].
    rewrite deg2rad_0, sin_0, map_scale_0.
    unfold ADR_curve. now rewrite length_map. }
  split; [reflexivity|]. split; [reflexivity|]. split; [exact Hlen|].
  apply (nth_ext _ _ 0 0).
  - rewrite Hlen, length_map, length_seq. reflexivity.
  - intros i Hi. rewrite Hlen in Hi.
    rewrite (nth_map_lt _ _ _ 0%nat) by (rewrite length_seq; exact Hi).
    rewrite seq_nth by exact Hi.
    cbn [init get_ADR set_dither_pattern wave]. unfold get_wave.
    rewrite nth_linspace by lia.
    replace (INR (1036 - 1)) with 1035.
    + simpl. field.
    + change (1036 - 1)%nat with 1035%nat. rewrite INR_IZR_INZ. reflexivity.
Qed.

End Fit.

End ContextFacts.
